(** * yass: a shallow embedding of the two SAT searches of [yass.py]

    The Python program keeps a formula as a graph of mutable objects: the
    list [f.vars] of [Var] objects, and clauses whose literals refer to those
    same [Var] objects.  Here the list [vars] is the store, a literal refers
    to its variable by the position of that object in the store, and every
    function that reads or writes an assignment takes the store and gives it
    back. *)

From Stdlib Require Import Ascii DecimalString DecimalZ DecimalPos.
From stdpp Require Import strings.
From stdpp Require Import base option list numbers.

Open Scope Z_scope.
Open Scope nat_scope.

(** ** Data model (classes [Var], [Lit], [Clause], [Formula]) *)

(** [Var]: a name and a value, the value being [None], [True] or [False]. *)
Record Var := mkVar { name : Z; value : option bool }.

(** [Lit]: [var] refers to a [Var] object of the formula, by its position in
    [f.vars]; [sign] is the polarity. *)
Record Lit := mkLit { var : nat; sign : bool }.

Record Clause := mkClause { lits : list Lit }.

Record Formula := mkFormula { vars : list Var; clauses : list Clause }.

(** ** Python primitives used by the program *)

(** [x == y] on the values [None], [True], [False]. *)
Definition py_eq (x y : option bool) : bool := bool_decide (x = y).

(** Truth value of [None], [True], [False] in a condition: only [True] is
    truthy. *)
Definition truthy (x : option bool) : bool :=
  match x with
  | Some true => true
  | Some false | None => false
  end.

(** [l[i]] for a Python list of length [len]: the position read, where a
    negative index counts from the end and anything else out of range raises
    [IndexError] (here [None]). *)
Definition py_index (len : nat) (i : Z) : option nat :=
  if bool_decide (0 ≤ i < Z.of_nat len)%Z then Some (Z.to_nat i)
  else if bool_decide (- Z.of_nat len ≤ i < 0)%Z then Some (Z.to_nat (Z.of_nat len + i))
  else None.

(** [self.var.value] for the [Var] object at position [r] of the store.  A
    reference of a literal always points to an object; a position outside the
    store stands for no object of the program and reads as [None]. *)
Definition var_value (vs : list Var) (r : nat) : option bool :=
  v ← vs !! r; value v.

(** [v.value = x] for the [Var] object at position [i]. *)
Definition set_value (i : nat) (x : option bool) (vs : list Var) : list Var :=
  alter (λ v, mkVar (name v) x) i vs.

(** ** Methods of [Lit], [Clause] and [Formula] *)

Module Lit.
(** [return self.var.value == self.sign] *)
Definition sat (vs : list Var) (l : Lit) : bool :=
  py_eq (var_value vs (var l)) (Some (sign l)).

(** [if self.var.value == None or self.sat(): return False; return True] *)
Definition unsat (vs : list Var) (l : Lit) : bool :=
  if py_eq (var_value vs (var l)) None || sat vs l then false else true.
End Lit.

Module Clause.
(** [for l in self.lits: if l.sat(): return True] then [return False] *)
Fixpoint sat_loop (vs : list Var) (ls : list Lit) : bool :=
  match ls with
  | [] => false
  | l :: ls' => if Lit.sat vs l then true else sat_loop vs ls'
  end.

Definition sat (vs : list Var) (c : Clause) : bool := sat_loop vs (lits c).

(** [for l in self.lits: if not l.unsat(): return False] then
    [return True] *)
Fixpoint unsat_loop (vs : list Var) (ls : list Lit) : bool :=
  match ls with
  | [] => true
  | l :: ls' => if negb (Lit.unsat vs l) then false else unsat_loop vs ls'
  end.

Definition unsat (vs : list Var) (c : Clause) : bool := unsat_loop vs (lits c).

(** [__len__] *)
Definition len (c : Clause) : nat := length (lits c).
End Clause.

Module Formula.
(** [for c in self.clauses: if not c.sat(): return False] then
    [return True] *)
Fixpoint sat_loop (vs : list Var) (cs : list Clause) : bool :=
  match cs with
  | [] => true
  | c :: cs' => if negb (Clause.sat vs c) then false else sat_loop vs cs'
  end.

Definition sat (f : Formula) : bool := sat_loop (vars f) (clauses f).

(** [for c in self.clauses: if c.unsat(): return True] then
    [return False] *)
Fixpoint unsat_loop (vs : list Var) (cs : list Clause) : bool :=
  match cs with
  | [] => false
  | c :: cs' => if Clause.unsat vs c then true else unsat_loop vs cs'
  end.

Definition unsat (f : Formula) : bool := unsat_loop (vars f) (clauses f).
End Formula.

(** ** [backtrack] *)

(** The formula after [v.value = x] for the variable at position [i]. *)
Definition assign (i : nat) (x : option bool) (f : Formula) : Formula :=
  mkFormula (set_value i x (vars f)) (clauses f).

(** [for v in f.vars: if v.value == None: ...]: the position of the first
    variable whose value is [None], if there is one. *)
Definition first_unassigned (vs : list Var) : option nat :=
  fst <$> list_find (λ v, value v = None) vs.

(** Number of variables whose value is [None]. *)
Definition unassigned (vs : list Var) : nat :=
  length (filter (λ v, value v = None) vs).

(** What a search call leaves behind: the value returned ([None], or the
    list [f.vars] itself) and the formula as mutated. *)
Definition search_result : Type := option (list Var) * Formula.

(** Lines 10-21: the loop [for value in [True, False]] over the values still
    to try, for the variable at position [i]; [rec] is the recursive call.
    When the values are used up, the variable is reset and [None] returned. *)
Fixpoint for_value (rec : Formula → option search_result) (i : nat)
    (values : list bool) (f : Formula) : option search_result :=
  match values with
  | [] => Some (None, assign i None f)
  | value :: values' =>
      let f1 := assign i (Some value) f in
      if negb (Formula.unsat f1) then
        match rec f1 with
        | None => None
        | Some (Some r, f2) => Some (Some r, f2)
        | Some (None, f2) => for_value rec i values' f2
        end
      else for_value rec i values' f1
  end.

(** [backtrack(f)] as it runs while the interpreter's stack has room, with
    [fuel] bounding the depth of nested calls; the outer [None] is "fuel
    used up". *)
Fixpoint backtrack_fuel (fuel : nat) (f : Formula) : option search_result :=
  match fuel with
  | 0 => None
  | S fuel' =>
      match first_unassigned (vars f) with
      | Some i => for_value (backtrack_fuel fuel') i [true; false] f
      | None =>
          if Formula.sat f then Some (Some (vars f), f) else Some (None, f)
      end
  end.

(** What [backtrack(f)] returns when the stack has room for the search:
    the fuel given here is always enough.  The call on a stack with a given
    room, which can end in [RecursionError], is [Stack.backtrack] below. *)
Definition backtrack (f : Formula) : option search_result :=
  backtrack_fuel (S (unassigned (vars f))) f.

(** ** [dpll] *)

(** A [Clause] object is identified by its position in the original
    [f.clauses]: [Clause] defines no [__eq__], so [x not in unit_clauses]
    compares objects by identity. *)
Fixpoint enumerate_from (k : nat) (cs : list Clause) : list (nat * Clause) :=
  match cs with
  | [] => []
  | c :: cs' => (k, c) :: enumerate_from (S k) cs'
  end.

Definition enumerate (cs : list Clause) : list (nat * Clause) :=
  enumerate_from 0 cs.

(** [int(lit.var.name) - 1] as an index into [f.vars] (lines 37 and 43):
    the position it reads, or [None] when the index is out of range. *)
Definition lit_index (vs : list Var) (lit : Lit) : option nat :=
  v ← vs !! var lit; py_index (length vs) (name v - 1).

(** How the loop of lines 33-44 ends. *)
Inductive scan_outcome :=
  | ScanRaise                       (* an index out of range, lines 36-37 *)
  | ScanConflict (vs : list Var)    (* [return None], line 40 *)
  | ScanDone (vs : list Var) (unit_clauses : list nat).

(** Lines 33-44: [for c in f.clauses], the store and [unit_clauses] threaded
    through the iterations. *)
Fixpoint unit_scan (cs : list (nat * Clause)) (vs : list Var)
    (unit_clauses : list nat) : scan_outcome :=
  match cs with
  | [] => ScanDone vs unit_clauses
  | (k, c) :: cs' =>
      if bool_decide (Clause.len c = 1) then
        match lits c with
        | [] => ScanRaise
        | lit :: _ =>
            match lit_index vs lit with
            | None => ScanRaise
            | Some j =>
                let curr_val := var_value vs j in
                if truthy curr_val && negb (py_eq curr_val (Some (sign lit)))
                then ScanConflict vs
                else unit_scan cs' (set_value j (Some (sign lit)) vs)
                       (unit_clauses ++ [k])
            end
        end
      else unit_scan cs' vs unit_clauses
  end.

(** Line 47: [[x for x in f.clauses if x not in unit_clauses]]. *)
Definition not_in_units (unit_clauses : list nat) (cs : list (nat * Clause))
    : list Clause :=
  snd <$> filter (λ x, x.1 ∉ unit_clauses) cs.

(** The state in which [dpll] leaves its pre-pass (lines 32-47). *)
Inductive prepass_outcome :=
  | IndexError
  | Conflict (f : Formula)      (* [return None] at line 40 *)
  | Delegate (f : Formula).     (* line 50 is reached with this formula *)

Definition prepass (f : Formula) : prepass_outcome :=
  match unit_scan (enumerate (clauses f)) (vars f) [] with
  | ScanRaise => IndexError
  | ScanConflict vs => Conflict (mkFormula vs (clauses f))
  | ScanDone vs unit_clauses =>
      Delegate (mkFormula vs (not_in_units unit_clauses (enumerate (clauses f))))
  end.

(** Outcome of a call of [dpll]: an exception, or a returned value with the
    formula as mutated. *)
Inductive outcome :=
  | Raise
  | Return (r : option (list Var)) (f : Formula).

(** [dpll(f)] when the stack has room; the outer [None] is again "fuel
    used up" in [backtrack].  [Stack.dpll] below is the call with a given
    room. *)
Definition dpll (f : Formula) : option outcome :=
  match prepass f with
  | IndexError => Some Raise
  | Conflict f' => Some (Return None f')
  | Delegate f' =>
      match backtrack f' with
      | None => None
      | Some (r, f'') => Some (Return r f'')
      end
  end.

(** ** Well-formed formulas and their construction *)

(** What [read_formula] guarantees (lines 151 and 164): the [Var] at position
    [k] is named [k + 1], and every literal refers to a [Var] of the
    formula. *)
Fixpoint names_from (k : nat) (vs : list Var) : bool :=
  match vs with
  | [] => true
  | v :: vs' => bool_decide (name v = Z.of_nat k + 1)%Z && names_from (S k) vs'
  end.

Definition lit_in_range (n : nat) (l : Lit) : bool := bool_decide (var l < n).

Definition wf_formula (f : Formula) : bool :=
  names_from 0 (vars f)
  && forallb (λ c, forallb (lit_in_range (length (vars f))) (lits c)) (clauses f).

(** Line 151: [[Var(name + 1) for name in range(nvars)]]. *)
Definition fresh_vars (nvars : nat) : list Var :=
  (λ k, mkVar (Z.of_nat k + 1) None) <$> seq 0 nvars.

(** Lines 160-164 for one nonzero integer of a row:
    [Lit(vars[abs(cvar) - 1], cvar > 0)]. *)
Definition lit_of (cvar : Z) : Lit :=
  mkLit (Z.to_nat (Z.abs cvar - 1)) (bool_decide (0 < cvar)%Z).

(** The formula [read_formula] builds for [nvars] variables and the given
    rows of literals (the closing 0 of each row left out). *)
Definition cnf (nvars : nat) (rows : list (list Z)) : Formula :=
  mkFormula (fresh_vars nvars) ((λ row, mkClause (lit_of <$> row)) <$> rows).

(** The values of the variables, in index order. *)
Definition values (vs : list Var) : list (option bool) := value <$> vs.

(** ** The calls made by a run of [backtrack] *)

#[local] Set Warnings "-register-all".

(** A call of [backtrack], with the formula it was entered on and the
    recursive calls it made, in order. *)
Inductive call_tree := Call (f : Formula) (calls : list call_tree).

Definition entered_on (t : call_tree) : Formula :=
  match t with Call f _ => f end.

(** [for_value] recording the recursive calls made. *)
Fixpoint for_value_trace
    (rec : Formula → option (search_result * call_tree)) (i : nat)
    (values : list bool) (f : Formula) (made : list call_tree)
    : option (search_result * list call_tree) :=
  match values with
  | [] => Some ((None, assign i None f), made)
  | value :: values' =>
      let f1 := assign i (Some value) f in
      if negb (Formula.unsat f1) then
        match rec f1 with
        | None => None
        | Some ((Some r, f2), t) => Some ((Some r, f2), made ++ [t])
        | Some ((None, f2), t) => for_value_trace rec i values' f2 (made ++ [t])
        end
      else for_value_trace rec i values' f1 made
  end.

(** [backtrack_fuel] recording its tree of calls. *)
Fixpoint backtrack_trace (fuel : nat) (f : Formula)
    : option (search_result * call_tree) :=
  match fuel with
  | 0 => None
  | S fuel' =>
      match first_unassigned (vars f) with
      | Some i =>
          match for_value_trace (backtrack_trace fuel') i [true; false] f [] with
          | None => None
          | Some (res, ts) => Some (res, Call f ts)
          end
      | None =>
          if Formula.sat f then Some ((Some (vars f), f), Call f [])
          else Some ((None, f), Call f [])
      end
  end.

(** Depth of nesting of the calls: 1 for a call that makes none. *)
Fixpoint depth (t : call_tree) : nat :=
  match t with
  | Call _ ts => S (foldr (λ t' d, depth t' `max` d) 0 ts)
  end.

(** Number of calls entered with every variable assigned, that is, of
    complete assignments put to [f.sat()] (line 24). *)
Fixpoint complete_assignments (t : call_tree) : nat :=
  match t with
  | Call f ts =>
      (if first_unassigned (vars f) is None then 1 else 0)
      + foldr (λ t' n, complete_assignments t' + n) 0 ts
  end.

(** Every recursive call in the tree is entered with strictly fewer
    unassigned variables than the call that makes it. *)
Fixpoint decreasing (t : call_tree) : bool :=
  match t with
  | Call f ts =>
      forallb (λ t', bool_decide (unassigned (vars (entered_on t'))
                                  < unassigned (vars f))
                     && decreasing t') ts
  end.

(** ** The interpreter's stack

    CPython bounds the number of frames of Python functions that are on its
    stack at one time ([sys.getrecursionlimit()], 1000 unless it is changed,
    and the program never changes it): a call that would push one frame more
    raises [RecursionError] in the caller.  In [Stack] every function of the
    program that calls another one takes the room [d] there is at its call,
    the number of frames that can still be pushed: the call raises when [d]
    is 0, and the body runs with one frame less.  The built-ins the searches
    use ([==], [len] on a list, [int], indexing) push no frame.  Some
    versions of the interpreter charge the same limit for the time a
    comparison or a built-in runs; this is not modelled, and the room asked
    for in the properties of [backtrack] and [dpll] on formulas with clauses
    leaves a frame free for it.

    [backtrack] and [dpll] above are these functions with room enough for
    the formula they are given: whenever a call returns, it returns what
    they give, whatever the room was (lemmas [Stack_backtrack_returned] and
    [Stack_dpll_returned]). *)

Module Stack.

(** Frames left for a call made at the top level of a script (lines 194
    and 198) under the default limit: the module's own frame is in use. *)
Definition at_top_level : nat := 999.

(** [l.sat()]; [None] is [RecursionError]. *)
Definition Lit_sat (d : nat) (vs : list Var) (l : Lit) : option bool :=
  match d with
  | 0 => None
  | S _ => Some (py_eq (var_value vs (var l)) (Some (sign l)))
  end.

(** [l.unsat()]: [self.sat()] is called only when the value is not
    [None]. *)
Definition Lit_unsat (d : nat) (vs : list Var) (l : Lit) : option bool :=
  match d with
  | 0 => None
  | S d' =>
      if py_eq (var_value vs (var l)) None then Some false
      else
        match Lit_sat d' vs l with
        | None => None
        | Some true => Some false
        | Some false => Some true
        end
  end.

(** The loop of [Clause.sat], run with room [d] for each call it makes. *)
Fixpoint Clause_sat_loop (d : nat) (vs : list Var) (ls : list Lit)
    : option bool :=
  match ls with
  | [] => Some false
  | l :: ls' =>
      match Lit_sat d vs l with
      | None => None
      | Some true => Some true
      | Some false => Clause_sat_loop d vs ls'
      end
  end.

(** [c.sat()] *)
Definition Clause_sat (d : nat) (vs : list Var) (c : Clause) : option bool :=
  match d with
  | 0 => None
  | S d' => Clause_sat_loop d' vs (lits c)
  end.

Fixpoint Clause_unsat_loop (d : nat) (vs : list Var) (ls : list Lit)
    : option bool :=
  match ls with
  | [] => Some true
  | l :: ls' =>
      match Lit_unsat d vs l with
      | None => None
      | Some false => Some false
      | Some true => Clause_unsat_loop d vs ls'
      end
  end.

(** [c.unsat()] *)
Definition Clause_unsat (d : nat) (vs : list Var) (c : Clause)
    : option bool :=
  match d with
  | 0 => None
  | S d' => Clause_unsat_loop d' vs (lits c)
  end.

(** [len(c)], which calls [Clause.__len__]. *)
Definition Clause_len (d : nat) (c : Clause) : option nat :=
  match d with
  | 0 => None
  | S _ => Some (length (lits c))
  end.

Fixpoint Formula_sat_loop (d : nat) (vs : list Var) (cs : list Clause)
    : option bool :=
  match cs with
  | [] => Some true
  | c :: cs' =>
      match Clause_sat d vs c with
      | None => None
      | Some false => Some false
      | Some true => Formula_sat_loop d vs cs'
      end
  end.

(** [f.sat()] *)
Definition Formula_sat (d : nat) (f : Formula) : option bool :=
  match d with
  | 0 => None
  | S d' => Formula_sat_loop d' (vars f) (clauses f)
  end.

Fixpoint Formula_unsat_loop (d : nat) (vs : list Var) (cs : list Clause)
    : option bool :=
  match cs with
  | [] => Some false
  | c :: cs' =>
      match Clause_unsat d vs c with
      | None => None
      | Some true => Some true
      | Some false => Formula_unsat_loop d vs cs'
      end
  end.

(** [f.unsat()] *)
Definition Formula_unsat (d : nat) (f : Formula) : option bool :=
  match d with
  | 0 => None
  | S d' => Formula_unsat_loop d' (vars f) (clauses f)
  end.

(** The exceptions of the two searches. *)
Inductive exn := RecursionError | IndexError.

(** How a call of [backtrack] or [dpll] ends: with the value returned, or
    with an exception that nothing in the program catches; either way with
    the formula as the call has mutated it. *)
Inductive outcome :=
  | Returned (r : option (list Var)) (f : Formula)
  | Raised (e : exn) (f : Formula).

(** The formula a call leaves behind. *)
Definition formula_of (o : outcome) : Formula :=
  match o with
  | Returned _ f | Raised _ f => f
  end.

(** Lines 10-21 with room [d] for the calls of lines 12 and 13.  An
    exception leaves the loop at once: line 20 is not run, and the values
    given so far stay. *)
Fixpoint for_value (rec : Formula → outcome) (d : nat) (i : nat)
    (values : list bool) (f : Formula) : outcome :=
  match values with
  | [] => Returned None (assign i None f)
  | value :: values' =>
      let f1 := assign i (Some value) f in
      match Formula_unsat d f1 with
      | None => Raised RecursionError f1
      | Some true => for_value rec d i values' f1
      | Some false =>
          match rec f1 with
          | Returned (Some r) f2 => Returned (Some r) f2
          | Returned None f2 => for_value rec d i values' f2
          | Raised e f2 => Raised e f2
          end
      end
  end.

(** [backtrack(f)] called with room [d]. *)
Fixpoint backtrack (d : nat) (f : Formula) : outcome :=
  match d with
  | 0 => Raised RecursionError f
  | S d' =>
      match first_unassigned (vars f) with
      | Some i => for_value (backtrack d') d' i [true; false] f
      | None =>
          match Formula_sat d' f with
          | None => Raised RecursionError f
          | Some true => Returned (Some (vars f)) f
          | Some false => Returned None f
          end
      end
  end.

(** How the loop of lines 33-44 ends. *)
Inductive scan_outcome :=
  | ScanRaised (e : exn) (vs : list Var)
  | ScanConflict (vs : list Var)
  | ScanDone (vs : list Var) (unit_clauses : list nat).

(** Lines 33-44 with room [d] for the call [len(c)] of line 35. *)
Fixpoint unit_scan (d : nat) (cs : list (nat * Clause)) (vs : list Var)
    (unit_clauses : list nat) : scan_outcome :=
  match cs with
  | [] => ScanDone vs unit_clauses
  | (k, c) :: cs' =>
      match Clause_len d c with
      | None => ScanRaised RecursionError vs
      | Some n =>
          if bool_decide (n = 1) then
            match lits c with
            | [] => ScanRaised IndexError vs
            | lit :: _ =>
                match lit_index vs lit with
                | None => ScanRaised IndexError vs
                | Some j =>
                    let curr_val := var_value vs j in
                    if truthy curr_val
                       && negb (py_eq curr_val (Some (sign lit)))
                    then ScanConflict vs
                    else unit_scan d cs' (set_value j (Some (sign lit)) vs)
                           (unit_clauses ++ [k])
                end
            end
          else unit_scan d cs' vs unit_clauses
      end
  end.

(** [dpll(f)] called with room [d].  Where the list comprehension of
    line 47 pushes a frame of its own, the outcome is the same: with no room
    for it there is none for the call of line 50 either, the loop before it
    has then met no clause, and the list of clauses is empty before and
    after line 47. *)
Definition dpll (d : nat) (f : Formula) : outcome :=
  match d with
  | 0 => Raised RecursionError f
  | S d' =>
      match unit_scan d' (enumerate (clauses f)) (vars f) [] with
      | ScanRaised e vs => Raised e (mkFormula vs (clauses f))
      | ScanConflict vs => Returned None (mkFormula vs (clauses f))
      | ScanDone vs unit_clauses =>
          backtrack d'
            (mkFormula vs (not_in_units unit_clauses (enumerate (clauses f))))
      end
  end.

(** [for_value] recording the calls of [backtrack] that were entered. *)
Fixpoint for_value_trace (rec : Formula → outcome * list call_tree)
    (d : nat) (i : nat) (values : list bool) (f : Formula)
    (made : list call_tree) : outcome * list call_tree :=
  match values with
  | [] => (Returned None (assign i None f), made)
  | value :: values' =>
      let f1 := assign i (Some value) f in
      match Formula_unsat d f1 with
      | None => (Raised RecursionError f1, made)
      | Some true => for_value_trace rec d i values' f1 made
      | Some false =>
          match rec f1 with
          | (Returned (Some r) f2, ts) => (Returned (Some r) f2, made ++ ts)
          | (Returned None f2, ts) =>
              for_value_trace rec d i values' f2 (made ++ ts)
          | (Raised e f2, ts) => (Raised e f2, made ++ ts)
          end
      end
  end.

(** [backtrack] recording its tree of calls: no tree when the call could
    not be entered, else the tree of the call, as far as it got. *)
Fixpoint backtrack_trace (d : nat) (f : Formula) : outcome * list call_tree :=
  match d with
  | 0 => (Raised RecursionError f, [])
  | S d' =>
      match first_unassigned (vars f) with
      | Some i =>
          let (out, ts) :=
            for_value_trace (backtrack_trace d') d' i [true; false] f [] in
          (out, [Call f ts])
      | None =>
          (match Formula_sat d' f with
           | None => Raised RecursionError f
           | Some true => Returned (Some (vars f)) f
           | Some false => Returned None f
           end, [Call f []])
      end
  end.

End Stack.

(** ** Text: the built-ins the program applies to [str] values

    A [str] is modelled as a [string], a sequence of characters with code
    points below 256; text with other characters is outside the model. *)

(** The line feed and the carriage return. *)
Definition LF : ascii := "010"%char.
Definition CR : ascii := "013"%char.

(** The white space of [str.strip()] and [str.split()]: the characters [c]
    with [c.isspace()], which below 256 are 9-13, 28-32, 133 and 160. *)
Definition py_isspace (c : ascii) : bool :=
  let n := nat_of_ascii c in
  (9 <=? n) && (n <=? 13) || (28 <=? n) && (n <=? 32)
  || (n =? 133) || (n =? 160).

(** [s.lstrip()], [s.rstrip()] and [s.strip()]. *)
Fixpoint lstrip (s : string) : string :=
  match s with
  | EmptyString => EmptyString
  | String c s' => if py_isspace c then lstrip s' else s
  end.

Fixpoint rstrip (s : string) : string :=
  match s with
  | EmptyString => EmptyString
  | String c s' =>
      match rstrip s' with
      | EmptyString => if py_isspace c then EmptyString else String c EmptyString
      | r => String c r
      end
  end.

Definition strip (s : string) : string := rstrip (lstrip s).

(** [s.split()]: the maximal runs of characters that are not white space,
    in order; [cur] is the run being read. *)
Fixpoint split_from (cur : string) (s : string) : list string :=
  match s with
  | EmptyString => if cur is EmptyString then [] else [cur]
  | String c s' =>
      if py_isspace c then
        (if cur is EmptyString then [] else [cur]) ++ split_from EmptyString s'
      else split_from (cur +:+ String c EmptyString) s'
  end.

Definition split (s : string) : list string := split_from EmptyString s.

(** [str(z)] for an [int]. *)
Definition py_str (z : Z) : string := NilZero.string_of_int (Z.to_int z).

(** The decimal digit a character stands for, as the constructor that puts
    it in front of a number; among the characters below 256 only [0] to [9]
    are decimal digits. *)
Definition digit_of (c : ascii) : option (Decimal.uint → Decimal.uint) :=
  if bool_decide (c = "0"%char) then Some Decimal.D0
  else if bool_decide (c = "1"%char) then Some Decimal.D1
  else if bool_decide (c = "2"%char) then Some Decimal.D2
  else if bool_decide (c = "3"%char) then Some Decimal.D3
  else if bool_decide (c = "4"%char) then Some Decimal.D4
  else if bool_decide (c = "5"%char) then Some Decimal.D5
  else if bool_decide (c = "6"%char) then Some Decimal.D6
  else if bool_decide (c = "7"%char) then Some Decimal.D7
  else if bool_decide (c = "8"%char) then Some Decimal.D8
  else if bool_decide (c = "9"%char) then Some Decimal.D9
  else None.

(** The digits of an integer literal as [int()] reads them: at least one
    digit, single underscores allowed between digits.  [after_digit] tells
    whether the character before was a digit. *)
Fixpoint int_digits (s : string) (after_digit : bool) : option Decimal.uint :=
  match s with
  | EmptyString => if after_digit then Some Decimal.Nil else None
  | String c s' =>
      if bool_decide (c = "_"%char) then
        if after_digit then int_digits s' false else None
      else
        match digit_of c with
        | Some d => d <$> int_digits s' true
        | None => None
        end
  end.

(** [int(t)] for a [str] [t] without white space, which is what the program
    applies it to (every argument is a token of [split()]): an optional sign
    and the digits; [None] stands for [ValueError].  Integers are unbounded;
    the limit an interpreter may put on the number of digits is left out. *)
Definition int_of_token (t : string) : option Z :=
  match t with
  | String c t' =>
      if bool_decide (c = "-"%char) then
        (λ d, Z.of_int (Decimal.Neg d)) <$> int_digits t' false
      else if bool_decide (c = "+"%char) then
        (λ d, Z.of_int (Decimal.Pos d)) <$> int_digits t' false
      else (λ d, Z.of_int (Decimal.Pos d)) <$> int_digits t false
  | EmptyString => None
  end.

(** The lines a text file with the given content yields when it is iterated
    in text mode: every line ends where a line feed, a carriage return or
    the two in a row stand, each read as one line feed, which the line
    keeps; [cur] is the line being read. *)
Fixpoint file_lines_from (cur : string) (s : string) : list string :=
  match s with
  | EmptyString => if cur is EmptyString then [] else [cur]
  | String c s' =>
      if bool_decide (c = LF) then
        (cur +:+ String LF EmptyString) :: file_lines_from EmptyString s'
      else if bool_decide (c = CR) then
        match s' with
        | String c' s'' =>
            if bool_decide (c' = LF) then
              (cur +:+ String LF EmptyString) :: file_lines_from EmptyString s''
            else
              (cur +:+ String LF EmptyString) :: file_lines_from EmptyString s'
        | EmptyString => [cur +:+ String LF EmptyString]
        end
      else file_lines_from (cur +:+ String c EmptyString) s'
  end.

Definition file_lines (content : string) : list string :=
  file_lines_from EmptyString content.

(** ** The [__str__] methods and [print_soln] *)

(** [Var.__str__]: [str(self.name)]. *)
Definition Var_str (v : Var) : string := py_str (name v).

(** [Lit.__str__]: the name of the variable, after a [-] when the sign is
    [False].  The variable is read in the store; a position outside the
    store stands for no object of the program and gives the empty string. *)
Definition Lit_str (vs : list Var) (l : Lit) : string :=
  match vs !! var l with
  | Some v => if sign l then Var_str v else "-" +:+ Var_str v
  | None => EmptyString
  end.

(** [Clause.__str__]: [" ".join([str(l) for l in self.lits]) + " 0"]. *)
Definition Clause_str (vs : list Var) (c : Clause) : string :=
  String.concat " " (Lit_str vs <$> lits c) +:+ " 0".

(** [Formula.__str__]: the comment line, the header and the clauses, one to
    a line. *)
Definition Formula_str (f : Formula) : string :=
  ("c Formula in DIMACS format" +:+ String LF EmptyString)
  +:+ ("p cnf " +:+ py_str (Z.of_nat (length (vars f))) +:+ " "
       +:+ py_str (Z.of_nat (length (clauses f))) +:+ String LF EmptyString)
  +:+ String.concat (String LF EmptyString) (Clause_str (vars f) <$> clauses f).

(** Lines 177-181: what the loop appends to [asgs] for one variable. *)
Definition soln_tokens (v : Var) : list string :=
  match value v with
  | Some true => [Var_str v]
  | Some false => ["-" +:+ Var_str v]
  | None => []
  end.

(** [print_soln(soln)]: the lines it prints. *)
Definition print_soln (soln : option (list Var)) : list string :=
  match soln with
  | None => ["s UNSATISFIABLE"%string]
  | Some vs =>
      ["s SATISFIABLE"%string;
       String.concat " " (("v"%string :: (vs ≫= soln_tokens)) ++ ["0"%string])]
  end.

(** ** [read_formula] *)

Module Exn.
Inductive t :=
  | StopIteration | IndexError | AssertionError | ValueError.
End Exn.

(** A call returns a value or raises an exception. *)
Inductive py_result (A : Type) :=
  | Returns (a : A)
  | Raises (e : Exn.t).
Arguments Returns {A} a.
Arguments Raises {A} e.

(** Lines 139-142: read lines up to the first one that, stripped, does not
    begin with [c]; that line, stripped, and the lines left in the file. *)
Fixpoint skip_comments (lines : list string)
    : py_result (string * list string) :=
  match lines with
  | [] => Raises Exn.StopIteration
  | line :: lines' =>
      match strip line with
      | EmptyString => Raises Exn.IndexError
      | String c _ as header =>
          if bool_decide (c ≠ "c"%char) then Returns (header, lines')
          else skip_comments lines'
      end
  end.

(** Lines 145-150: the two numbers of the header. *)
Definition parse_header (header : string) : py_result (Z * Z) :=
  match split header with
  | [h0; h1; h2; h3] =>
      if negb (bool_decide (h0 = "p"%string)) then Raises Exn.AssertionError
      else if negb (bool_decide (h1 = "cnf"%string))
      then Raises Exn.AssertionError
      else
        match int_of_token h2 with
        | None => Raises Exn.ValueError
        | Some nvars =>
            match int_of_token h3 with
            | None => Raises Exn.ValueError
            | Some nclauses => Returns (nvars, nclauses)
            end
        end
  | _ => Raises Exn.AssertionError
  end.

(** Lines 159-164: the literals of the tokens of a row but the last, for
    [nvars] variables. *)
Fixpoint read_lits (nvars : nat) (tokens : list string)
    : py_result (list Lit) :=
  match tokens with
  | [] => Returns []
  | t :: tokens' =>
      match int_of_token t with
      | None => Raises Exn.ValueError
      | Some cvar =>
          if bool_decide (cvar = 0%Z) then Raises Exn.AssertionError
          else
            match py_index nvars (Z.abs cvar - 1) with
            | None => Raises Exn.IndexError
            | Some j =>
                match read_lits nvars tokens' with
                | Returns ls =>
                    Returns (mkLit j (bool_decide (0 < cvar)%Z) :: ls)
                | Raises e => Raises e
                end
            end
      end
  end.

(** Lines 155-165: the clause of one row. *)
Definition read_row (nvars : nat) (row : string) : py_result Clause :=
  let cvars := split row in
  let ncvars := length cvars in
  match py_index ncvars (Z.of_nat ncvars - 1) ≫= (cvars !!.) with
  | None => Raises Exn.IndexError
  | Some last =>
      match int_of_token last with
      | None => Raises Exn.ValueError
      | Some z =>
          if negb (bool_decide (z = 0%Z)) then Raises Exn.AssertionError
          else
            match read_lits nvars (take (ncvars - 1) cvars) with
            | Returns ls => Returns (mkClause ls)
            | Raises e => Raises e
            end
      end
  end.

(** Lines 153-165: [for row in f], the clauses read so far in [clauses]. *)
Fixpoint read_rows (nvars : nat) (rows : list string) (clauses : list Clause)
    : py_result (list Clause) :=
  match rows with
  | [] => Returns clauses
  | row :: rows' =>
      match read_row nvars row with
      | Returns c => read_rows nvars rows' (clauses ++ [c])
      | Raises e => Raises e
      end
  end.

(** [read_formula], on the lines of the file. *)
Definition read_formula (lines : list string) : py_result Formula :=
  match skip_comments lines with
  | Raises e => Raises e
  | Returns (header, rows) =>
      match parse_header header with
      | Raises e => Raises e
      | Returns (nvars, nclauses) =>
          let vars := fresh_vars (Z.to_nat nvars) in
          match read_rows (length vars) rows [] with
          | Raises e => Raises e
          | Returns clauses => Returns (mkFormula vars clauses)
          end
      end
  end.

(** ** Vocabulary of the properties *)

(** What a successful call on [f] gives: the list returned is the store
    itself, the clauses and the names of the variables are those of [f],
    every clause is satisfied and no variable is left unassigned. *)
Record solved (f : Formula) (r : list Var) (f' : Formula) : Prop := {
  solved_alias : r = vars f';
  solved_clauses : clauses f' = clauses f;
  solved_names : name <$> vars f' = name <$> vars f;
  solved_sat : Formula.sat f' = true;
  solved_complete : first_unassigned (vars f') = None
}.

(** The store in which every unassigned variable has been given [True]. *)
Definition fill_true (vs : list Var) : list Var :=
  (λ v, if value v is None then mkVar (name v) (Some true) else v) <$> vs.

(** A recorded call entered with [n] unassigned variables: below it every
    call has fewer unassigned variables than its caller, calls nest at most
    [n] deep under it, and at most [2 ^ n] complete assignments are tested. *)
Definition within (n : nat) (t : call_tree) : Prop :=
  unassigned (vars (entered_on t)) = n ∧ decreasing t = true ∧
  depth t ≤ S n ∧ complete_assignments t ≤ 2 ^ n.

(** The names of the variables follow their positions: the [Var] at
    position [i] is named [i + 1]. *)
Definition names_ok (vs : list Var) : Prop :=
  ∀ i v, vs !! i = Some v → name v = (Z.of_nat i + 1)%Z.

(** Every literal of [cs] refers to one of [n] variables. *)
Definition in_range (n : nat) (cs : list Clause) : Prop :=
  ∀ c l, c ∈ cs → l ∈ lits c → var l < n.

(** [l] is the literal of a unit clause of [cs]. *)
Definition unit_lit (cs : list Clause) (l : Lit) : Prop :=
  ∃ c, c ∈ cs ∧ lits c = [l].

(** Variable [j] is the variable of no unit clause of [cs]. *)
Definition in_no_unit (cs : list Clause) (j : nat) : Prop :=
  ∀ c l, c ∈ cs → lits c = [l] → var l ≠ j.

(** No variable has unit clauses of both polarities. *)
Definition units_consistent (cs : list Clause) : Prop :=
  ∀ l1 l2, unit_lit cs l1 → unit_lit cs l2 → var l1 = var l2 →
           sign l1 = sign l2.

(** A total assignment [A] (by position of the variable) makes clause [c]
    true. *)
Definition models (A : nat → bool) (c : Clause) : Prop :=
  ∃ l, l ∈ lits c ∧ A (var l) = sign l.

(** [A] gives every assigned variable of the store the value it has. *)
Definition agrees (A : nat → bool) (vs : list Var) : Prop :=
  ∀ j b, var_value vs j = Some b → A j = b.

(** The values of a store as a total assignment, unassigned read as
    [False]. *)
Definition assignment_of (vs : list Var) (j : nat) : bool :=
  default false (var_value vs j).

(** The formula can still be completed to the model [A]. *)
Definition completable (A : nat → bool) (f : Formula) : Prop :=
  in_range (length (vars f)) (clauses f) ∧ agrees A (vars f) ∧
  ∀ c, c ∈ clauses f → models A c.

(** The store [vs'] has every assignment of [vs], and maybe more. *)
Definition extends_store (vs vs' : list Var) : Prop :=
  ∀ j b, var_value vs j = Some b → var_value vs' j = Some b.

(** [A] is met no later than [B] by a search over [n] variables that takes
    the variables in index order and tries [True] before [False]: they are
    equal on the [n] variables, or at the first variable where they differ
    [A] has [True]. *)
Definition precedes (n : nat) (A B : nat → bool) : Prop :=
  (∀ j, j < n → A j = B j) ∨
  ∃ j, j < n ∧ (∀ k, k < j → A k = B k) ∧ A j = true ∧ B j = false.

(** Every character of [s] passes the test [P]. *)
Fixpoint all_chars (P : ascii → bool) (s : string) : bool :=
  match s with
  | EmptyString => true
  | String c s' => P c && all_chars P s'
  end.

(** A character that is no white space. *)
Definition not_space (c : ascii) : bool := negb (py_isspace c).

(** A character that ends no line. *)
Definition not_eol (c : ascii) : bool :=
  negb (bool_decide (c = LF)) && negb (bool_decide (c = CR)).

(** A character of a printed integer: a decimal digit or the minus sign. *)
Definition numeric (c : ascii) : bool :=
  bool_decide (is_Some (digit_of c)) || bool_decide (c = "-"%char).

(** The integer [print_soln] prints for an assigned variable: its name, or
    the opposite of its name when the value is [False]. *)
Definition signed_name (v : Var) : Z :=
  if value v is Some true then name v else (- name v)%Z.

(** The rows of a list of lines of text: all but the last end with a line
    feed. *)
Fixpoint with_eol (rows : list string) : list string :=
  match rows with
  | [] => []
  | [r] => [r]
  | r :: rows' => (r +:+ String LF EmptyString) :: with_eol rows'
  end.

(** The tokens of [row] are the integers [zs] and a closing [0]. *)
Definition row_of (row : string) (zs : list Z) : Prop :=
  int_of_token <$> split row = Some <$> (zs ++ [0%Z]).

(** An integer that can stand in a row for [n] variables: not zero, and at
    most [n] in absolute value. *)
Definition literal_for (n : nat) (z : Z) : Prop :=
  z ≠ 0%Z ∧ (Z.abs z ≤ Z.of_nat n)%Z.

(** ** Formulas used as examples *)

(** Scenario 2 of the specification: [p cnf 1 2], rows [1 0] and [-1 0]. *)
Definition scenario2 : Formula := cnf 1 [[1]; [-1]]%Z.

(** Scenario 2 with its two rows exchanged: rows [-1 0] and [1 0]. *)
Definition scenario2_swapped : Formula := cnf 1 [[-1]; [1]]%Z.

(** Scenario 4 of the specification: [p cnf 2 2], rows [1 2 0] and
    [-1 -2 0]. *)
Definition scenario4 : Formula := cnf 2 [[1; 2]; [-1; -2]]%Z.

(** An unsatisfiable formula with one unit clause: [p cnf 2 3], rows
    [1 0], [-1 2 0] and [-1 -2 0]. *)
Definition forced_then_exhausted : Formula :=
  cnf 2 [[1]; [-1; 2]; [-1; -2]]%Z.

(** Three variables, rows [-1 -2 0] and [3 0], with variables 1 and 2
    assigned [True]: the first clause is falsified, variable 3 is open. *)
Definition first_clause_falsified : Formula :=
  assign 1 (Some true) (assign 0 (Some true) (cnf 3 [[-1; -2]; [3]]%Z)).

(** * Properties *)

(** ** The store *)

Section store.
Implicit Types (vs : list Var) (i : nat) (x y : option bool).

Lemma length_set_value i x vs : length (set_value i x vs) = length vs.
Proof. apply length_alter. Qed.

Lemma set_value_set_value i x y vs :
  set_value i x (set_value i y vs) = set_value i x vs.
Proof.
  unfold set_value. by rewrite list_alter_alter_eq.
Qed.

Lemma set_value_id i x vs v :
  vs !! i = Some v → value v = x → set_value i x vs = vs.
Proof.
  intros Hi <-. unfold set_value. apply list_eq. intros j.
  destruct (decide (i = j)) as [<-|Hne].
  - rewrite list_lookup_alter_eq, Hi. by destruct v.
  - by rewrite list_lookup_alter_ne.
Qed.

Lemma var_value_set_value_eq i x vs :
  i < length vs → var_value (set_value i x vs) i = x.
Proof.
  intros Hlt. unfold var_value, set_value. rewrite list_lookup_alter_eq.
  destruct (lookup_lt_is_Some_2 vs i Hlt) as [v ->]. done.
Qed.

Lemma var_value_set_value_ne i j x vs :
  i ≠ j → var_value (set_value i x vs) j = var_value vs j.
Proof.
  intros Hne. unfold var_value, set_value. by rewrite list_lookup_alter_ne.
Qed.

Lemma names_set_value i x vs : name <$> set_value i x vs = name <$> vs.
Proof.
  unfold set_value. apply list_eq. intros j. rewrite !list_lookup_fmap.
  destruct (decide (i = j)) as [<-|Hne].
  - rewrite list_lookup_alter_eq. by destruct (vs !! i).
  - by rewrite list_lookup_alter_ne.
Qed.

Lemma first_unassigned_Some vs i :
  first_unassigned vs = Some i →
  ∃ v, vs !! i = Some v ∧ value v = None.
Proof.
  unfold first_unassigned. intros H.
  destruct (list_find _ vs) as [[j v]|] eqn:Hf; simplify_eq/=.
  apply list_find_Some in Hf as (? & ? & _). eauto.
Qed.

Lemma first_unassigned_None vs :
  first_unassigned vs = None ↔ Forall (λ v, value v ≠ None) vs.
Proof.
  unfold first_unassigned. rewrite fmap_None. apply list_find_None.
Qed.

Lemma unassigned_le_length vs : unassigned vs ≤ length vs.
Proof. apply length_filter. Qed.

Lemma unassigned_zero vs :
  unassigned vs = 0 ↔ first_unassigned vs = None.
Proof.
  rewrite first_unassigned_None. unfold unassigned.
  induction vs as [|v vs IH]; simpl.
  - split; [constructor | done].
  - rewrite filter_cons. case_decide as Hv; simpl.
    + split; [done |]. intros HF. by inversion HF.
    + rewrite IH. split; [by constructor |]. intros HF. by inversion HF.
Qed.

Lemma unassigned_set_value vs i v b :
  vs !! i = Some v → value v = None →
  S (unassigned (set_value i (Some b) vs)) = unassigned vs.
Proof.
  unfold unassigned, set_value. revert i.
  induction vs as [|w vs IH]; intros i Hi Hv; [done |].
  destruct i as [|i]; simpl in *.
  - injection Hi as ->. rewrite !filter_cons. simpl. rewrite Hv.
    by repeat case_decide.
  - rewrite !filter_cons. specialize (IH i Hi Hv).
    destruct (decide (value w = None)); simpl; by rewrite <- IH.
Qed.
End store.

(** The loops of [Clause] and [Formula] as quantifiers over their lists. *)

Lemma Lit_sat_spec vs l :
  Lit.sat vs l = true ↔ var_value vs (var l) = Some (sign l).
Proof. unfold Lit.sat, py_eq. apply bool_decide_eq_true. Qed.

Lemma Lit_unsat_spec vs l :
  Lit.unsat vs l = true ↔
  ∃ b, var_value vs (var l) = Some b ∧ b ≠ sign l.
Proof.
  unfold Lit.unsat, Lit.sat, py_eq.
  destruct (var_value vs (var l)) as [b|]; simpl.
  - destruct (bool_decide_reflect (Some b = Some (sign l))) as [Heq|Hne].
    + split; [done |]. intros (b' & ? & ?). congruence.
    + split; [| done]. intros _. exists b. split; [done | congruence].
  - split; [done |]. intros (? & ? & ?). done.
Qed.

Lemma Clause_sat_spec vs c :
  Clause.sat vs c = true ↔
  Exists (λ l, var_value vs (var l) = Some (sign l)) (lits c).
Proof.
  unfold Clause.sat. induction (lits c) as [|l ls IH]; simpl.
  - by rewrite Exists_nil.
  - rewrite Exists_cons. destruct (Lit.sat vs l) eqn:Hl.
    + split; [| done]. intros _. left. by apply Lit_sat_spec.
    + rewrite IH. split; [by right |]. intros [Hl' | ?]; [| done].
      apply Lit_sat_spec in Hl'. congruence.
Qed.

Lemma Clause_unsat_spec vs c :
  Clause.unsat vs c = true ↔
  Forall (λ l, ∃ b, var_value vs (var l) = Some b ∧ b ≠ sign l) (lits c).
Proof.
  unfold Clause.unsat. induction (lits c) as [|l ls IH]; simpl.
  - split; [constructor | done].
  - destruct (Lit.unsat vs l) eqn:Hl; simpl.
    + rewrite IH. split; [| by inversion 1].
      intros ?. constructor; [by apply Lit_unsat_spec | done].
    + split; [done |]. inversion 1 as [|?? Hl'].
      apply Lit_unsat_spec in Hl'. congruence.
Qed.

Lemma Formula_sat_spec f :
  Formula.sat f = true ↔
  Forall (λ c, Clause.sat (vars f) c = true) (clauses f).
Proof.
  unfold Formula.sat. induction (clauses f) as [|c cs IH]; simpl.
  - split; [constructor | done].
  - destruct (Clause.sat (vars f) c) eqn:Hc; simpl.
    + rewrite IH. split; [by constructor | by inversion 1].
    + split; [done |]. inversion 1. congruence.
Qed.

Lemma Formula_unsat_spec f :
  Formula.unsat f = true ↔
  Exists (λ c, Clause.unsat (vars f) c = true) (clauses f).
Proof.
  unfold Formula.unsat. induction (clauses f) as [|c cs IH]; simpl.
  - by rewrite Exists_nil.
  - rewrite Exists_cons. destruct (Clause.unsat (vars f) c).
    + split; [by left | done].
    + rewrite IH. split; [by right | by intros [? | ?]].
Qed.

(** ** [backtrack]: what a call leaves behind *)

Lemma assign_assign i x y f : assign i x (assign i y f) = assign i x f.
Proof. unfold assign. simpl. by rewrite set_value_set_value. Qed.

Lemma assign_id i x f v :
  vars f !! i = Some v → value v = x → assign i x f = f.
Proof.
  intros Hi Hv. unfold assign. erewrite set_value_id by done. by destruct f.
Qed.

Lemma solved_assign i x f r f' : solved (assign i x f) r f' → solved f r f'.
Proof.
  intros [? ? Hn ? ?]. split; try done.
  rewrite Hn. simpl. apply names_set_value.
Qed.

Section for_value.
Variable rec : Formula → option search_result.
Hypothesis rec_fail : ∀ h h', rec h = Some (None, h') → h' = h.

Lemma for_value_fail i values g f' :
  for_value rec i values g = Some (None, f') → f' = assign i None g.
Proof.
  revert g. induction values as [|b values IH]; intros g; simpl.
  - congruence.
  - destruct (Formula.unsat (assign i (Some b) g)); simpl.
    + intros H. rewrite (IH _ H). apply assign_assign.
    + destruct (rec (assign i (Some b) g)) as [[[r|] f2]|] eqn:Hrec; try done.
      intros H. apply rec_fail in Hrec as ->.
      rewrite (IH _ H). apply assign_assign.
Qed.

Hypothesis rec_success : ∀ h r h', rec h = Some (Some r, h') → solved h r h'.

Lemma for_value_success i values g r f' :
  for_value rec i values g = Some (Some r, f') → solved g r f'.
Proof.
  revert g. induction values as [|b values IH]; intros g; simpl.
  - congruence.
  - destruct (Formula.unsat (assign i (Some b) g)); simpl.
    + intros H. eapply solved_assign, IH, H.
    + destruct (rec (assign i (Some b) g)) as [[[r'|] f2]|] eqn:Hrec; try done.
      * intros [= -> ->]. eapply solved_assign, rec_success, Hrec.
      * intros H. apply rec_fail in Hrec as ->.
        eapply solved_assign, IH, H.
Qed.

Variable n : nat.
Hypothesis rec_total : ∀ h, unassigned (vars h) < n → is_Some (rec h).

Lemma for_value_total i values g :
  (∀ b, unassigned (vars (assign i (Some b) g)) < n) →
  is_Some (for_value rec i values g).
Proof.
  revert g. induction values as [|b values IH]; intros g Hg; simpl.
  - done.
  - assert (∀ b', ∀ b0,
      unassigned (vars (assign i (Some b0) (assign i (Some b') g))) < n)
      as Hnext by (intros; by rewrite assign_assign).
    destruct (Formula.unsat (assign i (Some b) g)); simpl.
    + by apply IH.
    + destruct (rec_total (assign i (Some b) g) (Hg b)) as [[[r|] f2] Hrec];
        rewrite Hrec; [done |].
      apply rec_fail in Hrec as ->. by apply IH.
Qed.
End for_value.

Lemma backtrack_fuel_S fuel f :
  backtrack_fuel (S fuel) f =
  match first_unassigned (vars f) with
  | Some i => for_value (backtrack_fuel fuel) i [true; false] f
  | None => if Formula.sat f then Some (Some (vars f), f) else Some (None, f)
  end.
Proof. done. Qed.

(** A call that returns [None] leaves the formula as it found it. *)
Lemma backtrack_fuel_fail fuel f f' :
  backtrack_fuel fuel f = Some (None, f') → f' = f.
Proof.
  revert f f'. induction fuel as [|fuel IH]; intros f f'; [done |].
  rewrite backtrack_fuel_S.
  destruct (first_unassigned (vars f)) as [i|] eqn:Hi.
  - intros H. apply for_value_fail in H; [| exact IH]. subst f'.
    apply first_unassigned_Some in Hi as (v & Hv & Hnone).
    by eapply assign_id.
  - destruct (Formula.sat f); congruence.
Qed.

Lemma backtrack_fuel_success fuel f r f' :
  backtrack_fuel fuel f = Some (Some r, f') → solved f r f'.
Proof.
  revert f r f'. induction fuel as [|fuel IH]; intros f r f'; [done |].
  rewrite backtrack_fuel_S.
  destruct (first_unassigned (vars f)) as [i|] eqn:Hi.
  - apply for_value_success; [apply backtrack_fuel_fail | exact IH].
  - destruct (Formula.sat f) eqn:Hsat; intros [= <- <-]. by split.
Qed.

Lemma backtrack_fuel_total fuel f :
  unassigned (vars f) < fuel → is_Some (backtrack_fuel fuel f).
Proof.
  revert f. induction fuel as [|fuel IH]; intros f Hlt; [lia |].
  rewrite backtrack_fuel_S.
  destruct (first_unassigned (vars f)) as [i|] eqn:Hi.
  - apply for_value_total with (n := fuel);
      [apply backtrack_fuel_fail | exact IH |].
    intros b. apply first_unassigned_Some in Hi as (v & Hv & Hnone). simpl.
    pose proof (unassigned_set_value (vars f) i v b Hv Hnone). lia.
  - by destruct (Formula.sat f).
Qed.

(** More fuel than needed changes nothing. *)
Lemma for_value_mono (rec rec' : Formula → option search_result) i values g res :
  (∀ h res', rec h = Some res' → rec' h = Some res') →
  for_value rec i values g = Some res → for_value rec' i values g = Some res.
Proof.
  intros Hrec. revert g. induction values as [|b values IH]; intros g; simpl.
  - done.
  - destruct (Formula.unsat (assign i (Some b) g)); simpl; [apply IH |].
    destruct (rec (assign i (Some b) g)) as [[[r|] f2]|] eqn:Hr; [| | done].
    + rewrite (Hrec _ _ Hr). done.
    + rewrite (Hrec _ _ Hr). apply IH.
Qed.

Lemma backtrack_fuel_mono fuel fuel' f res :
  fuel ≤ fuel' →
  backtrack_fuel fuel f = Some res → backtrack_fuel fuel' f = Some res.
Proof.
  revert fuel' f res. induction fuel as [|fuel IH]; intros fuel' f res Hle;
    [done |].
  destruct fuel' as [|fuel']; [lia |]. rewrite !backtrack_fuel_S.
  destruct (first_unassigned (vars f)); [| done].
  apply for_value_mono. intros h res'. apply IH. lia.
Qed.

Lemma backtrack_total f : is_Some (backtrack f).
Proof. apply backtrack_fuel_total. lia. Qed.

(** ** Claims about [backtrack] and the clause predicates *)

(** C3: if [backtrack(F)] returns an assignment, the list returned is the
    formula's own list of variables, with the names of the variables of [F];
    under it every clause of [F] has a literal whose variable's assignment
    equals its polarity, and every variable is assigned. *)
Theorem backtrack_sound f r f' :
  backtrack f = Some (Some r, f') →
  r = vars f' ∧ name <$> r = name <$> vars f ∧
  Forall (λ c, Exists (λ l, var_value r (var l) = Some (sign l)) (lits c))
    (clauses f) ∧
  Forall (λ v, value v ≠ None) r.
Proof.
  intros H. apply backtrack_fuel_success in H as [-> Hc Hn Hsat Hall].
  split_and!; [done | done | |].
  - rewrite <- Hc. apply Formula_sat_spec in Hsat.
    revert Hsat. apply Forall_impl. intros c. apply Clause_sat_spec.
  - by apply first_unassigned_None.
Qed.

Lemma backtrack_sound_witness :
  ∃ r f', backtrack scenario4 = Some (Some r, f') ∧
    (r = vars f' ∧ name <$> r = name <$> vars scenario4 ∧
     Forall (λ c, Exists (λ l, var_value r (var l) = Some (sign l)) (lits c))
       (clauses scenario4) ∧
     Forall (λ v, value v ≠ None) r).
Proof.
  eexists _, _. split; [vm_compute; reflexivity |].
  apply (backtrack_sound scenario4). vm_compute. reflexivity.
Defined.

(** C5: [Clause.unsat()] is true exactly when every literal of the clause is
    falsified, a literal being falsified ([Lit.unsat()]) exactly when its
    variable is assigned and the assignment differs from the polarity; a
    clause with an unassigned literal is not flagged. *)
Theorem Clause_unsat_iff_all_falsified vs c :
  (Clause.unsat vs c = true ↔
   Forall (λ l, ∃ b, var_value vs (var l) = Some b ∧ b ≠ sign l) (lits c)) ∧
  (∀ l, Lit.unsat vs l = true ↔
        ∃ b, var_value vs (var l) = Some b ∧ b ≠ sign l) ∧
  (Exists (λ l, var_value vs (var l) = None) (lits c) →
   Clause.unsat vs c = false).
Proof.
  split_and!.
  - apply Clause_unsat_spec.
  - intros l. apply Lit_unsat_spec.
  - intros Hex. apply not_true_is_false. intros Hu.
    apply Clause_unsat_spec in Hu. apply Exists_exists in Hex as (l & Hl & Hnone).
    rewrite Forall_forall in Hu. destruct (Hu l Hl) as (b & Hb & _). congruence.
Qed.

(** C6: on scenario 4 (two variables, clauses [{1, 2}] and [{-1, -2}], all
    unassigned) [backtrack] returns the assignment variable 1 = true,
    variable 2 = false.  The calls made show the order of the search: the
    first unassigned variable in index order, [True] before [False]; the
    attempt variable 2 = true is pruned. *)
Theorem backtrack_scenario4 :
  let vs := [mkVar 1 (Some true); mkVar 2 (Some false)] in
  backtrack scenario4 = Some (Some vs, mkFormula vs (clauses scenario4)) ∧
  Formula.sat (mkFormula vs (clauses scenario4)) = true ∧
  backtrack_trace 3 scenario4 =
    Some ((Some vs, mkFormula vs (clauses scenario4)),
          Call scenario4
            [Call (assign 0 (Some true) scenario4)
               [Call (assign 1 (Some false) (assign 0 (Some true) scenario4))
                  []]]).
Proof. by vm_compute. Qed.

Lemma Formula_unsat_empty_clause f c :
  c ∈ clauses f → lits c = [] → Formula.unsat f = true.
Proof.
  intros Hc Hl. apply Formula_unsat_spec, list.Exists_exists. exists c.
  split; [done |]. unfold Clause.unsat. by rewrite Hl.
Qed.

Lemma Formula_sat_empty_clause f c :
  c ∈ clauses f → lits c = [] → Formula.sat f = false.
Proof.
  intros Hc Hl. apply not_true_is_false. intros Hsat.
  apply Formula_sat_spec in Hsat. rewrite list.Forall_forall in Hsat.
  specialize (Hsat c Hc). unfold Clause.sat in Hsat. by rewrite Hl in Hsat.
Qed.

(** C7: a clause with no literal is falsified whatever the assignment
    ([Clause.unsat()] true, [Clause.sat()] false), and [backtrack] returns
    [None] on every formula that has such a clause, leaving the formula as it
    was. *)
Theorem empty_clause_falsified f c :
  c ∈ clauses f → lits c = [] →
  (∀ vs, Clause.unsat vs c = true ∧ Clause.sat vs c = false) ∧
  backtrack f = Some (None, f).
Proof.
  intros Hc Hl. split.
  - intros vs. unfold Clause.unsat, Clause.sat. by rewrite Hl.
  - unfold backtrack. rewrite backtrack_fuel_S.
    destruct (first_unassigned (vars f)) as [i|] eqn:Hi.
    + apply first_unassigned_Some in Hi as (v & Hv & Hnone). simpl.
      rewrite (Formula_unsat_empty_clause (assign i (Some true) f) c) by done.
      simpl.
      rewrite (Formula_unsat_empty_clause
                 (assign i (Some false) (assign i (Some true) f)) c) by done.
      simpl. rewrite !assign_assign. by rewrite (assign_id i None f v).
    + by rewrite (Formula_sat_empty_clause f c).
Qed.

Lemma empty_clause_falsified_witness :
  mkClause [] ∈ clauses (cnf 2 [[1; 2]; []; [-1]]%Z) ∧
  lits (mkClause []) = [] ∧
  (∀ vs, Clause.unsat vs (mkClause []) = true ∧
         Clause.sat vs (mkClause []) = false) ∧
  backtrack (cnf 2 [[1; 2]; []; [-1]]%Z) = Some (None, cnf 2 [[1; 2]; []; [-1]]%Z).
Proof.
  assert (mkClause [] ∈ clauses (cnf 2 [[1; 2]; []; [-1]]%Z)) as Hin
    by (simpl; apply list_elem_of_further, list_elem_of_here).
  split; [exact Hin |]. split; [reflexivity |].
  exact (empty_clause_falsified _ _ Hin eq_refl).
Defined.

Lemma fill_true_set_value vs i v :
  vs !! i = Some v → value v = None →
  fill_true (set_value i (Some true) vs) = fill_true vs.
Proof.
  intros Hi Hv. unfold fill_true, set_value. apply list_eq. intros j.
  rewrite !list_lookup_fmap. destruct (decide (i = j)) as [<-|Hne].
  - rewrite list_lookup_alter_eq, Hi. simpl. by rewrite Hv.
  - by rewrite list_lookup_alter_ne.
Qed.

Lemma fill_true_assigned vs :
  Forall (λ v, value v ≠ None) vs → fill_true vs = vs.
Proof.
  unfold fill_true. induction 1 as [|v vs Hv _ IH]; [done |].
  rewrite fmap_cons, IH. by destruct (value v).
Qed.

Lemma fill_true_unassigned vs :
  Forall (λ v, value v = None) vs →
  values (fill_true vs) = replicate (length vs) (Some true).
Proof.
  unfold values, fill_true. induction 1 as [|v vs Hv _ IH]; [done |].
  rewrite !fmap_cons, IH. simpl. by rewrite Hv.
Qed.

Lemma names_fill_true vs : name <$> fill_true vs = name <$> vs.
Proof.
  unfold fill_true. rewrite <- list_fmap_compose. apply list_fmap_ext.
  intros _ v _. simpl. by destruct (value v).
Qed.

(** ** The size of a tree of calls *)

Lemma depth_calls_within m ts :
  Forall (within m) ts → foldr (λ t' d, depth t' `max` d) 0 ts ≤ S m.
Proof.
  induction 1 as [|t ts (_ & _ & Hd & _) _ IH]; simpl; lia.
Qed.

Lemma complete_calls_within m ts :
  Forall (within m) ts →
  foldr (λ t' n, complete_assignments t' + n) 0 ts ≤ length ts * 2 ^ m.
Proof.
  induction 1 as [|t ts (_ & _ & _ & Hc) _ IH]; simpl; lia.
Qed.

Lemma decreasing_calls_within m f ts :
  unassigned (vars f) = S m → Forall (within m) ts →
  decreasing (Call f ts) = true.
Proof.
  intros Hf Hts. simpl. apply forallb_forall. intros t Ht.
  rewrite Forall_forall in Hts. destruct (Hts t Ht) as (Hn & Hdec & _).
  rewrite Hdec, andb_true_r. apply bool_decide_eq_true. lia.
Qed.

(** ** The pre-pass of [dpll] *)

Lemma names_from_ok k vs i v :
  names_from k vs = true → vs !! i = Some v →
  name v = (Z.of_nat (k + i) + 1)%Z.
Proof.
  revert k i. induction vs as [|w vs IH]; intros k i Hn Hi; [done |].
  simpl in Hn. apply andb_true_iff in Hn as [Hw Hn].
  destruct i as [|i]; simpl in Hi.
  - injection Hi as <-. apply bool_decide_eq_true in Hw.
    by rewrite Nat.add_0_r.
  - rewrite (IH (S k) i Hn Hi). f_equal. lia.
Qed.

Lemma wf_formula_names_ok f : wf_formula f = true → names_ok (vars f).
Proof.
  unfold wf_formula. intros [Hn _]%andb_true_iff i v Hi.
  by rewrite (names_from_ok 0 (vars f) i v Hn Hi).
Qed.

Lemma names_ok_set_value i x vs : names_ok vs → names_ok (set_value i x vs).
Proof.
  intros Hok j v. unfold set_value.
  destruct (decide (i = j)) as [<-|Hne].
  - rewrite list_lookup_alter_eq.
    destruct (vs !! i) as [w|] eqn:Hw; [| done].
    intros [= <-]. simpl. by apply Hok.
  - rewrite list_lookup_alter_ne by done. apply Hok.
Qed.

(** With names following positions, [f.vars[int(lit.var.name) - 1]] is the
    literal's own variable. *)
Lemma lit_index_names_ok vs lit j :
  names_ok vs → lit_index vs lit = Some j → j = var lit.
Proof.
  unfold lit_index. intros Hok.
  destruct (vs !! var lit) as [v|] eqn:Hv; [| done]. simpl.
  rewrite (Hok _ _ Hv). apply lookup_lt_Some in Hv.
  unfold py_index. rewrite bool_decide_eq_true_2 by lia.
  intros [= <-]. lia.
Qed.

Lemma lit_index_in_range vs lit :
  names_ok vs → var lit < length vs → lit_index vs lit = Some (var lit).
Proof.
  unfold lit_index. intros Hok Hlt.
  destruct (lookup_lt_is_Some_2 vs (var lit) Hlt) as [v Hv]. rewrite Hv. simpl.
  rewrite (Hok _ _ Hv). unfold py_index.
  rewrite bool_decide_eq_true_2 by lia. f_equal. lia.
Qed.

Lemma unit_scan_cons k c cs vs ucs :
  unit_scan ((k, c) :: cs) vs ucs =
  if bool_decide (Clause.len c = 1) then
    match lits c with
    | [] => ScanRaise
    | lit :: _ =>
        match lit_index vs lit with
        | None => ScanRaise
        | Some j =>
            if truthy (var_value vs j)
               && negb (py_eq (var_value vs j) (Some (sign lit)))
            then ScanConflict vs
            else unit_scan cs (set_value j (Some (sign lit)) vs) (ucs ++ [k])
        end
    end
  else unit_scan cs vs ucs.
Proof. done. Qed.

(** The scan leaves alone the names of the variables and the value of every
    variable that is the variable of no unit clause. *)
Lemma unit_scan_frame cs vs ucs vs' :
  names_ok vs →
  unit_scan cs vs ucs = ScanConflict vs' ∨
    (∃ ucs', unit_scan cs vs ucs = ScanDone vs' ucs') →
  names_ok vs' ∧ length vs' = length vs ∧
  ∀ j, in_no_unit (snd <$> cs) j → vs' !! j = vs !! j.
Proof.
  revert vs ucs. induction cs as [|[k c] cs IH]; intros vs ucs Hok.
  - simpl. intros [? | [? ?]]; simplify_eq. done.
  - rewrite unit_scan_cons.
    assert (∀ j, in_no_unit (snd <$> (k, c) :: cs) j →
                 in_no_unit (snd <$> cs) j) as Htl.
    { intros j Hj c' l Hc'. apply Hj. simpl. by apply list_elem_of_further. }
    case_bool_decide as Hlen.
    + destruct (lits c) as [|lit [|]] eqn:Hlits; unfold Clause.len in Hlen;
        rewrite Hlits in Hlen; simpl in Hlen; try lia.
      destruct (lit_index vs lit) as [j0|] eqn:Hj0;
        [| intros [? | [? ?]]; done].
      apply lit_index_names_ok in Hj0 as ->; [| done].
      destruct (truthy _ && _).
      { intros [? | [? ?]]; simplify_eq. done. }
      intros H. apply IH in H as (Hok' & Hlen' & Hframe);
        [| by apply names_ok_set_value].
      split; [done |]. rewrite Hlen', length_set_value. split; [done |].
      intros j Hj. rewrite Hframe by auto. unfold set_value.
      apply list_lookup_alter_ne. apply (Hj c lit); [| done].
      simpl. apply list_elem_of_here.
    + intros H. apply IH in H as (? & ? & Hframe); [| done].
      split_and!; try done. auto.
Qed.

Lemma unit_scan_units cs vs ucs vs' ucs' :
  unit_scan cs vs ucs = ScanDone vs' ucs' →
  ucs' = ucs ++ (filter (λ x, Clause.len x.2 = 1) cs).*1.
Proof.
  revert vs ucs. induction cs as [|[k c] cs IH]; intros vs ucs.
  - simpl. intros [= <- <-]. by rewrite app_nil_r.
  - rewrite unit_scan_cons, filter_cons. simpl. case_bool_decide as Hlen.
    + rewrite decide_True by done.
      destruct (lits c) as [|lit ?]; [done |].
      destruct (lit_index vs lit); [| done].
      destruct (truthy _ && _); [done |].
      intros H. apply IH in H as ->. by rewrite <- app_assoc.
    + rewrite decide_False by done. apply IH.
Qed.

Lemma enumerate_from_elem k cs k' c :
  (k', c) ∈ enumerate_from k cs ↔ k ≤ k' ∧ cs !! (k' - k) = Some c.
Proof.
  revert k. induction cs as [|c0 cs IH]; intros k; simpl.
  - rewrite elem_of_nil. split; [done |]. by intros [_ ?].
  - rewrite elem_of_cons, IH. split.
    + intros [[= -> ->] | [Hle Hc]].
      * split; [lia |]. by rewrite Nat.sub_diag.
      * split; [lia |]. by replace (k' - k) with (S (k' - S k)) by lia.
    + intros [Hle Hc]. destruct (decide (k' = k)) as [-> | Hne].
      * left. rewrite Nat.sub_diag in Hc. simpl in Hc. congruence.
      * right. split; [lia |].
        by replace (k' - k) with (S (k' - S k)) in Hc by lia.
Qed.

Lemma snd_enumerate_from k cs : snd <$> enumerate_from k cs = cs.
Proof.
  revert k. induction cs as [|c cs IH]; intros k; simpl; [done |].
  by rewrite IH.
Qed.

Lemma filter_ext_elem {A} (P Q : A → Prop) `{!∀ x, Decision (P x)}
    `{!∀ x, Decision (Q x)} (l : list A) :
  (∀ x, x ∈ l → P x ↔ Q x) → filter P l = filter Q l.
Proof.
  induction l as [|x l IH]; intros Hl; [done |].
  rewrite !filter_cons. rewrite IH.
  2:{ intros y Hy. apply Hl. by apply list_elem_of_further. }
  pose proof (Hl x (list_elem_of_here _ _)) as Hx.
  destruct (decide (P x)), (decide (Q x)); tauto.
Qed.

Lemma filter_snd {A B} (P : B → Prop) `{!∀ y, Decision (P y)}
    (l : list (A * B)) :
  snd <$> filter (λ x, P x.2) l = filter P (snd <$> l).
Proof.
  induction l as [|x l IH]; [done |].
  rewrite fmap_cons, !filter_cons, <- IH.
  by destruct (decide (P x.2)).
Qed.

(** Line 47 keeps exactly the clauses that do not have length 1, in their
    order: a clause object is in [unit_clauses] exactly when its own length
    is 1. *)
Lemma not_in_units_scanned cs :
  not_in_units ((filter (λ x, Clause.len x.2 = 1) (enumerate cs)).*1)
    (enumerate cs)
  = filter (λ c, Clause.len c ≠ 1) cs.
Proof.
  unfold not_in_units, enumerate.
  trans (filter (λ c, Clause.len c ≠ 1) (snd <$> enumerate_from 0 cs));
    [| by rewrite snd_enumerate_from].
  rewrite <- filter_snd. f_equal. apply filter_ext_elem. intros [k c] Hx. simpl.
  rewrite list_elem_of_fmap. split.
  - intros Hnot Hlen. apply Hnot. exists (k, c). split; [done |].
    by apply list_elem_of_filter.
  - intros Hlen ([k' c'] & Hk & [Hlen' Hy]%list_elem_of_filter).
    simpl in *. subst k'.
    apply enumerate_from_elem in Hx as [_ Hx].
    apply enumerate_from_elem in Hy as [_ Hy]. congruence.
Qed.

Lemma prepass_delegate_clauses f f' :
  prepass f = Delegate f' →
  clauses f' = filter (λ c, Clause.len c ≠ 1) (clauses f).
Proof.
  unfold prepass.
  destruct (unit_scan _ _ _) as [|vs|vs ucs] eqn:Hscan; try done.
  intros [= <-]. simpl. apply unit_scan_units in Hscan as ->.
  apply not_in_units_scanned.
Qed.

Lemma prepass_frame f g :
  names_ok (vars f) →
  prepass f = Conflict g ∨ prepass f = Delegate g →
  names_ok (vars g) ∧ length (vars g) = length (vars f) ∧
  ∀ j, in_no_unit (clauses f) j → vars g !! j = vars f !! j.
Proof.
  intros Hok. unfold prepass.
  destruct (unit_scan _ _ _) as [|vs|vs ucs] eqn:Hscan.
  - by intros [? | ?].
  - intros [[= <-] | ?]; [| done]. simpl.
    eapply unit_scan_frame in Hok as (? & ? & Hframe); [| by left].
    split_and!; try done. intros j Hj. apply Hframe.
    unfold enumerate. by rewrite snd_enumerate_from.
  - intros [? | [= <-]]; [done |]. simpl.
    eapply unit_scan_frame in Hok as (? & ? & Hframe); [| right; eauto].
    split_and!; try done. intros j Hj. apply Hframe.
    unfold enumerate. by rewrite snd_enumerate_from.
Qed.

(** When [dpll] returns [None], the variables are as the pre-pass left
    them. *)
Lemma dpll_none_prepass f f' :
  dpll f = Some (Return None f') →
  ∃ g, (prepass f = Conflict g ∨ prepass f = Delegate g) ∧ vars f' = vars g.
Proof.
  unfold dpll. destruct (prepass f) as [|g|g] eqn:Hpre; [done | |].
  - intros [= <-]. eauto.
  - destruct (backtrack g) as [[r f'']|] eqn:Hb; [| done].
    intros [= -> ->]. apply backtrack_fuel_fail in Hb as ->. eauto.
Qed.

(** ** Claims about [dpll] *)

(** C4, as amended: for a formula whose variables all start unassigned, if
    [backtrack] returns [None] the formula is left exactly as it was, so every
    variable is unassigned; if [dpll] returns [None] the variables are left as
    its pre-pass set them, so every variable that is the variable of no unit
    clause is unassigned. *)
Theorem unsat_outcome_state f :
  wf_formula f = true →
  Forall (λ v, value v = None) (vars f) →
  (∀ f', backtrack f = Some (None, f') →
         f' = f ∧ Forall (λ v, value v = None) (vars f')) ∧
  (∀ f', dpll f = Some (Return None f') →
         (∃ g, (prepass f = Conflict g ∨ prepass f = Delegate g) ∧
               vars f' = vars g) ∧
         ∀ j v, in_no_unit (clauses f) j → vars f' !! j = Some v →
                value v = None).
Proof.
  intros Hwf Hall. split.
  - intros f' H. apply backtrack_fuel_fail in H as ->. done.
  - intros f' H. apply dpll_none_prepass in H as (g & Hg & Heq).
    split; [eauto |]. intros j v Hj Hv. rewrite Heq in Hv.
    apply wf_formula_names_ok in Hwf.
    destruct (prepass_frame f g Hwf Hg) as (_ & _ & Hframe).
    rewrite Hframe in Hv by done.
    rewrite list.Forall_forall in Hall. apply Hall.
    by eapply list_elem_of_lookup_2.
Qed.

Lemma unsat_outcome_state_witness :
  wf_formula forced_then_exhausted = true ∧
  Forall (λ v, value v = None) (vars forced_then_exhausted) ∧
  backtrack forced_then_exhausted = Some (None, forced_then_exhausted) ∧
  (∀ f', backtrack forced_then_exhausted = Some (None, f') →
         f' = forced_then_exhausted ∧
         Forall (λ v, value v = None) (vars f')) ∧
  (∀ f', dpll forced_then_exhausted = Some (Return None f') →
         (∃ g, (prepass forced_then_exhausted = Conflict g ∨
                prepass forced_then_exhausted = Delegate g) ∧
               vars f' = vars g) ∧
         ∀ j v, in_no_unit (clauses forced_then_exhausted) j →
                vars f' !! j = Some v → value v = None).
Proof.
  assert (Forall (λ v, value v = None) (vars forced_then_exhausted)) as Hall
    by (vm_compute; repeat constructor).
  split; [reflexivity |]. split; [exact Hall |].
  split; [vm_compute; reflexivity |].
  exact (unsat_outcome_state forced_then_exhausted eq_refl Hall).
Defined.

(** C4, as stated, fails for [dpll]: on scenario 2 (all variables unassigned)
    [dpll] returns [None] at the conflict and leaves variable 1 assigned
    [True]; on a formula where the search after the pre-pass is exhausted it
    returns [None] and again leaves the forced variable 1 assigned [True]. *)
Lemma dpll_leaves_forced_values :
  Forall (λ v, value v = None) (vars scenario2) ∧
  dpll scenario2 =
    Some (Return None (mkFormula [mkVar 1 (Some true)] (clauses scenario2))) ∧
  Forall (λ v, value v = None) (vars forced_then_exhausted) ∧
  dpll forced_then_exhausted =
    Some (Return None
            (mkFormula [mkVar 1 (Some true); mkVar 2 None]
               [mkClause [mkLit 0 false; mkLit 1 true];
                mkClause [mkLit 0 false; mkLit 1 false]])).
Proof.
  split_and!; try (vm_compute; reflexivity); vm_compute; repeat constructor.
Qed.

(** C2: the code at the failing input.  Scenario 2 with its rows exchanged
    has the unit clauses [{-1}] and [{1}], both on variable 1; [dpll] reports
    no conflict and returns the assignment variable 1 = true.  With the rows
    in the other order (scenario 2) it returns [None]. *)
Theorem dpll_misses_conflict :
  mkClause [mkLit 0 false] ∈ clauses scenario2_swapped ∧
  mkClause [mkLit 0 true] ∈ clauses scenario2_swapped ∧
  wf_formula scenario2_swapped = true ∧
  dpll scenario2_swapped =
    Some (Return (Some [mkVar 1 (Some true)])
            (mkFormula [mkVar 1 (Some true)] [])) ∧
  (∃ f', dpll scenario2 = Some (Return None f')).
Proof.
  split_and!; try (vm_compute; reflexivity).
  - apply list_elem_of_here.
  - apply list_elem_of_further, list_elem_of_here.
  - eexists. vm_compute. reflexivity.
Qed.

(** C1: the code at the failing input.  On scenario 2 with its rows
    exchanged, every variable unassigned, [backtrack] returns [None] and
    [dpll] returns an assignment. *)
Theorem backtrack_dpll_disagree :
  Forall (λ v, value v = None) (vars scenario2_swapped) ∧
  backtrack scenario2_swapped = Some (None, scenario2_swapped) ∧
  dpll scenario2_swapped =
    Some (Return (Some [mkVar 1 (Some true)])
            (mkFormula [mkVar 1 (Some true)] [])).
Proof.
  split_and!; try (vm_compute; reflexivity). vm_compute. repeat constructor.
Qed.

(** C8: the code at the failing input.  On scenario 2 with its rows
    exchanged the pre-pass completes without reporting a conflict and removes
    both unit clauses, among them [{-1}], but variable 1 is assigned [True],
    not the polarity of that clause. *)
Theorem prepass_overwrites_forced_value :
  prepass scenario2_swapped = Delegate (mkFormula [mkVar 1 (Some true)] []) ∧
  filter (λ c, Clause.len c ≠ 1) (clauses scenario2_swapped) = [] ∧
  mkClause [mkLit 0 false] ∈ clauses scenario2_swapped ∧
  var_value [mkVar 1 (Some true)] 0 = Some true.
Proof.
  split_and!; try (vm_compute; reflexivity). apply list_elem_of_here.
Qed.

(** ** What the pre-pass does guarantee *)

Lemma unit_lit_cons c cs l :
  unit_lit (c :: cs) l ↔ lits c = [l] ∨ unit_lit cs l.
Proof.
  unfold unit_lit. split.
  - intros (c' & [-> | Hin]%elem_of_cons & Hl); eauto.
  - intros [Hl | (c' & Hin & Hl)].
    + exists c. split; [apply list_elem_of_here | done].
    + exists c'. split; [by apply list_elem_of_further | done].
Qed.

Lemma units_consistent_tail c cs :
  units_consistent (c :: cs) → units_consistent cs.
Proof.
  intros Hcons l1 l2 H1 H2. apply Hcons; apply unit_lit_cons; by right.
Qed.

(** A value that agrees with every unit clause on its variable survives the
    scan, and when the unit clauses are consistent every one of them has its
    variable assigned its polarity at the end. *)
Lemma unit_scan_forced cs vs ucs vs' ucs' :
  names_ok vs → unit_scan cs vs ucs = ScanDone vs' ucs' →
  (∀ j b, var_value vs j = Some b →
          (∀ l, unit_lit (snd <$> cs) l → var l = j → sign l = b) →
          var_value vs' j = Some b) ∧
  (units_consistent (snd <$> cs) →
   ∀ l, unit_lit (snd <$> cs) l → var_value vs' (var l) = Some (sign l)).
Proof.
  revert vs ucs. induction cs as [|[k c] cs IH]; intros vs ucs Hok.
  - simpl. intros [= <- <-]. split; [done |].
    intros _ l (c & Hin & _). by apply elem_of_nil in Hin.
  - rewrite unit_scan_cons, fmap_cons. simpl. case_bool_decide as Hlen.
    + destruct (lits c) as [|lit [|]] eqn:Hlits; unfold Clause.len in Hlen;
        rewrite Hlits in Hlen; simpl in Hlen; try lia.
      destruct (lit_index vs lit) as [j0|] eqn:Hj0; [| done].
      pose proof (lit_index_names_ok _ _ _ Hok Hj0) as ->.
      assert (var lit < length vs) as Hrange.
      { unfold lit_index in Hj0.
        destruct (vs !! var lit) eqn:Hv; [| done]. by eapply lookup_lt_Some. }
      destruct (truthy _ && _); [done |].
      intros H. apply IH in H as [Hkeep Hforced];
        [| by apply names_ok_set_value].
      assert (∀ b, (∀ l, unit_lit (c :: cs.*2) l → var l = var lit →
                         sign l = b) →
                   var_value vs' (var lit) = Some b) as Hhead.
      { intros b Hb. apply Hkeep.
        - rewrite var_value_set_value_eq by done. f_equal.
          apply Hb; [| done]. apply unit_lit_cons. by left.
        - intros l Hl. apply Hb, unit_lit_cons. by right. }
      split.
      * intros j b Hj Hb. destruct (decide (var lit = j)) as [<- | Hne].
        { by apply Hhead. }
        apply Hkeep; [by rewrite var_value_set_value_ne |].
        intros l Hl. apply Hb, unit_lit_cons. by right.
      * intros Hcons l [Hl | Hl]%unit_lit_cons.
        { rewrite Hl in Hlits. injection Hlits as ->. apply Hhead.
          intros l' Hl' Hvar. apply Hcons; [done | | done].
          apply unit_lit_cons. by left. }
        apply Hforced; [by eapply units_consistent_tail | done].
    + assert (∀ l, unit_lit (c :: cs.*2) l ↔ unit_lit (cs.*2) l) as Hunits.
      { intros l. rewrite unit_lit_cons. split; [| by right].
        intros [Hl | ?]; [| done]. unfold Clause.len in Hlen.
        by rewrite Hl in Hlen. }
      intros H. apply IH in H as [Hkeep Hforced]; [| done]. split.
      * intros j b Hj Hb. apply Hkeep; [done |].
        intros l Hl. by apply Hb, Hunits.
      * intros Hcons l Hl%Hunits.
        apply Hforced; [by eapply units_consistent_tail | done].
Qed.

(** The state in which the pre-pass delegates to [backtrack]: the clauses of
    length 1 are gone and the others kept in order, the variables of no unit
    clause are unchanged, and, as long as no variable has unit clauses of both
    polarities, the variable of each unit clause is assigned its polarity. *)
Lemma prepass_delegate_state f f' :
  wf_formula f = true → prepass f = Delegate f' →
  clauses f' = filter (λ c, Clause.len c ≠ 1) (clauses f) ∧
  (∀ j, in_no_unit (clauses f) j → vars f' !! j = vars f !! j) ∧
  (units_consistent (clauses f) →
   ∀ l, unit_lit (clauses f) l → var_value (vars f') (var l) = Some (sign l)).
Proof.
  intros Hwf%wf_formula_names_ok Hpre. split_and!.
  - by apply prepass_delegate_clauses.
  - by apply (prepass_frame f f' Hwf); right.
  - revert Hpre. unfold prepass.
    destruct (unit_scan _ _ _) as [|vs|vs ucs] eqn:Hscan; try done.
    intros [= <-]. simpl.
    apply unit_scan_forced in Hscan as [_ Hforced]; [| done].
    unfold enumerate in Hforced. by rewrite snd_enumerate_from in Hforced.
Qed.

(** ** Conflicts the pre-pass does detect *)

Lemma wf_formula_in_range f :
  wf_formula f = true → in_range (length (vars f)) (clauses f).
Proof.
  unfold wf_formula. intros [_ Hr]%andb_true_iff c l Hc Hl.
  rewrite forallb_forall in Hr. apply list_elem_of_In, Hr in Hc.
  rewrite forallb_forall in Hc. apply list_elem_of_In, Hc in Hl.
  by apply bool_decide_eq_true in Hl.
Qed.

Lemma in_range_tail n c cs : in_range n (c :: cs) → in_range n cs.
Proof. intros Hr c' l Hc'. apply Hr. by apply list_elem_of_further. Qed.

Lemma unit_or_not c : (∃ lit, lits c = [lit]) ∨ Clause.len c ≠ 1.
Proof.
  unfold Clause.len. destruct (lits c) as [|lit [|]]; simpl; eauto.
Qed.

Lemma unit_scan_skip k c cs vs ucs :
  Clause.len c ≠ 1 →
  unit_scan ((k, c) :: cs) vs ucs = unit_scan cs vs ucs.
Proof. intros Hlen. rewrite unit_scan_cons. by case_bool_decide. Qed.

(** One iteration on a unit clause of a well-formed formula. *)
Lemma unit_scan_unit k c cs vs ucs lit :
  names_ok vs → lits c = [lit] → var lit < length vs →
  unit_scan ((k, c) :: cs) vs ucs =
  if truthy (var_value vs (var lit))
     && negb (py_eq (var_value vs (var lit)) (Some (sign lit)))
  then ScanConflict vs
  else unit_scan cs (set_value (var lit) (Some (sign lit)) vs) (ucs ++ [k]).
Proof.
  intros Hok Hlits Hrange. rewrite unit_scan_cons.
  unfold Clause.len. rewrite Hlits. simpl.
  by rewrite lit_index_in_range.
Qed.

Lemma unit_scan_no_raise cs vs ucs :
  names_ok vs → in_range (length vs) (snd <$> cs) →
  unit_scan cs vs ucs ≠ ScanRaise.
Proof.
  revert vs ucs. induction cs as [|[k c] cs IH]; intros vs ucs Hok Hr; [done |].
  rewrite fmap_cons in Hr. simpl in Hr.
  destruct (unit_or_not c) as [[lit Hlit] | Hlen].
  - rewrite (unit_scan_unit k c cs vs ucs lit); [| done | done |].
    2:{ apply (Hr c); [apply list_elem_of_here |].
        rewrite Hlit. apply list_elem_of_here. }
    destruct (truthy _ && _); [done |].
    apply IH; [by apply names_ok_set_value |].
    rewrite length_set_value. by eapply in_range_tail.
  - rewrite unit_scan_skip by done. apply IH; [done |].
    by eapply in_range_tail.
Qed.

(** On a well-formed formula [dpll] raises nothing: it returns [None] or
    the list of variables. *)
Lemma dpll_returns f :
  wf_formula f = true → ∃ r f', dpll f = Some (Return r f').
Proof.
  intros Hwf. unfold dpll, prepass.
  destruct (unit_scan _ _ _) as [|vs|vs ucs] eqn:Hscan.
  - exfalso. revert Hscan. apply unit_scan_no_raise.
    + by apply wf_formula_names_ok.
    + unfold enumerate. rewrite snd_enumerate_from.
      by apply wf_formula_in_range.
  - eauto.
  - destruct (backtrack_total (mkFormula vs
                (not_in_units ucs (enumerate (clauses f))))) as [[r f'] ->].
    eauto.
Qed.

(** Once a variable holds [True], a later unit clause with its negative
    literal stops the scan. *)
Lemma unit_scan_conflict_true cs vs ucs x :
  names_ok vs → in_range (length vs) (snd <$> cs) →
  var_value vs x = Some true →
  unit_lit (snd <$> cs) (mkLit x false) →
  ∃ vs', unit_scan cs vs ucs = ScanConflict vs'.
Proof.
  revert vs ucs. induction cs as [|[k c] cs IH]; intros vs ucs Hok Hr Hx Hu.
  { destruct Hu as (c & Hin & _). by apply elem_of_nil in Hin. }
  rewrite fmap_cons in Hr, Hu. simpl in Hr, Hu.
  apply unit_lit_cons in Hu.
  destruct (unit_or_not c) as [[lit Hlit] | Hlen].
  - rewrite (unit_scan_unit k c cs vs ucs lit); [| done | done |].
    2:{ apply (Hr c); [apply list_elem_of_here |].
        rewrite Hlit. apply list_elem_of_here. }
    destruct (truthy _ && _) eqn:Hconf; [eauto |].
    assert (var_value (set_value (var lit) (Some (sign lit)) vs) x
            = Some true ∧ unit_lit (cs.*2) (mkLit x false)) as [Hx' Hu'].
    { destruct (decide (var lit = x)) as [<- | Hne].
      - rewrite Hx in Hconf. unfold py_eq in Hconf. simpl in Hconf.
        destruct lit as [y [|]]; simpl in *.
        + split.
          * apply var_value_set_value_eq.
            unfold var_value in Hx.
            destruct (vs !! y) eqn:Hy; [| done]. by eapply lookup_lt_Some.
          * destruct Hu as [Hc | ?]; [congruence | done].
        + by vm_compute in Hconf.
      - split; [by rewrite var_value_set_value_ne |].
        destruct Hu as [Hc | ?]; [| done].
        rewrite Hc in Hlit. injection Hlit as <-. done. }
    apply IH; [by apply names_ok_set_value | | done | done].
    rewrite length_set_value. by eapply in_range_tail.
  - rewrite unit_scan_skip by done.
    apply IH; [done | by eapply in_range_tail | done |].
    destruct Hu as [Hc | ?]; [| done].
    unfold Clause.len in Hlen. by rewrite Hc in Hlen.
Qed.

(** A unit clause [{x}] followed, anywhere later, by a unit clause [{-x}]
    stops the scan with a conflict. *)
Lemma unit_scan_conflict_pos_neg cs1 k c cs2 vs ucs x :
  names_ok vs → in_range (length vs) (snd <$> cs1 ++ (k, c) :: cs2) →
  lits c = [mkLit x true] →
  unit_lit (snd <$> cs2) (mkLit x false) →
  ∃ vs', unit_scan (cs1 ++ (k, c) :: cs2) vs ucs = ScanConflict vs'.
Proof.
  intros Hok Hr Hc Hneg. revert vs ucs Hok Hr.
  induction cs1 as [|[k0 c0] cs1 IH]; intros vs ucs Hok Hr; simpl app in *;
    rewrite fmap_cons in Hr; simpl in Hr.
  - assert (x < length vs) as Hx.
    { apply (Hr c (mkLit x true)); [apply list_elem_of_here |].
      rewrite Hc. apply list_elem_of_here. }
    rewrite (unit_scan_unit k c cs2 vs ucs (mkLit x true)) by done.
    destruct (truthy _ && _); [eauto |]. simpl.
    apply unit_scan_conflict_true with (x := x);
      [by apply names_ok_set_value | | by apply var_value_set_value_eq | done].
    rewrite length_set_value. by eapply in_range_tail.
  - destruct (unit_or_not c0) as [[lit Hlit] | Hlen].
    + rewrite (unit_scan_unit k0 c0 _ vs ucs lit); [| done | done |].
      2:{ apply (Hr c0); [apply list_elem_of_here |].
          rewrite Hlit. apply list_elem_of_here. }
      destruct (truthy _ && _); [eauto |].
      apply IH; [by apply names_ok_set_value |].
      rewrite length_set_value. by eapply in_range_tail.
    + rewrite unit_scan_skip by done. apply IH; [done |].
      by eapply in_range_tail.
Qed.

Lemma enumerate_from_app k cs1 cs2 :
  enumerate_from k (cs1 ++ cs2)
  = enumerate_from k cs1 ++ enumerate_from (k + length cs1) cs2.
Proof.
  revert k. induction cs1 as [|c cs1 IH]; intros k; simpl.
  - by rewrite Nat.add_0_r.
  - rewrite IH. do 3 f_equal. lia.
Qed.

(** The conflict the scan does detect: on a well-formed formula in which a
    unit clause [{x}] comes before a unit clause [{-x}], [dpll] returns
    [None] from its pre-pass. *)
Lemma dpll_conflict_pos_then_neg f cs1 cs2 x :
  wf_formula f = true →
  clauses f = cs1 ++ mkClause [mkLit x true] :: cs2 →
  mkClause [mkLit x false] ∈ cs2 →
  ∃ g, prepass f = Conflict g ∧ dpll f = Some (Return None g).
Proof.
  intros Hwf Hcs Hneg.
  pose proof (wf_formula_names_ok f Hwf) as Hok.
  pose proof (wf_formula_in_range f Hwf) as Hr.
  unfold dpll, prepass, enumerate. rewrite Hcs, enumerate_from_app.
  cbn [enumerate_from].
  destruct (unit_scan_conflict_pos_neg (enumerate_from 0 cs1)
              (0 + length cs1) (mkClause [mkLit x true])
              (enumerate_from (S (0 + length cs1)) cs2) (vars f) [] x)
    as [vs' ->]; try done; [| | eauto].
  - change (?a ++ ?b :: ?c) with (a ++ enumerate_from (0 + length cs1)
      (mkClause [mkLit x true] :: cs2)).
    rewrite <- enumerate_from_app, snd_enumerate_from. by rewrite <- Hcs.
  - rewrite snd_enumerate_from. by exists (mkClause [mkLit x false]).
Qed.

(** ** Completeness of the two searches *)

Lemma agrees_set_value A i vs :
  agrees A vs → agrees A (set_value i (Some (A i)) vs).
Proof.
  intros Hag j b. destruct (decide (i = j)) as [<- | Hne].
  - unfold var_value, set_value. rewrite list_lookup_alter_eq.
    destruct (vs !! i); simpl; congruence.
  - rewrite var_value_set_value_ne by done. apply Hag.
Qed.

(** A partial assignment that a model extends falsifies no clause. *)
Lemma not_pruned A f :
  agrees A (vars f) → (∀ c, c ∈ clauses f → models A c) →
  Formula.unsat f = false.
Proof.
  intros Hag Hmod. apply not_true_is_false. intros Hu.
  apply Formula_unsat_spec, list.Exists_exists in Hu as (c & Hc & Hcu).
  apply Clause_unsat_spec in Hcu. rewrite list.Forall_forall in Hcu.
  destruct (Hmod c Hc) as (l & Hl & HA).
  destruct (Hcu l Hl) as (b & Hb & Hne). apply Hag in Hb. congruence.
Qed.

(** A complete assignment that a model extends satisfies every clause. *)
Lemma complete_sat A f :
  in_range (length (vars f)) (clauses f) →
  first_unassigned (vars f) = None →
  agrees A (vars f) → (∀ c, c ∈ clauses f → models A c) →
  Formula.sat f = true.
Proof.
  intros Hr Hall%first_unassigned_None Hag Hmod.
  apply Formula_sat_spec, list.Forall_forall. intros c Hc.
  apply Clause_sat_spec, list.Exists_exists.
  destruct (Hmod c Hc) as (l & Hl & HA). exists l. split; [done |].
  destruct (lookup_lt_is_Some_2 (vars f) (var l) (Hr c l Hc Hl)) as [v Hv].
  rewrite list.Forall_forall in Hall.
  pose proof (Hall v (list_elem_of_lookup_2 _ _ _ Hv)) as Hne.
  assert (var_value (vars f) (var l) = value v) as Hval
    by (unfold var_value; by rewrite Hv).
  destruct (value v) as [b|] eqn:Hb; [| done].
  rewrite Hval. f_equal. rewrite <- HA. symmetry. by apply Hag.
Qed.

(** The assignment returned by a successful call is a model of the
    formula. *)
Lemma solved_models f r f' c :
  solved f r f' → c ∈ clauses f → models (assignment_of r) c.
Proof.
  intros [-> Hc _ Hsat _] Hin. rewrite <- Hc in Hin.
  apply Formula_sat_spec in Hsat. rewrite list.Forall_forall in Hsat.
  specialize (Hsat c Hin).
  apply Clause_sat_spec, list.Exists_exists in Hsat as (l & Hl & Hval).
  exists l. split; [done |]. unfold assignment_of. by rewrite Hval.
Qed.

Lemma completable_assign A i f :
  completable A f → completable A (assign i (Some (A i)) f).
Proof.
  intros (Hr & Hag & Hmod). split_and!; simpl.
  - by rewrite length_set_value.
  - by apply agrees_set_value.
  - done.
Qed.

Section completeness.
Variable A : nat → bool.
Variable rec : Formula → option search_result.
Variable n : nat.
Hypothesis rec_fail : ∀ h h', rec h = Some (None, h') → h' = h.
Hypothesis rec_total : ∀ h, unassigned (vars h) < n → is_Some (rec h).
Hypothesis rec_complete : ∀ h,
  unassigned (vars h) < n → completable A h →
  ∃ r h', rec h = Some (Some r, h').

Lemma for_value_complete i values g :
  A i ∈ values →
  (∀ b, unassigned (vars (assign i (Some b) g)) < n) →
  completable A (assign i (Some (A i)) g) →
  ∃ r f', for_value rec i values g = Some (Some r, f').
Proof.
  revert g. induction values as [|b values IH]; intros g Hin Hn Hcomp.
  { by apply elem_of_nil in Hin. }
  assert (b ≠ A i → ∃ r f',
            for_value rec i values (assign i (Some b) g) = Some (Some r, f'))
    as Hnext.
  { intros Hne. apply IH.
    - apply elem_of_cons in Hin as [? | ?]; [congruence | done].
    - intros b'. by rewrite assign_assign.
    - by rewrite assign_assign. }
  simpl. destruct (Formula.unsat (assign i (Some b) g)) eqn:Hu; simpl.
  - apply Hnext. intros ->. destruct Hcomp as (_ & Hag & Hmod).
    by rewrite (not_pruned A _ Hag Hmod) in Hu.
  - destruct (rec_total (assign i (Some b) g) (Hn b)) as [[[r|] f2] Hrec];
      rewrite Hrec; [eauto |].
    pose proof (rec_fail _ _ Hrec) as ->. apply Hnext. intros ->.
    destruct (rec_complete _ (Hn (A i)) Hcomp) as (r & h' & Hr). congruence.
Qed.
End completeness.

(** [backtrack] finds an assignment whenever a model extends the current
    partial assignment. *)
Lemma backtrack_fuel_complete A fuel f :
  unassigned (vars f) < fuel → completable A f →
  ∃ r f', backtrack_fuel fuel f = Some (Some r, f').
Proof.
  revert f. induction fuel as [|fuel IH]; intros f Hlt Hcomp; [lia |].
  rewrite backtrack_fuel_S.
  destruct (first_unassigned (vars f)) as [i|] eqn:Hi.
  - destruct (first_unassigned_Some _ _ Hi) as (v & Hv & Hnone).
    apply for_value_complete with (A := A) (n := fuel).
    + apply backtrack_fuel_fail.
    + apply backtrack_fuel_total.
    + exact IH.
    + destruct (A i); [apply list_elem_of_here |].
      apply list_elem_of_further, list_elem_of_here.
    + intros b. simpl.
      pose proof (unassigned_set_value (vars f) i v b Hv Hnone). lia.
    + by apply completable_assign.
  - destruct Hcomp as (Hr & Hag & Hmod).
    rewrite (complete_sat A f) by done. eauto.
Qed.

(** The scan of a formula that has a model extending the store reports no
    conflict, and the model still extends the store afterwards. *)
Lemma unit_scan_model A cs vs ucs :
  names_ok vs → in_range (length vs) (snd <$> cs) → agrees A vs →
  (∀ c, c ∈ snd <$> cs → models A c) →
  ∃ vs' ucs', unit_scan cs vs ucs = ScanDone vs' ucs' ∧
    agrees A vs' ∧ length vs' = length vs.
Proof.
  revert vs ucs. induction cs as [|[k c] cs IH]; intros vs ucs Hok Hr Hag Hmod.
  { simpl. eauto. }
  rewrite fmap_cons in Hr, Hmod. simpl in Hr, Hmod.
  assert (∀ c', c' ∈ cs.*2 → models A c') as Hmod'
    by (intros; by apply Hmod, list_elem_of_further).
  destruct (unit_or_not c) as [[lit Hlit] | Hlen].
  - assert (A (var lit) = sign lit) as HA.
    { destruct (Hmod c (list_elem_of_here _ _)) as (l & Hl & HA).
      rewrite Hlit in Hl. by apply list_elem_of_singleton in Hl as ->. }
    rewrite (unit_scan_unit k c cs vs ucs lit); [| done | done |].
    2:{ apply (Hr c); [apply list_elem_of_here |].
        rewrite Hlit. apply list_elem_of_here. }
    assert (truthy (var_value vs (var lit))
            && negb (py_eq (var_value vs (var lit)) (Some (sign lit))) = false)
      as ->.
    { destruct (var_value vs (var lit)) as [b|] eqn:Hb; [| done].
      apply Hag in Hb. unfold py_eq.
      rewrite bool_decide_eq_true_2 by congruence. apply andb_false_r. }
    destruct (IH (set_value (var lit) (Some (sign lit)) vs) (ucs ++ [k]))
      as (vs' & ucs' & -> & ? & Hlen'); try done.
    + by apply names_ok_set_value.
    + rewrite length_set_value. by eapply in_range_tail.
    + rewrite <- HA. by apply agrees_set_value.
    + rewrite length_set_value in Hlen'. eauto.
  - rewrite unit_scan_skip by done.
    apply IH; [done | by eapply in_range_tail | done | done].
Qed.

(** [dpll] finds an assignment whenever the formula has a model extending
    the current partial assignment. *)
Lemma dpll_complete A f :
  wf_formula f = true → agrees A (vars f) →
  (∀ c, c ∈ clauses f → models A c) →
  ∃ r f', dpll f = Some (Return (Some r) f').
Proof.
  intros Hwf Hag Hmod.
  pose proof (wf_formula_names_ok f Hwf) as Hok.
  pose proof (wf_formula_in_range f Hwf) as Hr.
  destruct (unit_scan_model A (enumerate (clauses f)) (vars f) [])
    as (vs' & ucs' & Hscan & Hag' & Hlen); try done.
  { unfold enumerate. by rewrite snd_enumerate_from. }
  { unfold enumerate. by rewrite snd_enumerate_from. }
  pose (g := mkFormula vs' (not_in_units ucs' (enumerate (clauses f)))).
  assert (prepass f = Delegate g) as Hpre
    by (unfold prepass; by rewrite Hscan).
  pose proof (prepass_delegate_clauses _ _ Hpre) as Hcs.
  assert (vars g = vs') as Hvs by done.
  clearbody g. unfold dpll. rewrite Hpre.
  destruct (backtrack_fuel_complete A (S (unassigned (vars g))) g)
    as (r & f' & Hb).
  - lia.
  - unfold completable. rewrite Hcs, Hvs. split_and!.
    + rewrite Hlen. intros c l [_ Hc]%list_elem_of_filter. by apply Hr.
    + done.
    + intros c [_ Hc]%list_elem_of_filter. by apply Hmod.
  - unfold backtrack. rewrite Hb. eauto.
Qed.

(** One half of the agreement of the two searches holds: on a well-formed
    formula with every variable unassigned, if [backtrack] returns an
    assignment then so does [dpll]. *)
Lemma backtrack_success_dpll_success f r f' :
  wf_formula f = true → Forall (λ v, value v = None) (vars f) →
  backtrack f = Some (Some r, f') →
  ∃ r' f'', dpll f = Some (Return (Some r') f'').
Proof.
  intros Hwf Hall Hb. apply backtrack_fuel_success in Hb.
  apply (dpll_complete (assignment_of r)); [done | |].
  - intros j b. unfold var_value.
    destruct (vars f !! j) as [v|] eqn:Hv; [| done]. simpl.
    rewrite list.Forall_forall in Hall.
    by rewrite (Hall v (list_elem_of_lookup_2 _ _ _ Hv)).
  - intros c Hc. by eapply solved_models.
Qed.

(** ** Where the two searches agree *)

Section for_value_keeps.
Variable rec : Formula → option search_result.
Hypothesis rec_fail : ∀ h h', rec h = Some (None, h') → h' = h.
Hypothesis rec_keeps : ∀ h r h' j b,
  rec h = Some (Some r, h') →
  var_value (vars h) j = Some b → var_value (vars h') j = Some b.

Lemma for_value_keeps i values g r f' j b :
  for_value rec i values g = Some (Some r, f') → i ≠ j →
  var_value (vars g) j = Some b → var_value (vars f') j = Some b.
Proof.
  intros H Hne. revert g H. induction values as [|b0 values IH]; intros g;
    simpl; [done |].
  assert (var_value (vars g) j = Some b →
          var_value (vars (assign i (Some b0) g)) j = Some b) as Hstep
    by (intros ?; simpl; by rewrite var_value_set_value_ne).
  destruct (Formula.unsat (assign i (Some b0) g)); simpl.
  - intros H Hj. eapply IH; [exact H | by apply Hstep].
  - destruct (rec (assign i (Some b0) g)) as [[[r'|] f2]|] eqn:Hrec; try done.
    + intros [= -> ->] Hj. eapply rec_keeps; [exact Hrec | by apply Hstep].
    + intros H Hj. apply rec_fail in Hrec as ->.
      eapply IH; [exact H | by apply Hstep].
Qed.
End for_value_keeps.

(** A successful search changes no variable that was assigned on entry. *)
Lemma backtrack_fuel_keeps fuel f r f' j b :
  backtrack_fuel fuel f = Some (Some r, f') →
  var_value (vars f) j = Some b → var_value (vars f') j = Some b.
Proof.
  revert f r f' j b. induction fuel as [|fuel IH]; intros f r f' j b; [done |].
  rewrite backtrack_fuel_S.
  destruct (first_unassigned (vars f)) as [i|] eqn:Hi.
  - intros H Hj. eapply for_value_keeps;
      [apply backtrack_fuel_fail | exact IH | exact H | | done].
    intros ->. apply first_unassigned_Some in Hi as (v & Hv & Hnone).
    unfold var_value in Hj. rewrite Hv in Hj. simpl in Hj. congruence.
  - destruct (Formula.sat f); [| done]. by intros [= <- <-].
Qed.

(** The other half of the agreement needs the unit clauses to be
    consistent: then an assignment returned by [dpll] is a model of the whole
    formula, and [backtrack] finds one as well. *)
Lemma dpll_success_backtrack_success f r f' :
  wf_formula f = true → Forall (λ v, value v = None) (vars f) →
  units_consistent (clauses f) →
  dpll f = Some (Return (Some r) f') →
  ∃ r' f'', backtrack f = Some (Some r', f'').
Proof.
  intros Hwf Hall Hcons. unfold dpll.
  destruct (prepass f) as [|g|g] eqn:Hpre; [done | done |].
  destruct (backtrack g) as [[r0 g']|] eqn:Hb; [| done].
  intros [= -> ->].
  destruct (prepass_delegate_state f g Hwf Hpre) as (Hcs & _ & Hunits).
  specialize (Hunits Hcons).
  pose proof (backtrack_fuel_success _ g r f' Hb) as Hsolved.
  pose proof (solved_alias _ _ _ Hsolved) as Hr.
  apply (backtrack_fuel_complete (assignment_of r)); [lia |].
  split_and!.
  - by apply wf_formula_in_range.
  - intros j b. unfold var_value.
    destruct (vars f !! j) as [v|] eqn:Hv; [| done]. simpl.
    rewrite list.Forall_forall in Hall.
    by rewrite (Hall v (list_elem_of_lookup_2 _ _ _ Hv)).
  - intros c Hc. destruct (unit_or_not c) as [[l Hl] | Hlen].
    + exists l. split; [rewrite Hl; apply list_elem_of_here |].
      unfold assignment_of. rewrite Hr.
      rewrite (backtrack_fuel_keeps _ g _ f' (var l) (sign l) Hb); [done |].
      apply Hunits. by exists c.
    + apply (solved_models g r f'); [done |].
      rewrite Hcs. by apply list_elem_of_filter.
Qed.

(** On well-formed formulas with every variable unassigned and no variable
    with unit clauses of both polarities, [backtrack] and [dpll] agree on
    satisfiability. *)
Lemma backtrack_dpll_agree_consistent_units f :
  wf_formula f = true → Forall (λ v, value v = None) (vars f) →
  units_consistent (clauses f) →
  (∃ r f', backtrack f = Some (Some r, f')) ↔
  (∃ r f', dpll f = Some (Return (Some r) f')).
Proof.
  intros Hwf Hall Hcons. split.
  - intros (r & f' & H). by eapply backtrack_success_dpll_success.
  - intros (r & f' & H). by eapply dpll_success_backtrack_success.
Qed.

(** * The searches on a bounded stack *)

(** More fuel than the search needs gives the same result. *)
Lemma backtrack_fuel_enough fuel f res :
  backtrack_fuel fuel f = Some res → backtrack f = Some res.
Proof.
  intros H. destruct (backtrack_total f) as [res' Hres'].
  rewrite Hres'. f_equal.
  pose proof (backtrack_fuel_mono _ (fuel `max` S (unassigned (vars f))) _ _
                (Nat.le_max_l _ _) H) as H1.
  pose proof (backtrack_fuel_mono _ (fuel `max` S (unassigned (vars f))) _ _
                (Nat.le_max_r _ _) Hres') as H2.
  congruence.
Qed.

Lemma fresh_vars_lookup n i v :
  fresh_vars n !! i = Some v ↔ i < n ∧ v = mkVar (Z.of_nat i + 1) None.
Proof.
  unfold fresh_vars. rewrite list_lookup_fmap. split.
  - destruct (seq 0 n !! i) as [k|] eqn:Hk; [| done].
    apply lookup_seq in Hk as [-> ?]. by intros [= <-].
  - intros [Hi ->]. by rewrite (lookup_seq_lt 0 n i Hi).
Qed.

Lemma length_fresh_vars n : length (fresh_vars n) = n.
Proof. unfold fresh_vars. by rewrite length_fmap, length_seq. Qed.

Lemma fresh_vars_unassigned n : Forall (λ v, value v = None) (fresh_vars n).
Proof.
  apply list.Forall_forall. intros v [i Hi]%list_elem_of_lookup_1.
  by apply fresh_vars_lookup in Hi as [_ ->].
Qed.

(** ** The tests of a formula *)

(** A test that returns gives the answer of the test, and it returns when
    there is room for the calls below it. *)

Lemma Stack_Lit_sat_Some d vs l b :
  Stack.Lit_sat d vs l = Some b → b = Lit.sat vs l.
Proof. destruct d; [done |]. by intros [= <-]. Qed.

Lemma Stack_Lit_sat_room d vs l :
  1 ≤ d → Stack.Lit_sat d vs l = Some (Lit.sat vs l).
Proof. destruct d; [lia | done]. Qed.

Lemma Stack_Lit_unsat_Some d vs l b :
  Stack.Lit_unsat d vs l = Some b → b = Lit.unsat vs l.
Proof.
  destruct d as [|d]; [done |]. unfold Stack.Lit_unsat, Lit.unsat.
  destruct (py_eq (var_value vs (var l)) None); simpl; [by intros [= <-] |].
  destruct (Stack.Lit_sat d vs l) as [s|] eqn:Hs; [| done].
  apply Stack_Lit_sat_Some in Hs as ->.
  destruct (Lit.sat vs l); by intros [= <-].
Qed.

Lemma Stack_Lit_unsat_room d vs l :
  2 ≤ d → Stack.Lit_unsat d vs l = Some (Lit.unsat vs l).
Proof.
  intros Hd. destruct d as [|d]; [lia |]. unfold Stack.Lit_unsat, Lit.unsat.
  rewrite Stack_Lit_sat_room by lia.
  destruct (py_eq (var_value vs (var l)) None); simpl; [done |].
  by destruct (Lit.sat vs l).
Qed.

Lemma Stack_Clause_sat_Some d vs c b :
  Stack.Clause_sat d vs c = Some b → b = Clause.sat vs c.
Proof.
  destruct d as [|d]; [done |]. unfold Stack.Clause_sat, Clause.sat.
  induction (lits c) as [|l ls IH]; simpl; [by intros [= <-] |].
  destruct (Stack.Lit_sat d vs l) as [s|] eqn:Hs; [| done].
  apply Stack_Lit_sat_Some in Hs as ->.
  destruct (Lit.sat vs l); [by intros [= <-] | exact IH].
Qed.

Lemma Stack_Clause_sat_room d vs c :
  2 ≤ d → Stack.Clause_sat d vs c = Some (Clause.sat vs c).
Proof.
  intros Hd. destruct d as [|d]; [lia |]. unfold Stack.Clause_sat, Clause.sat.
  induction (lits c) as [|l ls IH]; simpl; [done |].
  rewrite Stack_Lit_sat_room by lia. by destruct (Lit.sat vs l).
Qed.

Lemma Stack_Clause_unsat_Some d vs c b :
  Stack.Clause_unsat d vs c = Some b → b = Clause.unsat vs c.
Proof.
  destruct d as [|d]; [done |]. unfold Stack.Clause_unsat, Clause.unsat.
  induction (lits c) as [|l ls IH]; simpl; [by intros [= <-] |].
  destruct (Stack.Lit_unsat d vs l) as [s|] eqn:Hs; [| done].
  apply Stack_Lit_unsat_Some in Hs as ->.
  destruct (Lit.unsat vs l); simpl; [exact IH | by intros [= <-]].
Qed.

Lemma Stack_Clause_unsat_room d vs c :
  3 ≤ d → Stack.Clause_unsat d vs c = Some (Clause.unsat vs c).
Proof.
  intros Hd. destruct d as [|d]; [lia |].
  unfold Stack.Clause_unsat, Clause.unsat.
  induction (lits c) as [|l ls IH]; simpl; [done |].
  rewrite Stack_Lit_unsat_room by lia. by destruct (Lit.unsat vs l).
Qed.

Lemma Stack_Formula_sat_Some d f b :
  Stack.Formula_sat d f = Some b → b = Formula.sat f.
Proof.
  destruct d as [|d]; [done |]. unfold Stack.Formula_sat, Formula.sat.
  induction (clauses f) as [|c cs IH]; simpl; [by intros [= <-] |].
  destruct (Stack.Clause_sat d (vars f) c) as [s|] eqn:Hs; [| done].
  apply Stack_Clause_sat_Some in Hs as ->.
  destruct (Clause.sat (vars f) c); simpl; [exact IH | by intros [= <-]].
Qed.

Lemma Stack_Formula_sat_room d f :
  3 ≤ d → Stack.Formula_sat d f = Some (Formula.sat f).
Proof.
  intros Hd. destruct d as [|d]; [lia |].
  unfold Stack.Formula_sat, Formula.sat.
  induction (clauses f) as [|c cs IH]; simpl; [done |].
  rewrite Stack_Clause_sat_room by lia. by destruct (Clause.sat (vars f) c).
Qed.

Lemma Stack_Formula_unsat_Some d f b :
  Stack.Formula_unsat d f = Some b → b = Formula.unsat f.
Proof.
  destruct d as [|d]; [done |]. unfold Stack.Formula_unsat, Formula.unsat.
  induction (clauses f) as [|c cs IH]; simpl; [by intros [= <-] |].
  destruct (Stack.Clause_unsat d (vars f) c) as [s|] eqn:Hs; [| done].
  apply Stack_Clause_unsat_Some in Hs as ->.
  destruct (Clause.unsat (vars f) c); simpl; [by intros [= <-] | exact IH].
Qed.

Lemma Stack_Formula_unsat_room d f :
  4 ≤ d → Stack.Formula_unsat d f = Some (Formula.unsat f).
Proof.
  intros Hd. destruct d as [|d]; [lia |].
  unfold Stack.Formula_unsat, Formula.unsat.
  induction (clauses f) as [|c cs IH]; simpl; [done |].
  rewrite Stack_Clause_unsat_room by lia.
  by destruct (Clause.unsat (vars f) c).
Qed.

(** With no clause a test of the formula calls nothing. *)
Lemma Stack_Formula_unsat_no_clauses d f :
  clauses f = [] → Stack.Formula_unsat (S d) f = Some false.
Proof. intros Hc. unfold Stack.Formula_unsat. by rewrite Hc. Qed.

Lemma Stack_Formula_sat_no_clauses d f :
  clauses f = [] → Stack.Formula_sat (S d) f = Some true.
Proof. intros Hc. unfold Stack.Formula_sat. by rewrite Hc. Qed.

(** ** [backtrack] *)

Lemma Stack_backtrack_S d f :
  Stack.backtrack (S d) f =
  match first_unassigned (vars f) with
  | Some i => Stack.for_value (Stack.backtrack d) d i [true; false] f
  | None =>
      match Stack.Formula_sat d f with
      | None => Stack.Raised Stack.RecursionError f
      | Some true => Stack.Returned (Some (vars f)) f
      | Some false => Stack.Returned None f
      end
  end.
Proof. done. Qed.

Lemma Stack_for_value_cons rec d i b values f :
  Stack.for_value rec d i (b :: values) f =
  match Stack.Formula_unsat d (assign i (Some b) f) with
  | None => Stack.Raised Stack.RecursionError (assign i (Some b) f)
  | Some true => Stack.for_value rec d i values (assign i (Some b) f)
  | Some false =>
      match rec (assign i (Some b) f) with
      | Stack.Returned (Some r) f2 => Stack.Returned (Some r) f2
      | Stack.Returned None f2 => Stack.for_value rec d i values f2
      | Stack.Raised e f2 => Stack.Raised e f2
      end
  end.
Proof. done. Qed.

(** A call that returns returns what the search returns. *)
Lemma Stack_for_value_returned rec_s rec d i values g r f' :
  (∀ h r' h', rec_s h = Stack.Returned r' h' → rec h = Some (r', h')) →
  Stack.for_value rec_s d i values g = Stack.Returned r f' →
  for_value rec i values g = Some (r, f').
Proof.
  intros Hrec. revert g. induction values as [|b values IH]; intros g.
  - simpl. by intros [= <- <-].
  - rewrite Stack_for_value_cons. cbn [for_value].
    destruct (Stack.Formula_unsat d _) as [u|] eqn:Hu; [| done].
    apply Stack_Formula_unsat_Some in Hu as ->.
    destruct (Formula.unsat (assign i (Some b) g)); simpl; [apply IH |].
    destruct (rec_s (assign i (Some b) g)) as [[r2|] f2|e f2] eqn:Hr; [| | done].
    + rewrite (Hrec _ _ _ Hr). by intros [= <- <-].
    + rewrite (Hrec _ _ _ Hr). apply IH.
Qed.

Lemma Stack_backtrack_fuel d f r f' :
  Stack.backtrack d f = Stack.Returned r f' →
  backtrack_fuel d f = Some (r, f').
Proof.
  revert f r f'. induction d as [|d IH]; intros f r f'; [done |].
  rewrite Stack_backtrack_S, backtrack_fuel_S.
  destruct (first_unassigned (vars f)) as [i|].
  - by apply Stack_for_value_returned.
  - destruct (Stack.Formula_sat d f) as [s|] eqn:Hs; [| done].
    apply Stack_Formula_sat_Some in Hs as ->.
    destruct (Formula.sat f); by intros [= <- <-].
Qed.

Lemma Stack_backtrack_returned d f r f' :
  Stack.backtrack d f = Stack.Returned r f' → backtrack f = Some (r, f').
Proof. intros H. by apply (backtrack_fuel_enough d), Stack_backtrack_fuel. Qed.

(** With room for the search, the call returns it. *)
Lemma Stack_for_value_enough rec_s rec d i values g r f' :
  4 ≤ d →
  (∀ h h', rec h = Some (None, h') → h' = h) →
  (∀ b h res, h = assign i (Some b) g → rec h = Some res →
              rec_s h = Stack.Returned res.1 res.2) →
  for_value rec i values g = Some (r, f') →
  Stack.for_value rec_s d i values g = Stack.Returned r f'.
Proof.
  intros Hd Hfail. revert g. induction values as [|b values IH]; intros g Hrec.
  - simpl. by intros [= <- <-].
  - assert (∀ b' b0 h res, h = assign i (Some b0) (assign i (Some b') g) →
              rec h = Some res → rec_s h = Stack.Returned res.1 res.2) as Hnext.
    { intros b' b0 h res ->. rewrite assign_assign. by apply (Hrec b0). }
    rewrite Stack_for_value_cons. cbn [for_value].
    rewrite Stack_Formula_unsat_room by done.
    destruct (Formula.unsat (assign i (Some b) g)); simpl.
    + apply IH. apply Hnext.
    + destruct (rec (assign i (Some b) g)) as [[[r2|] f2]|] eqn:Hr; [| | done].
      * rewrite (Hrec b _ _ eq_refl Hr). simpl. by intros [= <- <-].
      * rewrite (Hrec b _ _ eq_refl Hr). simpl.
        apply Hfail in Hr as ->. apply IH. apply Hnext.
Qed.

Lemma Stack_backtrack_fuel_enough d fuel f res :
  unassigned (vars f) + 4 ≤ d →
  backtrack_fuel fuel f = Some res →
  Stack.backtrack d f = Stack.Returned res.1 res.2.
Proof.
  revert fuel f res. induction d as [|d IH]; intros fuel f res Hd; [lia |].
  destruct fuel as [|fuel]; [done |].
  rewrite Stack_backtrack_S, backtrack_fuel_S.
  destruct (first_unassigned (vars f)) as [i|] eqn:Hi.
  - apply first_unassigned_Some in Hi as (v & Hv & Hnone).
    pose proof (unassigned_set_value (vars f) i v) as Hun.
    destruct res as [r f']. cbn [fst snd].
    apply (Stack_for_value_enough _ (backtrack_fuel fuel));
      [specialize (Hun true Hv Hnone); lia | apply backtrack_fuel_fail |].
    intros b h res -> Hres. apply (IH fuel); [| done]. simpl.
    specialize (Hun b Hv Hnone). lia.
  - rewrite Stack_Formula_sat_room by lia.
    destruct (Formula.sat f); by intros [= <-].
Qed.

Lemma Stack_backtrack_enough d f r f' :
  unassigned (vars f) + 4 ≤ d → backtrack f = Some (r, f') →
  Stack.backtrack d f = Stack.Returned r f'.
Proof. intros Hd H. exact (Stack_backtrack_fuel_enough d _ f _ Hd H). Qed.

Lemma Stack_backtrack_room d f :
  unassigned (vars f) + 4 ≤ d →
  ∃ r f', Stack.backtrack d f = Stack.Returned r f'.
Proof.
  intros Hd. destruct (backtrack_total f) as [[r f'] H].
  exists r, f'. by apply Stack_backtrack_enough.
Qed.

(** Scenario 4 on a short stack: with room for seven frames [backtrack]
    returns the assignment it returns on any deeper stack; with room for
    four, the first test of the formula has no frame left for [l.sat()], and
    the call raises [RecursionError]. *)
Example Stack_backtrack_scenario4 :
  Stack.backtrack 7 scenario4 =
    Stack.Returned (Some [mkVar 1 (Some true); mkVar 2 (Some false)])
      (mkFormula [mkVar 1 (Some true); mkVar 2 (Some false)]
         (clauses scenario4)) ∧
  Stack.backtrack 4 scenario4 =
    Stack.Raised Stack.RecursionError (assign 0 (Some true) scenario4).
Proof. by vm_compute. Qed.

(** [backtrack] raises nothing but [RecursionError], and that only when the
    room is short. *)
Lemma Stack_for_value_raised rec d i values g e f' :
  (∀ h e' h', rec h = Stack.Raised e' h' → e' = Stack.RecursionError) →
  Stack.for_value rec d i values g = Stack.Raised e f' →
  e = Stack.RecursionError.
Proof.
  intros Hrec. revert g. induction values as [|b values IH]; intros g; [done |].
  rewrite Stack_for_value_cons.
  destruct (Stack.Formula_unsat d _) as [[|]|]; [apply IH | | by intros [= <- _]].
  destruct (rec (assign i (Some b) g)) as [[r2|] f2|e2 f2] eqn:Hr;
    [done | apply IH |].
  intros [= <- _]. by eapply Hrec.
Qed.

Lemma Stack_backtrack_raised d f e f' :
  Stack.backtrack d f = Stack.Raised e f' →
  e = Stack.RecursionError ∧ d < unassigned (vars f) + 4.
Proof.
  intros H. split.
  - revert f e f' H. induction d as [|d IH]; intros f e f'.
    + by intros [= <- _].
    + rewrite Stack_backtrack_S. destruct (first_unassigned (vars f)).
      * by apply Stack_for_value_raised.
      * destruct (Stack.Formula_sat d f) as [[|]|]; [done | done |].
        by intros [= <- _].
  - destruct (decide (d < unassigned (vars f) + 4)) as [| Hd]; [done |].
    destruct (Stack_backtrack_room d f) as (r & f'' & Hr); [lia | congruence].
Qed.

(** Whatever its outcome, a call changes nothing but values. *)
Lemma Stack_for_value_shape rec d i values g :
  (∀ h, clauses (Stack.formula_of (rec h)) = clauses h ∧
        name <$> vars (Stack.formula_of (rec h)) = name <$> vars h) →
  clauses (Stack.formula_of (Stack.for_value rec d i values g)) = clauses g ∧
  name <$> vars (Stack.formula_of (Stack.for_value rec d i values g))
  = name <$> vars g.
Proof.
  intros Hrec. revert g. induction values as [|b values IH]; intros g.
  - simpl. split; [done | apply names_set_value].
  - assert (clauses (assign i (Some b) g) = clauses g ∧
            name <$> vars (assign i (Some b) g) = name <$> vars g) as [Hc Hn]
      by (split; [done | apply names_set_value]).
    rewrite Stack_for_value_cons.
    destruct (Stack.Formula_unsat d _) as [[|]|]; simpl.
    + destruct (IH (assign i (Some b) g)) as [-> ->]. done.
    + destruct (Hrec (assign i (Some b) g)) as [Hc2 Hn2].
      destruct (rec (assign i (Some b) g)) as [[r2|] f2|e2 f2]; simpl in *.
      * split; congruence.
      * destruct (IH f2) as [-> ->]. split; congruence.
      * split; congruence.
    + done.
Qed.

Lemma Stack_backtrack_shape d f :
  clauses (Stack.formula_of (Stack.backtrack d f)) = clauses f ∧
  name <$> vars (Stack.formula_of (Stack.backtrack d f)) = name <$> vars f.
Proof.
  revert f. induction d as [|d IH]; intros f; [done |].
  rewrite Stack_backtrack_S. destruct (first_unassigned (vars f)).
  - by apply Stack_for_value_shape.
  - by destruct (Stack.Formula_sat d f) as [[|]|].
Qed.

(** ** [backtrack] on a formula with no clause *)

Lemma Stack_backtrack_no_clauses d f :
  clauses f = [] → unassigned (vars f) + 2 ≤ d →
  Stack.backtrack d f =
    Stack.Returned (Some (fill_true (vars f)))
      (mkFormula (fill_true (vars f)) []).
Proof.
  revert f. induction d as [|d IH]; intros f Hc Hd; [lia |].
  rewrite Stack_backtrack_S.
  destruct (first_unassigned (vars f)) as [i|] eqn:Hi.
  - apply first_unassigned_Some in Hi as (v & Hv & Hnone).
    pose proof (unassigned_set_value (vars f) i v true Hv Hnone) as Hun.
    destruct d as [|d]; [lia |].
    rewrite Stack_for_value_cons, Stack_Formula_unsat_no_clauses by done.
    rewrite IH; [| done | simpl; lia]. simpl.
    by erewrite fill_true_set_value.
  - apply first_unassigned_None in Hi.
    destruct d as [|d]; [lia |].
    rewrite Stack_Formula_sat_no_clauses by done.
    rewrite fill_true_assigned by done. destruct f; simpl in *; by subst.
Qed.

Lemma Stack_backtrack_no_clauses_short d f :
  clauses f = [] → d < unassigned (vars f) + 2 →
  ∃ f', Stack.backtrack d f = Stack.Raised Stack.RecursionError f'.
Proof.
  revert f. induction d as [|d IH]; intros f Hc Hd; [by eexists |].
  rewrite Stack_backtrack_S.
  destruct (first_unassigned (vars f)) as [i|] eqn:Hi.
  - apply first_unassigned_Some in Hi as (v & Hv & Hnone).
    pose proof (unassigned_set_value (vars f) i v true Hv Hnone) as Hun.
    rewrite Stack_for_value_cons.
    destruct d as [|d]; [by eexists |].
    rewrite Stack_Formula_unsat_no_clauses by done.
    destruct (IH (assign i (Some true) f)) as [f' ->]; [done | simpl; lia |].
    by eexists.
  - apply unassigned_zero in Hi. destruct d as [|d]; [by eexists | lia].
Qed.

(** ** The calls of a run on a bounded stack *)

Lemma Stack_backtrack_trace_S d f :
  Stack.backtrack_trace (S d) f =
  match first_unassigned (vars f) with
  | Some i =>
      let (out, ts) :=
        Stack.for_value_trace (Stack.backtrack_trace d) d i [true; false] f []
      in (out, [Call f ts])
  | None =>
      (match Stack.Formula_sat d f with
       | None => Stack.Raised Stack.RecursionError f
       | Some true => Stack.Returned (Some (vars f)) f
       | Some false => Stack.Returned None f
       end, [Call f []])
  end.
Proof. done. Qed.

Lemma Stack_for_value_trace_cons rec d i b values f made :
  Stack.for_value_trace rec d i (b :: values) f made =
  match Stack.Formula_unsat d (assign i (Some b) f) with
  | None => (Stack.Raised Stack.RecursionError (assign i (Some b) f), made)
  | Some true => Stack.for_value_trace rec d i values (assign i (Some b) f) made
  | Some false =>
      match rec (assign i (Some b) f) with
      | (Stack.Returned (Some r) f2, ts) =>
          (Stack.Returned (Some r) f2, made ++ ts)
      | (Stack.Returned None f2, ts) =>
          Stack.for_value_trace rec d i values f2 (made ++ ts)
      | (Stack.Raised e f2, ts) => (Stack.Raised e f2, made ++ ts)
      end
  end.
Proof. done. Qed.

Lemma Stack_for_value_trace_erase rec_t rec d i values g made :
  (∀ h, (rec_t h).1 = rec h) →
  (Stack.for_value_trace rec_t d i values g made).1
  = Stack.for_value rec d i values g.
Proof.
  intros Hrec. revert g made.
  induction values as [|b values IH]; intros g made; [done |].
  rewrite Stack_for_value_trace_cons, Stack_for_value_cons.
  destruct (Stack.Formula_unsat d _) as [[|]|]; [apply IH | | done].
  rewrite <- Hrec.
  destruct (rec_t (assign i (Some b) g)) as [[[r|] f2|e f2] ts]; simpl;
    [done | apply IH | done].
Qed.

(** The recording run ends as the plain run does. *)
Lemma Stack_backtrack_trace_erase d f :
  (Stack.backtrack_trace d f).1 = Stack.backtrack d f.
Proof.
  revert f. induction d as [|d IH]; intros f; [done |].
  rewrite Stack_backtrack_trace_S, Stack_backtrack_S.
  destruct (first_unassigned (vars f)) as [i|]; [| done].
  rewrite <- (Stack_for_value_trace_erase (Stack.backtrack_trace d) _ d i _ f []
                IH).
  by destruct (Stack.for_value_trace _ _ _ _ _ _).
Qed.

Section Stack_for_value_trace.
Variable rec_t : Formula → Stack.outcome * list call_tree.
Hypothesis rec_t_fail : ∀ h h' ts,
  rec_t h = (Stack.Returned None h', ts) → h' = h.
Hypothesis rec_t_within : ∀ h,
  Forall (within (unassigned (vars h))) (rec_t h).2 ∧ length (rec_t h).2 ≤ 1.

Lemma Stack_for_value_trace_within m d i values g made :
  (∀ b, unassigned (vars (assign i (Some b) g)) = m) →
  Forall (within m) made →
  Forall (within m) (Stack.for_value_trace rec_t d i values g made).2 ∧
  length (Stack.for_value_trace rec_t d i values g made).2
  ≤ length made + length values.
Proof.
  revert g made. induction values as [|b values IH]; intros g made Hg Hmade.
  - simpl. split; [done | lia].
  - rewrite Stack_for_value_trace_cons.
    destruct (Stack.Formula_unsat d _) as [[|]|]; cbn [length].
    + destruct (IH (assign i (Some b) g) made) as [? ?];
        [intros b0; rewrite assign_assign; apply Hg | done |].
      split; [done | simpl; lia].
    + destruct (rec_t_within (assign i (Some b) g)) as [Hw Hlen].
      rewrite Hg in Hw.
      destruct (rec_t (assign i (Some b) g)) as [[[r|] f2|e f2] ts] eqn:Hrec;
        cbn [fst snd] in *.
      * split; [by apply Forall_app_2 |]. rewrite length_app. simpl. lia.
      * pose proof (rec_t_fail _ _ _ Hrec) as ->.
        destruct (IH (assign i (Some b) g) (made ++ ts)) as [? Hl];
          [intros b0; rewrite assign_assign; apply Hg
          | by apply Forall_app_2 |].
        split; [done |]. rewrite length_app in Hl. simpl. lia.
      * split; [by apply Forall_app_2 |]. rewrite length_app. simpl. lia.
    + split; [done | simpl; lia].
Qed.
End Stack_for_value_trace.

Lemma Stack_backtrack_trace_fail d f f' ts :
  Stack.backtrack_trace d f = (Stack.Returned None f', ts) → f' = f.
Proof.
  intros H. apply (backtrack_fuel_fail d), Stack_backtrack_fuel.
  by rewrite <- Stack_backtrack_trace_erase, H.
Qed.

(** The tree of a call that was entered: one tree, entered on the formula of
    the call, in which the unassigned variables decrease; no tree for a call
    made with no room. *)
Lemma Stack_backtrack_trace_within d f :
  match (Stack.backtrack_trace d f).2 with
  | [] => d = 0
  | [t] => 0 < d ∧ entered_on t = f ∧ within (unassigned (vars f)) t
  | _ => False
  end.
Proof.
  revert f. induction d as [|d IH]; intros f; [done |].
  rewrite Stack_backtrack_trace_S.
  destruct (first_unassigned (vars f)) as [i|] eqn:Hi.
  - destruct (first_unassigned_Some _ _ Hi) as (v & Hv & Hnone).
    assert (∃ m, unassigned (vars f) = S m) as [m Hm].
    { pose proof (unassigned_set_value (vars f) i v true Hv Hnone). eauto. }
    destruct (Stack_for_value_trace_within (Stack.backtrack_trace d)
                (Stack_backtrack_trace_fail d)) with
      (m := m) (d := d) (i := i) (values := [true; false]) (g := f)
      (made := @nil call_tree) as [Hts Hlen].
    { intros h. specialize (IH h).
      destruct ((Stack.backtrack_trace d h).2) as [|t [|t' ts]]; [| | done].
      - split; [constructor | simpl; lia].
      - destruct IH as (_ & _ & Hw).
        split; [by apply Forall_singleton | simpl; lia]. }
    { intros b. simpl.
      pose proof (unassigned_set_value (vars f) i v b Hv Hnone). lia. }
    { constructor. }
    destruct (Stack.for_value_trace _ _ _ _ _ _) as [out ts]. simpl in *.
    split; [lia |]. split; [done |]. rewrite Hm. split_and!.
    + done.
    + by apply decreasing_calls_within with (m := m).
    + simpl. pose proof (depth_calls_within m ts Hts). lia.
    + pose proof (complete_calls_within m ts Hts) as Hc.
      cbn [complete_assignments]. rewrite Hi, Nat.pow_succ_r'. nia.
  - apply unassigned_zero in Hi as Hz. simpl.
    split; [lia |]. split; [done |]. rewrite Hz. split_and!; try done.
    cbn [complete_assignments]. by rewrite Hi.
Qed.

(** ** Claims about the end of the search *)

Lemma unassigned_all vs :
  Forall (λ v, value v = None) vs → unassigned vs = length vs.
Proof.
  unfold unassigned. induction 1 as [|v vs Hv _ IH]; [done |].
  rewrite filter_cons. rewrite decide_True by done. simpl. by rewrite IH.
Qed.

(** C9: every call of [backtrack] ends, whatever the formula and the room
    on the stack: it returns, or it raises [RecursionError], and that only
    when fewer than [n + 5] frames were left, for [n] the number of
    unassigned variables.  In the tree of the calls that were entered, every
    recursive call is entered with strictly fewer unassigned variables than
    its caller, calls nest no deeper than the number of variables (plus the
    first call), and at most [2 ^ n] complete assignments are tested, for
    [n] the number of variables. *)
Theorem backtrack_terminates d f :
  ((∃ r f', Stack.backtrack d f = Stack.Returned r f') ∨
   (∃ f', Stack.backtrack d f = Stack.Raised Stack.RecursionError f' ∧
          d < unassigned (vars f) + 5)) ∧
  (Stack.backtrack_trace d f).1 = Stack.backtrack d f ∧
  match (Stack.backtrack_trace d f).2 with
  | [] => d = 0
  | [t] =>
      entered_on t = f ∧ decreasing t = true ∧
      depth t ≤ S (length (vars f)) ∧
      complete_assignments t ≤ 2 ^ length (vars f)
  | _ => False
  end.
Proof.
  split_and!.
  - destruct (Stack.backtrack d f) as [r f'|e f'] eqn:Hb; [by eauto |].
    apply Stack_backtrack_raised in Hb as Hraised.
    destruct Hraised as [-> Hd]. right. exists f'. split; [done | lia].
  - apply Stack_backtrack_trace_erase.
  - pose proof (Stack_backtrack_trace_within d f) as Hw.
    destruct ((Stack.backtrack_trace d f).2) as [|t [|t' ts]]; [done | | done].
    destruct Hw as (_ & Hf & _ & Hdec & Hdepth & Hc).
    pose proof (unassigned_le_length (vars f)) as Hle.
    split_and!; [done | done | lia |].
    etrans; [exact Hc |]. apply Nat.pow_le_mono_r; lia.
Qed.

(** C10, as amended: on a formula with no clause and every variable
    unassigned, [backtrack] returns the formula's variables, each of them
    assigned [True], when the stack has room for [n + 2] frames more, for
    [n] the number of variables; with less room it raises
    [RecursionError]. *)
Theorem backtrack_no_clauses_all_true d f :
  clauses f = [] → Forall (λ v, value v = None) (vars f) →
  (length (vars f) + 2 ≤ d →
   ∃ r f', Stack.backtrack d f = Stack.Returned (Some r) f' ∧ r = vars f' ∧
     Formula.sat f' = true ∧
     name <$> r = name <$> vars f ∧
     values r = replicate (length (vars f)) (Some true)) ∧
  (d < length (vars f) + 2 →
   ∃ f', Stack.backtrack d f = Stack.Raised Stack.RecursionError f').
Proof.
  intros Hc Hall. pose proof (unassigned_all (vars f) Hall) as Hn. split.
  - intros Hd.
    exists (fill_true (vars f)), (mkFormula (fill_true (vars f)) []).
    split_and!; try done.
    + apply Stack_backtrack_no_clauses; [done | lia].
    + apply names_fill_true.
    + by apply fill_true_unassigned.
  - intros Hd. apply Stack_backtrack_no_clauses_short; [done | lia].
Qed.

Lemma backtrack_no_clauses_all_true_witness :
  clauses (cnf 3 []) = [] ∧
  Forall (λ v, value v = None) (vars (cnf 3 [])) ∧
  (∃ r f', Stack.backtrack 5 (cnf 3 []) = Stack.Returned (Some r) f' ∧
     r = vars f' ∧ Formula.sat f' = true ∧
     name <$> r = name <$> vars (cnf 3 []) ∧
     values r = replicate (length (vars (cnf 3 []))) (Some true)) ∧
  (∃ f', Stack.backtrack 4 (cnf 3 [])
         = Stack.Raised Stack.RecursionError f').
Proof.
  assert (Forall (λ v, value v = None) (vars (cnf 3 []))) as Hall
    by (vm_compute; repeat constructor).
  split; [reflexivity |]. split; [exact Hall |]. split.
  - apply (backtrack_no_clauses_all_true 5 (cnf 3 []) eq_refl Hall).
    vm_compute. lia.
  - apply (backtrack_no_clauses_all_true 4 (cnf 3 []) eq_refl Hall).
    vm_compute. lia.
Defined.

(** C10, as stated, fails: the formula of the file [p cnf 1000 0], a
    thousand variables and no clause, every variable unassigned.  With the
    room a script has at its top level under the default limit, and with
    any smaller room, [backtrack] returns nothing: it raises
    [RecursionError]. *)
Lemma backtrack_no_clauses_recursion_error :
  clauses (cnf 1000 []) = [] ∧
  Forall (λ v, value v = None) (vars (cnf 1000 [])) ∧
  Forall (λ d, ∃ f', Stack.backtrack d (cnf 1000 [])
                     = Stack.Raised Stack.RecursionError f')
    (seq 0 (S Stack.at_top_level)).
Proof.
  split; [reflexivity |].
  change (vars (cnf 1000 [])) with (fresh_vars 1000).
  split; [apply fresh_vars_unassigned |].
  apply list.Forall_forall. intros d [_ Hd]%elem_of_seq.
  apply Stack_backtrack_no_clauses_short; [done |].
  change (vars (cnf 1000 [])) with (fresh_vars 1000).
  rewrite (unassigned_all _ (fresh_vars_unassigned 1000)), length_fresh_vars.
  unfold Stack.at_top_level in Hd. lia.
Qed.

(** * Further properties of the code *)

(** ** [backtrack] as a decision procedure *)

Lemma backtrack_success_model f r f' :
  backtrack f = Some (Some r, f') →
  agrees (assignment_of r) (vars f) ∧
  ∀ c, c ∈ clauses f → models (assignment_of r) c.
Proof.
  intros H. pose proof (backtrack_fuel_success _ _ _ _ H) as Hsolved. split.
  - intros j b Hj. unfold assignment_of.
    rewrite (solved_alias _ _ _ Hsolved).
    by rewrite (backtrack_fuel_keeps _ _ _ _ _ _ H Hj).
  - intros c Hc. by eapply solved_models.
Qed.

(** X1: [backtrack] decides whether the partial assignment it is started on
    can be completed to a model of the formula.  Whatever the room on the
    stack, if it returns an assignment there is a total assignment that
    agrees with the variables already assigned and makes every clause true,
    and if it returns [None] there is none and the formula is as it was.
    With room for [n + 5] frames, for [n] the number of unassigned
    variables, it does return: an assignment when there is such a total
    assignment, [None] when there is none. *)
Theorem backtrack_decides f :
  in_range (length (vars f)) (clauses f) →
  (∀ d r f', Stack.backtrack d f = Stack.Returned (Some r) f' →
     ∃ A, agrees A (vars f) ∧ ∀ c, c ∈ clauses f → models A c) ∧
  (∀ d f', Stack.backtrack d f = Stack.Returned None f' →
     f' = f ∧ ¬ ∃ A, agrees A (vars f) ∧ ∀ c, c ∈ clauses f → models A c) ∧
  (∀ d, unassigned (vars f) + 5 ≤ d →
     (∃ A, agrees A (vars f) ∧ ∀ c, c ∈ clauses f → models A c) →
     ∃ r f', Stack.backtrack d f = Stack.Returned (Some r) f') ∧
  (∀ d, unassigned (vars f) + 5 ≤ d →
     (¬ ∃ A, agrees A (vars f) ∧ ∀ c, c ∈ clauses f → models A c) →
     Stack.backtrack d f = Stack.Returned None f).
Proof.
  intros Hr.
  assert (∀ r f', backtrack f = Some (Some r, f') →
            ∃ A, agrees A (vars f) ∧ ∀ c, c ∈ clauses f → models A c)
    as Hsound.
  { intros r f' H. exists (assignment_of r).
    by apply (backtrack_success_model f r f'). }
  assert ((∃ A, agrees A (vars f) ∧ ∀ c, c ∈ clauses f → models A c) →
          ∃ r f', backtrack f = Some (Some r, f')) as Hcomplete.
  { intros (A & Hag & Hmod).
    apply (backtrack_fuel_complete A); [lia | done]. }
  split_and!.
  - intros d r f' H%Stack_backtrack_returned. by eapply Hsound.
  - intros d f' H%Stack_backtrack_returned.
    pose proof (backtrack_fuel_fail _ _ _ H) as ->. split; [done |].
    intros (r & g & H')%Hcomplete. congruence.
  - intros d Hd (r & f' & H)%Hcomplete. exists r, f'.
    apply Stack_backtrack_enough; [lia | done].
  - intros d Hd Hno. destruct (backtrack_total f) as [[[r|] f'] H].
    + destruct Hno. by eapply Hsound.
    + pose proof (backtrack_fuel_fail _ _ _ H) as ->.
      apply Stack_backtrack_enough; [lia | done].
Qed.

Lemma backtrack_decides_witness :
  in_range (length (vars scenario4)) (clauses scenario4) ∧
  (∀ d r f', Stack.backtrack d scenario4 = Stack.Returned (Some r) f' →
     ∃ A, agrees A (vars scenario4) ∧
          ∀ c, c ∈ clauses scenario4 → models A c) ∧
  (∀ d f', Stack.backtrack d scenario4 = Stack.Returned None f' →
     f' = scenario4 ∧
     ¬ ∃ A, agrees A (vars scenario4) ∧
            ∀ c, c ∈ clauses scenario4 → models A c) ∧
  (∀ d, unassigned (vars scenario4) + 5 ≤ d →
     (∃ A, agrees A (vars scenario4) ∧
           ∀ c, c ∈ clauses scenario4 → models A c) →
     ∃ r f', Stack.backtrack d scenario4 = Stack.Returned (Some r) f') ∧
  (∀ d, unassigned (vars scenario4) + 5 ≤ d →
     (¬ ∃ A, agrees A (vars scenario4) ∧
             ∀ c, c ∈ clauses scenario4 → models A c) →
     Stack.backtrack d scenario4 = Stack.Returned None scenario4).
Proof.
  pose proof (wf_formula_in_range scenario4 eq_refl) as Hr.
  split; [exact Hr |]. exact (backtrack_decides scenario4 Hr).
Defined.

(** X2: a successful [backtrack] changes no variable that was assigned when
    it was called: the assignment returned extends the partial assignment
    the search started from. *)
Theorem backtrack_extends f r f' :
  backtrack f = Some (Some r, f') →
  extends_store (vars f) r ∧ length r = length (vars f).
Proof.
  intros H. pose proof (backtrack_fuel_success _ _ _ _ H) as Hsolved.
  rewrite (solved_alias _ _ _ Hsolved). split.
  - intros j b Hj. by apply (backtrack_fuel_keeps _ _ _ _ _ _ H).
  - pose proof (solved_names _ _ _ Hsolved) as Hn.
    apply (f_equal length) in Hn. by rewrite !length_fmap in Hn.
Qed.

Lemma backtrack_extends_witness :
  ∃ r f', backtrack (assign 1 (Some true) scenario4) = Some (Some r, f') ∧
    extends_store (vars (assign 1 (Some true) scenario4)) r ∧
    length r = length (vars (assign 1 (Some true) scenario4)).
Proof.
  eexists _, _. split; [vm_compute; reflexivity |].
  eapply (backtrack_extends (assign 1 (Some true) scenario4)).
  vm_compute. reflexivity.
Defined.

(** ** The order of the search *)

Lemma first_unassigned_before vs i j :
  first_unassigned vs = Some i → j < i → ∃ b, var_value vs j = Some b.
Proof.
  unfold first_unassigned. intros H Hlt.
  destruct (list_find _ vs) as [[i' v]|] eqn:Hf; simplify_eq/=.
  apply list_find_Some in Hf as (Hi & _ & Hmin).
  apply lookup_lt_Some in Hi.
  destruct (lookup_lt_is_Some_2 vs j) as [w Hw]; [lia |].
  specialize (Hmin j w Hw Hlt). unfold var_value. rewrite Hw. simpl.
  destruct (value w) as [b|]; [eauto | done].
Qed.

Lemma backtrack_fuel_no_model A fuel f f' :
  backtrack_fuel fuel f = Some (None, f') → completable A f → False.
Proof.
  intros H%backtrack_fuel_enough Hcomp.
  destruct (backtrack_fuel_complete A (S (unassigned (vars f))) f)
    as (r & f'' & H'); [lia | done |].
  unfold backtrack in H. congruence.
Qed.

(** The assignment found comes no later in the order of the search than any
    model that extends the starting assignment. *)
Lemma backtrack_fuel_first A fuel f r f' :
  in_range (length (vars f)) (clauses f) →
  backtrack_fuel fuel f = Some (Some r, f') →
  agrees A (vars f) → (∀ c, c ∈ clauses f → models A c) →
  precedes (length (vars f)) (assignment_of r) A.
Proof.
  revert f r f'. induction fuel as [|fuel IH]; intros f r f' Hr; [done |].
  rewrite backtrack_fuel_S.
  destruct (first_unassigned (vars f)) as [i|] eqn:Hi.
  - intros Hrun Hag Hmod.
    destruct (first_unassigned_Some _ _ Hi) as (v & Hv & Hnone).
    assert (completable A (assign i (Some (A i)) f)) as Hcomp
      by (by apply completable_assign).
    assert (∀ b r0 f0,
      backtrack_fuel fuel (assign i (Some b) f) = Some (Some r0, f0) →
      A i = b → precedes (length (vars f)) (assignment_of r0) A) as Hfound.
    { intros b r0 f0 Hb <-. destruct Hcomp as (Hr' & Hag' & Hmod').
      specialize (IH _ _ _ Hr' Hb Hag' Hmod').
      simpl in IH. by rewrite length_set_value in IH. }
    assert (∀ r0 f0,
      backtrack_fuel fuel (assign i (Some true) f) = Some (Some r0, f0) →
      A i = false → precedes (length (vars f)) (assignment_of r0) A) as Hskip.
    { intros r0 f0 Hb HA. right. exists i.
      pose proof (backtrack_fuel_success _ _ _ _ Hb) as Hsolved.
      pose proof (solved_alias _ _ _ Hsolved) as ->.
      split; [by eapply lookup_lt_Some |]. split_and!; [| | done].
      - intros k Hk.
        destruct (first_unassigned_before _ _ _ Hi Hk) as [b Hb'].
        rewrite (Hag _ _ Hb'). unfold assignment_of.
        rewrite (backtrack_fuel_keeps _ _ _ _ k b Hb); [done |].
        simpl. rewrite var_value_set_value_ne by lia. done.
      - unfold assignment_of.
        rewrite (backtrack_fuel_keeps _ _ _ _ i true Hb); [done |].
        simpl. apply var_value_set_value_eq. by eapply lookup_lt_Some. }
    assert (∀ r0 f0,
      for_value (backtrack_fuel fuel) i [false] (assign i (Some true) f)
        = Some (Some r0, f0) →
      A i = false → precedes (length (vars f)) (assignment_of r0) A) as Hsecond.
    { intros r0 f0. simpl. rewrite !assign_assign.
      destruct (Formula.unsat (assign i (Some false) f)); simpl; [done |].
      destruct (backtrack_fuel fuel (assign i (Some false) f))
        as [[[r1|] f1]|] eqn:Hb; try done.
      intros [= -> ->] HA. by eapply Hfound. }
    revert Hrun. cbn [for_value]. cbv zeta.
    destruct (Formula.unsat (assign i (Some true) f)) eqn:Hu; cbn [negb].
    + intros Hrun. apply (Hsecond _ _ Hrun).
      destruct (A i) eqn:HA; [| done].
      destruct Hcomp as (_ & Hag' & Hmod').
      by rewrite (not_pruned A _ Hag' Hmod') in Hu.
    + destruct (backtrack_fuel fuel (assign i (Some true) f))
        as [[[r1|] f1]|] eqn:Hb; [| | done].
      * intros [= -> ->]. destruct (A i) eqn:HA; [by eapply Hfound |].
        by eapply Hskip.
      * pose proof (backtrack_fuel_fail _ _ _ Hb) as ->.
        intros Hrun. apply (Hsecond _ _ Hrun).
        destruct (A i) eqn:HA; [| done].
        destruct (backtrack_fuel_no_model A _ _ _ Hb Hcomp).
  - destruct (Formula.sat f); [| done]. intros [= <- <-] Hag _. left.
    intros j Hj. apply first_unassigned_None in Hi.
    destruct (lookup_lt_is_Some_2 (vars f) j Hj) as [w Hw].
    rewrite list.Forall_forall in Hi.
    pose proof (Hi w (list_elem_of_lookup_2 _ _ _ Hw)) as Hne.
    unfold assignment_of.
    assert (var_value (vars f) j = value w) as Hval
      by (unfold var_value; by rewrite Hw).
    destruct (value w) as [b|] eqn:Hb; [| done].
    rewrite Hval. simpl. symmetry. by apply Hag.
Qed.

(** X3: among the models that extend the starting assignment, [backtrack]
    returns the first one in the order of its search (variables in index
    order, [True] before [False]): any other such model agrees with it up to
    some variable, where the returned assignment has [True] and the other
    [False]. *)
Theorem backtrack_first_model f r f' :
  in_range (length (vars f)) (clauses f) →
  backtrack f = Some (Some r, f') →
  (∀ c, c ∈ clauses f → models (assignment_of r) c) ∧
  ∀ A, agrees A (vars f) → (∀ c, c ∈ clauses f → models A c) →
       precedes (length (vars f)) (assignment_of r) A.
Proof.
  intros Hr H. split.
  - by apply (backtrack_success_model f r f').
  - intros A Hag Hmod. by eapply backtrack_fuel_first.
Qed.

Lemma backtrack_first_model_witness :
  in_range (length (vars scenario4)) (clauses scenario4) ∧
  ∃ r f', backtrack scenario4 = Some (Some r, f') ∧
    (∀ c, c ∈ clauses scenario4 → models (assignment_of r) c) ∧
    ∀ A, agrees A (vars scenario4) →
         (∀ c, c ∈ clauses scenario4 → models A c) →
         precedes (length (vars scenario4)) (assignment_of r) A.
Proof.
  pose proof (wf_formula_in_range scenario4 eq_refl) as Hr.
  split; [exact Hr |]. eexists _, _. split; [vm_compute; reflexivity |].
  eapply (backtrack_first_model scenario4); [exact Hr |].
  vm_compute. reflexivity.
Defined.

(** ** The two tests of a formula *)

Lemma Clause_sat_stable vs vs' c :
  extends_store vs vs' → Clause.sat vs c = true → Clause.sat vs' c = true.
Proof.
  intros Hext. rewrite !Clause_sat_spec. apply Exists_impl.
  intros l Hl. by apply Hext.
Qed.

Lemma Clause_unsat_stable vs vs' c :
  extends_store vs vs' → Clause.unsat vs c = true → Clause.unsat vs' c = true.
Proof.
  intros Hext. rewrite !Clause_unsat_spec. apply Forall_impl.
  intros l (b & Hb & Hne). exists b. split; [by apply Hext | done].
Qed.

Lemma Clause_unsat_not_sat vs c :
  Clause.unsat vs c = true → Clause.sat vs c = true → False.
Proof.
  rewrite Clause_unsat_spec, Clause_sat_spec, list.Forall_forall.
  intros Hu (l & Hl & Hs)%list.Exists_exists.
  destruct (Hu l Hl) as (b & Hb & Hne). congruence.
Qed.

Lemma Formula_unsat_not_sat f :
  Formula.unsat f = true → Formula.sat f = false.
Proof.
  intros Hu. apply not_true_is_false. intros Hs.
  apply Formula_unsat_spec, list.Exists_exists in Hu as (c & Hc & Hcu).
  apply Formula_sat_spec in Hs. rewrite list.Forall_forall in Hs.
  by eapply Clause_unsat_not_sat, Hs.
Qed.

(** X4: pruning is safe.  Once a clause is falsified it stays falsified
    however the remaining variables are assigned: if [f.unsat()] holds and
    more variables get a value (none of the assigned ones changing), then
    [f.unsat()] still holds and [f.sat()] does not; and a formula that is
    satisfied stays satisfied. *)
Theorem falsified_stays_falsified f f' :
  clauses f' = clauses f → extends_store (vars f) (vars f') →
  (Formula.unsat f = true →
   Formula.unsat f' = true ∧ Formula.sat f' = false) ∧
  (Formula.sat f = true → Formula.sat f' = true).
Proof.
  intros Hc Hext. split.
  - intros Hu.
    assert (Formula.unsat f' = true) as Hu'.
    { apply Formula_unsat_spec. rewrite Hc.
      apply Formula_unsat_spec in Hu. revert Hu. apply Exists_impl.
      intros c. by apply Clause_unsat_stable. }
    split; [done | by apply Formula_unsat_not_sat].
  - intros Hs. apply Formula_sat_spec. rewrite Hc.
    apply Formula_sat_spec in Hs. revert Hs. apply Forall_impl.
    intros c. by apply Clause_sat_stable.
Qed.

Lemma falsified_stays_falsified_witness :
  clauses (assign 2 (Some true) first_clause_falsified)
    = clauses first_clause_falsified ∧
  extends_store (vars first_clause_falsified)
    (vars (assign 2 (Some true) first_clause_falsified)) ∧
  Formula.unsat first_clause_falsified = true ∧
  (Formula.unsat first_clause_falsified = true →
   Formula.unsat (assign 2 (Some true) first_clause_falsified) = true ∧
   Formula.sat (assign 2 (Some true) first_clause_falsified) = false) ∧
  (Formula.sat first_clause_falsified = true →
   Formula.sat (assign 2 (Some true) first_clause_falsified) = true).
Proof.
  assert (extends_store (vars first_clause_falsified)
            (vars (assign 2 (Some true) first_clause_falsified))) as Hext.
  { intros [|[|[|j]]] b; vm_compute; congruence. }
  split; [reflexivity |]. split; [exact Hext |]. split; [reflexivity |].
  exact (falsified_stays_falsified first_clause_falsified
           (assign 2 (Some true) first_clause_falsified) eq_refl Hext).
Defined.

Lemma Clause_unsat_complete vs c :
  Forall (λ l, var_value vs (var l) ≠ None) (lits c) →
  Clause.unsat vs c = negb (Clause.sat vs c).
Proof.
  unfold Clause.unsat, Clause.sat.
  induction 1 as [|l ls Hl _ IH]; simpl; [done |].
  unfold Lit.unsat at 1. unfold py_eq at 1.
  rewrite bool_decide_eq_false_2 by done. simpl.
  destruct (Lit.sat vs l); simpl; [done | exact IH].
Qed.

(** X5: on a complete assignment the two tests are complementary: when every
    variable is assigned (and every literal refers to a variable of the
    formula), [f.unsat()] is true exactly when [f.sat()] is false.  In
    general they are never both true. *)
Theorem unsat_negates_sat_when_complete f :
  in_range (length (vars f)) (clauses f) →
  first_unassigned (vars f) = None →
  Formula.unsat f = negb (Formula.sat f).
Proof.
  intros Hr Hall%first_unassigned_None.
  unfold Formula.unsat, Formula.sat.
  assert (Forall (λ c, Clause.unsat (vars f) c = negb (Clause.sat (vars f) c))
            (clauses f)) as Hcs.
  { apply list.Forall_forall. intros c Hc. apply Clause_unsat_complete.
    apply list.Forall_forall. intros l Hl.
    destruct (lookup_lt_is_Some_2 (vars f) (var l) (Hr c l Hc Hl)) as [v Hv].
    unfold var_value. rewrite Hv. simpl.
    rewrite list.Forall_forall in Hall.
    by apply Hall, (list_elem_of_lookup_2 _ (var l)). }
  clear Hr. induction Hcs as [|c cs Hc _ IH]; simpl; [done |].
  rewrite Hc. destruct (Clause.sat (vars f) c); simpl; [exact IH | done].
Qed.

Lemma unsat_negates_sat_when_complete_witness :
  in_range
    (length (vars (assign 1 (Some true) (assign 0 (Some true) scenario4))))
    (clauses (assign 1 (Some true) (assign 0 (Some true) scenario4))) ∧
  first_unassigned
    (vars (assign 1 (Some true) (assign 0 (Some true) scenario4))) = None ∧
  Formula.unsat (assign 1 (Some true) (assign 0 (Some true) scenario4))
  = negb (Formula.sat (assign 1 (Some true) (assign 0 (Some true) scenario4))).
Proof.
  pose proof (wf_formula_in_range
                (assign 1 (Some true) (assign 0 (Some true) scenario4))
                eq_refl) as Hr.
  split; [exact Hr |]. split; [reflexivity |].
  exact (unsat_negates_sat_when_complete _ Hr eq_refl).
Defined.

(** ** [dpll]: what it returns and what it leaves *)

Lemma names_from_intro k vs :
  (∀ i v, vs !! i = Some v → name v = (Z.of_nat (k + i) + 1)%Z) →
  names_from k vs = true.
Proof.
  revert k. induction vs as [|w vs IH]; intros k Hn; simpl; [done |].
  apply andb_true_iff. split.
  - apply bool_decide_eq_true. rewrite (Hn 0 w eq_refl). f_equal. lia.
  - apply IH. intros i v Hi. rewrite (Hn (S i) v Hi). f_equal. lia.
Qed.

Lemma wf_formula_intro f :
  names_ok (vars f) → in_range (length (vars f)) (clauses f) →
  wf_formula f = true.
Proof.
  intros Hok Hr. unfold wf_formula. apply andb_true_iff. split.
  - apply names_from_intro. intros i v Hi. by rewrite (Hok i v Hi).
  - apply forallb_forall. intros c Hc%list_elem_of_In.
    apply forallb_forall. intros l Hl%list_elem_of_In.
    apply bool_decide_eq_true. by apply (Hr c l).
Qed.

Lemma names_ok_names vs vs' :
  names_ok vs → names_ok vs' → length vs' = length vs →
  name <$> vs' = name <$> vs.
Proof.
  intros Hok Hok' Hlen. apply list_eq. intros i. rewrite !list_lookup_fmap.
  destruct (vs !! i) as [v|] eqn:Hv.
  - destruct (lookup_lt_is_Some_2 vs' i) as [v' Hv'].
    { rewrite Hlen. by eapply lookup_lt_Some. }
    rewrite Hv'. simpl. by rewrite (Hok _ _ Hv), (Hok' _ _ Hv').
  - apply lookup_ge_None in Hv. rewrite <- Hlen in Hv.
    apply lookup_ge_None in Hv. by rewrite Hv.
Qed.

Lemma names_ok_of_names vs vs' :
  name <$> vs' = name <$> vs → names_ok vs → names_ok vs'.
Proof.
  intros Hn Hok i v' Hi.
  assert ((name <$> vs') !! i = Some (name v')) as Hi'
    by (by rewrite list_lookup_fmap, Hi).
  rewrite Hn, list_lookup_fmap in Hi'.
  destruct (vs !! i) as [v|] eqn:Hv; [| done].
  injection Hi' as <-. by apply Hok.
Qed.

Lemma in_range_filter n (P : Clause → Prop) `{!∀ c, Decision (P c)} cs :
  in_range n cs → in_range n (filter P cs).
Proof. intros Hr c l [_ Hc]%list_elem_of_filter. by apply Hr. Qed.

Lemma prepass_conflict_clauses f g :
  prepass f = Conflict g → clauses g = clauses f.
Proof.
  unfold prepass. destruct (unit_scan _ _ _); try done. by intros [= <-].
Qed.

(** ** [dpll] on a bounded stack *)

Lemma Stack_unit_scan_cons d k c cs vs ucs :
  Stack.unit_scan d ((k, c) :: cs) vs ucs =
  match Stack.Clause_len d c with
  | None => Stack.ScanRaised Stack.RecursionError vs
  | Some n =>
      if bool_decide (n = 1) then
        match lits c with
        | [] => Stack.ScanRaised Stack.IndexError vs
        | lit :: _ =>
            match lit_index vs lit with
            | None => Stack.ScanRaised Stack.IndexError vs
            | Some j =>
                if truthy (var_value vs j)
                   && negb (py_eq (var_value vs j) (Some (sign lit)))
                then Stack.ScanConflict vs
                else Stack.unit_scan d cs (set_value j (Some (sign lit)) vs)
                       (ucs ++ [k])
            end
        end
      else Stack.unit_scan d cs vs ucs
  end.
Proof. done. Qed.

(** With room for [len(c)] the loop runs as [unit_scan]. *)
Lemma Stack_unit_scan_room d cs vs ucs :
  match Stack.unit_scan (S d) cs vs ucs with
  | Stack.ScanRaised e _ =>
      e = Stack.IndexError ∧ unit_scan cs vs ucs = ScanRaise
  | Stack.ScanConflict vs' => unit_scan cs vs ucs = ScanConflict vs'
  | Stack.ScanDone vs' ucs' => unit_scan cs vs ucs = ScanDone vs' ucs'
  end.
Proof.
  revert vs ucs. induction cs as [|[k c] cs IH]; intros vs ucs; [done |].
  rewrite Stack_unit_scan_cons, unit_scan_cons. cbn [Stack.Clause_len].
  unfold Clause.len. case_bool_decide; [| apply IH].
  destruct (lits c) as [|lit ?]; [done |].
  destruct (lit_index vs lit) as [j|]; [| done].
  destruct (truthy _ && _); [done | apply IH].
Qed.

(** With none it stops at the first clause. *)
Lemma Stack_unit_scan_0 cs vs ucs :
  Stack.unit_scan 0 cs vs ucs =
  match cs with
  | [] => Stack.ScanDone vs ucs
  | _ :: _ => Stack.ScanRaised Stack.RecursionError vs
  end.
Proof. by destruct cs as [|[k c] cs]. Qed.

Lemma Stack_dpll_S d f :
  Stack.dpll (S d) f =
  match Stack.unit_scan d (enumerate (clauses f)) (vars f) [] with
  | Stack.ScanRaised e vs => Stack.Raised e (mkFormula vs (clauses f))
  | Stack.ScanConflict vs => Stack.Returned None (mkFormula vs (clauses f))
  | Stack.ScanDone vs unit_clauses =>
      Stack.backtrack d
        (mkFormula vs (not_in_units unit_clauses (enumerate (clauses f))))
  end.
Proof. done. Qed.

(** A call with room for no call of its own raises [RecursionError] and
    leaves the formula as it was. *)
Lemma Stack_dpll_short d f :
  d ≤ 1 → Stack.dpll d f = Stack.Raised Stack.RecursionError f.
Proof.
  intros Hd. destruct d as [|[|d]]; [done | | lia].
  rewrite Stack_dpll_S, Stack_unit_scan_0. destruct f as [vs [|c cs]]; done.
Qed.

(** A call with room for the calls of its pre-pass goes as [prepass] says. *)
Lemma Stack_dpll_room d f :
  match prepass f with
  | IndexError =>
      ∃ vs, Stack.dpll (S (S d)) f
            = Stack.Raised Stack.IndexError (mkFormula vs (clauses f))
  | Conflict g => Stack.dpll (S (S d)) f = Stack.Returned None g
  | Delegate g => Stack.dpll (S (S d)) f = Stack.backtrack (S d) g
  end.
Proof.
  rewrite Stack_dpll_S. unfold prepass.
  pose proof (Stack_unit_scan_room d (enumerate (clauses f)) (vars f) [])
    as Hscan.
  destruct (Stack.unit_scan (S d) _ _ _) as [e vs|vs|vs ucs].
  - destruct Hscan as [-> ->]. by exists vs.
  - by rewrite Hscan.
  - by rewrite Hscan.
Qed.

(** A call that returns returns what [dpll] gives. *)
Lemma Stack_dpll_returned d f r f' :
  Stack.dpll d f = Stack.Returned r f' → dpll f = Some (Return r f').
Proof.
  destruct d as [|[|d]]; [by rewrite Stack_dpll_short by lia .. |].
  pose proof (Stack_dpll_room d f) as Hroom. unfold dpll.
  destruct (prepass f) as [|g|g].
  - destruct Hroom as [vs ->]. done.
  - rewrite Hroom. by intros [= <- <-].
  - rewrite Hroom. intros Hb. by rewrite (Stack_backtrack_returned _ _ _ _ Hb).
Qed.

Lemma unassigned_set_value_le i b vs :
  unassigned (set_value i (Some b) vs) ≤ unassigned vs.
Proof.
  unfold unassigned, set_value. revert i.
  induction vs as [|w vs IH]; intros i; [done |].
  destruct i as [|i]; simpl.
  - rewrite !filter_cons. simpl. repeat case_decide; simpl; try done; lia.
  - rewrite !filter_cons. specialize (IH i).
    destruct (decide (value w = None)); simpl; [| exact IH].
    apply le_n_S, IH.
Qed.

(** The pre-pass assigns and never unassigns. *)
Lemma unit_scan_unassigned cs vs ucs vs' ucs' :
  unit_scan cs vs ucs = ScanDone vs' ucs' → unassigned vs' ≤ unassigned vs.
Proof.
  revert vs ucs. induction cs as [|[k c] cs IH]; intros vs ucs.
  - simpl. by intros [= <- _].
  - rewrite unit_scan_cons. case_bool_decide; [| apply IH].
    destruct (lits c) as [|lit ?]; [done |].
    destruct (lit_index vs lit) as [j|]; [| done].
    destruct (truthy _ && _); [done |].
    intros Hs%IH. pose proof (unassigned_set_value_le j (sign lit) vs). lia.
Qed.

Lemma prepass_unassigned f g :
  prepass f = Delegate g → unassigned (vars g) ≤ unassigned (vars f).
Proof.
  unfold prepass.
  destruct (unit_scan _ _ _) as [|vs|vs ucs] eqn:Hscan; [done | done |].
  intros [= <-]. simpl. by eapply unit_scan_unassigned.
Qed.

(** With room for the search, the call ends as [dpll] says. *)
Lemma Stack_dpll_enough d f r f' :
  unassigned (vars f) + 5 ≤ d → dpll f = Some (Return r f') →
  Stack.dpll d f = Stack.Returned r f'.
Proof.
  intros Hd. destruct d as [|[|d]]; [lia | lia |].
  pose proof (Stack_dpll_room d f) as Hroom. unfold dpll.
  destruct (prepass f) as [|g|g] eqn:Hpre; [done | |].
  - rewrite Hroom. by intros [= <- <-].
  - rewrite Hroom. destruct (backtrack g) as [[r0 g']|] eqn:Hb; [| done].
    intros [= <- <-]. apply Stack_backtrack_enough; [| done].
    pose proof (prepass_unassigned f g Hpre). lia.
Qed.

(** A formula with a unit clause on a short stack: with room for eight
    frames [dpll] returns [None] once the search is exhausted, leaving the
    forced variable assigned; with room for three it raises
    [RecursionError] from the search. *)
Example Stack_dpll_forced_then_exhausted :
  Stack.dpll 8 forced_then_exhausted =
    Stack.Returned None
      (mkFormula [mkVar 1 (Some true); mkVar 2 None]
         [mkClause [mkLit 0 false; mkLit 1 true];
          mkClause [mkLit 0 false; mkLit 1 false]]) ∧
  ∃ f', Stack.dpll 3 forced_then_exhausted
        = Stack.Raised Stack.RecursionError f'.
Proof. split; [by vm_compute | eexists; by vm_compute]. Qed.

(** On a well-formed formula [dpll] raises no [IndexError], and no
    [RecursionError] either when there is room for the search. *)
Lemma Stack_dpll_raised d f e f' :
  wf_formula f = true → Stack.dpll d f = Stack.Raised e f' →
  e = Stack.RecursionError ∧ d < unassigned (vars f) + 5.
Proof.
  intros Hwf H.
  assert (e = Stack.RecursionError) as ->.
  { destruct d as [|[|d]];
      [rewrite Stack_dpll_short in H by lia; by injection H as <- _ .. |].
    pose proof (Stack_dpll_room d f) as Hroom.
    destruct (dpll_returns f Hwf) as (r & g' & Hd). unfold dpll in Hd.
    destruct (prepass f) as [|g|g]; [done | congruence |].
    rewrite Hroom in H. by apply Stack_backtrack_raised in H as [-> _]. }
  split; [done |].
  destruct (decide (d < unassigned (vars f) + 5)) as [| Hd]; [done |].
  destruct (dpll_returns f Hwf) as (r & g' & Hr).
  rewrite (Stack_dpll_enough d f r g') in H; [done | lia | done].
Qed.

Lemma Stack_dpll_room_returns d f :
  wf_formula f = true → unassigned (vars f) + 5 ≤ d →
  ∃ r f', Stack.dpll d f = Stack.Returned r f'.
Proof.
  intros Hwf Hd. destruct (dpll_returns f Hwf) as (r & f' & Hr).
  exists r, f'. by apply Stack_dpll_enough.
Qed.

(** Whatever its outcome, [dpll] leaves a well-formed formula well-formed,
    with its variables under their names and its clauses, or its clauses
    without those of length 1. *)
Lemma Stack_dpll_shape d f :
  wf_formula f = true →
  wf_formula (Stack.formula_of (Stack.dpll d f)) = true ∧
  name <$> vars (Stack.formula_of (Stack.dpll d f)) = name <$> vars f ∧
  (clauses (Stack.formula_of (Stack.dpll d f)) = clauses f ∨
   clauses (Stack.formula_of (Stack.dpll d f))
   = filter (λ c, Clause.len c ≠ 1) (clauses f)).
Proof.
  intros Hwf.
  destruct d as [|[|d]];
    [rewrite Stack_dpll_short by lia; simpl; by eauto .. |].
  pose proof (wf_formula_names_ok f Hwf) as Hok.
  pose proof (wf_formula_in_range f Hwf) as Hr.
  pose proof (Stack_dpll_room d f) as Hroom.
  destruct (dpll_returns f Hwf) as (r & g' & Hd). unfold dpll in Hd.
  destruct (prepass f) as [|g|g] eqn:Hpre; [done | |].
  - rewrite Hroom. simpl.
    destruct (prepass_frame f g Hok (or_introl Hpre)) as (Hok' & Hlen & _).
    pose proof (prepass_conflict_clauses f g Hpre) as Hcs.
    split_and!; [| by apply names_ok_names | by left].
    apply wf_formula_intro; [done |]. by rewrite Hcs, Hlen.
  - rewrite Hroom.
    destruct (prepass_frame f g Hok (or_intror Hpre)) as (Hok' & Hlen & _).
    pose proof (prepass_delegate_clauses f g Hpre) as Hcs.
    destruct (Stack_backtrack_shape (S d) g) as [Hcs' Hn'].
    assert (name <$> vars (Stack.formula_of (Stack.backtrack (S d) g))
            = name <$> vars f) as Hn
      by (rewrite Hn'; by apply names_ok_names).
    split_and!; [| done | right; congruence].
    apply wf_formula_intro.
    + by apply (names_ok_of_names (vars f)).
    + rewrite Hcs', Hcs.
      apply (f_equal length) in Hn. rewrite !length_fmap in Hn.
      rewrite Hn. by apply in_range_filter.
Qed.

(** ** What [dpll] leaves *)

(** X6: on a well-formed formula [dpll] raises no [IndexError], and no
    [RecursionError] either when the stack has room for [n + 6] frames, for
    [n] the number of unassigned variables.  Whatever its outcome, the
    formula it leaves is well-formed again, with the same variables: its
    clauses are the original ones, or the original ones without those of
    length 1. *)
Theorem dpll_keeps_well_formed d f :
  wf_formula f = true →
  (∀ e f', Stack.dpll d f = Stack.Raised e f' →
     e = Stack.RecursionError ∧ d < unassigned (vars f) + 6) ∧
  wf_formula (Stack.formula_of (Stack.dpll d f)) = true ∧
  name <$> vars (Stack.formula_of (Stack.dpll d f)) = name <$> vars f ∧
  (clauses (Stack.formula_of (Stack.dpll d f)) = clauses f ∨
   clauses (Stack.formula_of (Stack.dpll d f))
   = filter (λ c, Clause.len c ≠ 1) (clauses f)).
Proof.
  intros Hwf. split.
  - intros e f' [-> Hd]%Stack_dpll_raised; [| done]. split; [done | lia].
  - by apply Stack_dpll_shape.
Qed.

Lemma dpll_keeps_well_formed_witness :
  wf_formula forced_then_exhausted = true ∧
  (∀ e f', Stack.dpll 8 forced_then_exhausted = Stack.Raised e f' →
     e = Stack.RecursionError ∧
     8 < unassigned (vars forced_then_exhausted) + 6) ∧
  wf_formula (Stack.formula_of (Stack.dpll 8 forced_then_exhausted)) = true ∧
  name <$> vars (Stack.formula_of (Stack.dpll 8 forced_then_exhausted))
  = name <$> vars forced_then_exhausted ∧
  (clauses (Stack.formula_of (Stack.dpll 8 forced_then_exhausted))
   = clauses forced_then_exhausted ∨
   clauses (Stack.formula_of (Stack.dpll 8 forced_then_exhausted))
   = filter (λ c, Clause.len c ≠ 1) (clauses forced_then_exhausted)).
Proof.
  split; [reflexivity |].
  exact (dpll_keeps_well_formed 8 forced_then_exhausted eq_refl).
Defined.

(** X7: [dpll] never reports a satisfiable formula as unsatisfiable: if it
    returns [None] on a well-formed formula, no total assignment that agrees
    with the variables already assigned makes every clause true. *)
Theorem dpll_none_unsatisfiable f f' :
  wf_formula f = true → dpll f = Some (Return None f') →
  ¬ ∃ A, agrees A (vars f) ∧ ∀ c, c ∈ clauses f → models A c.
Proof.
  intros Hwf Hd (A & Hag & Hmod).
  destruct (dpll_complete A f Hwf Hag Hmod) as (r & f'' & Hd').
  congruence.
Qed.

Lemma dpll_none_unsatisfiable_witness :
  wf_formula forced_then_exhausted = true ∧
  ∃ f', dpll forced_then_exhausted = Some (Return None f') ∧
    ¬ ∃ A, agrees A (vars forced_then_exhausted) ∧
           ∀ c, c ∈ clauses forced_then_exhausted → models A c.
Proof.
  split; [reflexivity |]. eexists. split; [vm_compute; reflexivity |].
  eapply (dpll_none_unsatisfiable forced_then_exhausted); [reflexivity |].
  vm_compute. reflexivity.
Defined.

(** X8: what an assignment returned by [dpll] is worth.  On a well-formed
    formula the list returned is the formula's list of variables, every
    variable is assigned, the formula has lost exactly its clauses of length
    1, and every clause of another length is true under the assignment.  The
    unit clauses are true under it as well when no variable has unit clauses
    of both polarities. *)
Theorem dpll_answer f r f' :
  wf_formula f = true → dpll f = Some (Return (Some r) f') →
  r = vars f' ∧ Forall (λ v, value v ≠ None) r ∧
  clauses f' = filter (λ c, Clause.len c ≠ 1) (clauses f) ∧
  (∀ c, c ∈ clauses f → Clause.len c ≠ 1 → models (assignment_of r) c) ∧
  (units_consistent (clauses f) →
   ∀ c, c ∈ clauses f → models (assignment_of r) c).
Proof.
  intros Hwf. unfold dpll.
  destruct (prepass f) as [|g|g] eqn:Hpre; [done | done |].
  destruct (backtrack g) as [[r0 g']|] eqn:Hb; [| done].
  intros [= -> ->].
  pose proof (backtrack_fuel_success _ _ _ _ Hb) as Hsolved.
  destruct (prepass_delegate_state f g Hwf Hpre) as (Hcs & _ & Hunits).
  pose proof (solved_alias _ _ _ Hsolved) as Hr.
  assert (∀ c, c ∈ clauses f → Clause.len c ≠ 1 →
               models (assignment_of r) c) as Hlong.
  { intros c Hc Hlen. apply (solved_models g r f'); [done |].
    rewrite Hcs. by apply list_elem_of_filter. }
  split_and!; [done | | | done |].
  - rewrite Hr. apply first_unassigned_None. by destruct Hsolved.
  - by rewrite (solved_clauses _ _ _ Hsolved).
  - intros Hcons c Hc. destruct (unit_or_not c) as [[l Hl] | Hlen];
      [| by apply Hlong].
    exists l. split; [rewrite Hl; apply list_elem_of_here |].
    unfold assignment_of. rewrite Hr.
    rewrite (backtrack_fuel_keeps _ g _ f' (var l) (sign l) Hb); [done |].
    apply Hunits; [done |]. by exists c.
Qed.

Lemma dpll_answer_witness :
  wf_formula (cnf 3 [[1]; [-1; -2]; [2; 3]]%Z) = true ∧
  ∃ r f', dpll (cnf 3 [[1]; [-1; -2]; [2; 3]]%Z) = Some (Return (Some r) f') ∧
    r = vars f' ∧ Forall (λ v, value v ≠ None) r ∧
    clauses f' = filter (λ c, Clause.len c ≠ 1)
                   (clauses (cnf 3 [[1]; [-1; -2]; [2; 3]]%Z)) ∧
    (∀ c, c ∈ clauses (cnf 3 [[1]; [-1; -2]; [2; 3]]%Z) →
          Clause.len c ≠ 1 → models (assignment_of r) c) ∧
    (units_consistent (clauses (cnf 3 [[1]; [-1; -2]; [2; 3]]%Z)) →
     ∀ c, c ∈ clauses (cnf 3 [[1]; [-1; -2]; [2; 3]]%Z) →
          models (assignment_of r) c).
Proof.
  split; [reflexivity |]. eexists _, _. split; [vm_compute; reflexivity |].
  eapply (dpll_answer (cnf 3 [[1]; [-1; -2]; [2; 3]]%Z)); [reflexivity |].
  vm_compute. reflexivity.
Defined.

(** X9: the conflict [dpll] does detect.  On a well-formed formula in which
    a unit clause [{x}] comes before a unit clause [{-x}], [dpll] returns
    [None] from its pre-pass, before any clause is removed: the formula keeps
    all its clauses. *)
Theorem dpll_detects_true_then_false f cs1 cs2 x :
  wf_formula f = true →
  clauses f = cs1 ++ mkClause [mkLit x true] :: cs2 →
  mkClause [mkLit x false] ∈ cs2 →
  ∃ g, dpll f = Some (Return None g) ∧ clauses g = clauses f ∧
       name <$> vars g = name <$> vars f.
Proof.
  intros Hwf Hcs Hneg.
  destruct (dpll_conflict_pos_then_neg f cs1 cs2 x Hwf Hcs Hneg)
    as (g & Hpre & Hd).
  exists g. split; [done |]. split; [by apply prepass_conflict_clauses |].
  pose proof (wf_formula_names_ok f Hwf) as Hok.
  destruct (prepass_frame f g Hok (or_introl Hpre)) as (Hok' & Hlen & _).
  by apply names_ok_names.
Qed.

Lemma dpll_detects_true_then_false_witness :
  wf_formula scenario2 = true ∧
  clauses scenario2 = [] ++ mkClause [mkLit 0 true] :: [mkClause [mkLit 0 false]] ∧
  mkClause [mkLit 0 false] ∈ [mkClause [mkLit 0 false]] ∧
  ∃ g, dpll scenario2 = Some (Return None g) ∧
       clauses g = clauses scenario2 ∧
       name <$> vars g = name <$> vars scenario2.
Proof.
  split; [reflexivity |]. split; [reflexivity |].
  split; [apply list_elem_of_here |].
  exact (dpll_detects_true_then_false scenario2 []
           [mkClause [mkLit 0 false]] 0 eq_refl eq_refl
           (list_elem_of_here _ _)).
Defined.

(** X10: where the two searches agree.  On a well-formed formula with every
    variable unassigned in which no variable has unit clauses of both
    polarities, whenever [backtrack] and [dpll] both return, whatever the
    room each was called with, one returns an assignment exactly when the
    other does, and [None] exactly when the other does; and both return
    when the stack has room for [n + 6] frames, for [n] the number of
    variables. *)
Theorem searches_agree_consistent_units f :
  wf_formula f = true → Forall (λ v, value v = None) (vars f) →
  units_consistent (clauses f) →
  (∀ d1 d2 r1 f1 r2 f2,
     Stack.backtrack d1 f = Stack.Returned r1 f1 →
     Stack.dpll d2 f = Stack.Returned r2 f2 →
     (is_Some r1 ↔ is_Some r2) ∧ (r1 = None ↔ r2 = None)) ∧
  (∀ d, length (vars f) + 6 ≤ d →
     (∃ r1 f1, Stack.backtrack d f = Stack.Returned r1 f1) ∧
     (∃ r2 f2, Stack.dpll d f = Stack.Returned r2 f2)).
Proof.
  intros Hwf Hall Hcons. split.
  - intros d1 d2 r1 f1 r2 f2 Hb%Stack_backtrack_returned
      Hd%Stack_dpll_returned.
    destruct (backtrack_dpll_agree_consistent_units f Hwf Hall Hcons)
      as [Hbd Hdb].
    destruct r1 as [r1|], r2 as [r2|]; try done.
    + destruct Hbd as (r & g & H); [by eauto | congruence].
    + destruct Hdb as (r & g & H); [by eauto | congruence].
  - intros d Hd. pose proof (unassigned_all (vars f) Hall) as Hn. split.
    + apply Stack_backtrack_room. lia.
    + apply Stack_dpll_room_returns; [done | lia].
Qed.

Lemma searches_agree_consistent_units_witness :
  wf_formula (cnf 3 [[1]; [-1; -2]; [2; 3]]%Z) = true ∧
  Forall (λ v, value v = None) (vars (cnf 3 [[1]; [-1; -2]; [2; 3]]%Z)) ∧
  units_consistent (clauses (cnf 3 [[1]; [-1; -2]; [2; 3]]%Z)) ∧
  (∀ d1 d2 r1 f1 r2 f2,
     Stack.backtrack d1 (cnf 3 [[1]; [-1; -2]; [2; 3]]%Z)
       = Stack.Returned r1 f1 →
     Stack.dpll d2 (cnf 3 [[1]; [-1; -2]; [2; 3]]%Z) = Stack.Returned r2 f2 →
     (is_Some r1 ↔ is_Some r2) ∧ (r1 = None ↔ r2 = None)) ∧
  (∀ d, length (vars (cnf 3 [[1]; [-1; -2]; [2; 3]]%Z)) + 6 ≤ d →
     (∃ r1 f1, Stack.backtrack d (cnf 3 [[1]; [-1; -2]; [2; 3]]%Z)
               = Stack.Returned r1 f1) ∧
     (∃ r2 f2, Stack.dpll d (cnf 3 [[1]; [-1; -2]; [2; 3]]%Z)
               = Stack.Returned r2 f2)).
Proof.
  assert (Forall (λ v, value v = None)
            (vars (cnf 3 [[1]; [-1; -2]; [2; 3]]%Z))) as Hall
    by (vm_compute; repeat constructor).
  assert (units_consistent (clauses (cnf 3 [[1]; [-1; -2]; [2; 3]]%Z)))
    as Hcons.
  { assert (∀ l, unit_lit (clauses (cnf 3 [[1]; [-1; -2]; [2; 3]]%Z)) l →
                 l = mkLit 0 true) as Hunit.
    { intros l (c & Hc & Hl). vm_compute in Hc.
      repeat (apply elem_of_cons in Hc as [-> | Hc]); simpl in Hl;
        [congruence | done | done | by apply elem_of_nil in Hc]. }
    intros l1 l2 H1%Hunit H2%Hunit _. by subst. }
  split; [reflexivity |]. split; [exact Hall |]. split; [exact Hcons |].
  exact (searches_agree_consistent_units
           (cnf 3 [[1]; [-1; -2]; [2; 3]]%Z) eq_refl Hall Hcons).
Defined.

(** ** The two searches run one after the other on one formula *)

(** A scan over clauses that are all satisfied changes nothing. *)
Lemma unit_scan_satisfied cs vs ucs :
  names_ok vs → in_range (length vs) (snd <$> cs) →
  (∀ c, c ∈ snd <$> cs → Clause.sat vs c = true) →
  ∃ ucs', unit_scan cs vs ucs = ScanDone vs ucs'.
Proof.
  revert ucs. induction cs as [|[k c] cs IH]; intros ucs Hok Hr Hsat.
  { simpl. eauto. }
  rewrite fmap_cons in Hr, Hsat. simpl in Hr, Hsat.
  assert (∀ c', c' ∈ cs.*2 → Clause.sat vs c' = true) as Hsat'
    by (intros; by apply Hsat, list_elem_of_further).
  destruct (unit_or_not c) as [[lit Hlit] | Hlen].
  - assert (var_value vs (var lit) = Some (sign lit)) as Hval.
    { pose proof (Hsat c (list_elem_of_here _ _)) as Hc.
      apply Clause_sat_spec in Hc. rewrite Hlit in Hc.
      by apply Exists_cons in Hc as [? | ?%Exists_nil]. }
    rewrite (unit_scan_unit k c cs vs ucs lit); [| done | done |].
    2:{ apply (Hr c); [apply list_elem_of_here |].
        rewrite Hlit. apply list_elem_of_here. }
    rewrite Hval. unfold py_eq. rewrite bool_decide_eq_true_2 by done.
    rewrite andb_false_r.
    assert (set_value (var lit) (Some (sign lit)) vs = vs) as ->.
    { unfold var_value in Hval.
      destruct (vs !! var lit) as [v|] eqn:Hv; [| done].
      by apply (set_value_id _ _ _ v). }
    apply IH; [done | by eapply in_range_tail | done].
  - rewrite unit_scan_skip by done.
    apply IH; [done | by eapply in_range_tail | done].
Qed.

(** X11: the program runs [backtrack(f)] and then [dpll(f)] on the same
    formula object.  When the first search has returned an assignment, the
    second one, started on the formula the first has left, returns that same
    assignment without changing any variable, and removes the clauses of
    length 1; when the first search has returned [None], the second one
    starts on the formula exactly as the first one was given it. *)
Theorem dpll_after_backtrack f r1 f1 :
  wf_formula f = true → backtrack f = Some (r1, f1) →
  match r1 with
  | Some r =>
      dpll f1 = Some (Return (Some r)
                        (mkFormula r (filter (λ c, Clause.len c ≠ 1)
                                        (clauses f))))
  | None => f1 = f
  end.
Proof.
  intros Hwf Hb. destruct r1 as [r|]; [| by eapply backtrack_fuel_fail].
  pose proof (backtrack_fuel_success _ _ _ _ Hb) as [-> Hcs Hn Hsat Hall].
  pose proof (names_ok_of_names _ _ Hn (wf_formula_names_ok f Hwf)) as Hok.
  assert (in_range (length (vars f1)) (clauses f1)) as Hr.
  { rewrite Hcs. apply (f_equal length) in Hn. rewrite !length_fmap in Hn.
    rewrite Hn. by apply wf_formula_in_range. }
  apply Formula_sat_spec in Hsat as Hsat'.
  rewrite list.Forall_forall in Hsat'.
  destruct (unit_scan_satisfied (enumerate (clauses f1)) (vars f1) [])
    as [ucs Hscan]; try done.
  { unfold enumerate. by rewrite snd_enumerate_from. }
  { unfold enumerate. by rewrite snd_enumerate_from. }
  assert (prepass f1 = Delegate
            (mkFormula (vars f1)
               (not_in_units ucs (enumerate (clauses f1))))) as Hpre
    by (unfold prepass; by rewrite Hscan).
  pose proof (prepass_delegate_clauses _ _ Hpre) as Hcs'. simpl in Hcs'.
  unfold dpll. rewrite Hpre, Hcs', Hcs. unfold backtrack.
  rewrite backtrack_fuel_S. simpl. rewrite Hall.
  assert (Formula.sat (mkFormula (vars f1)
            (filter (λ c, Clause.len c ≠ 1) (clauses f))) = true) as ->; [| done].
  apply Formula_sat_spec, list.Forall_forall. simpl.
  intros c [_ Hc]%list_elem_of_filter. apply Hsat'. by rewrite Hcs.
Qed.

Lemma dpll_after_backtrack_witness :
  wf_formula (cnf 3 [[1]; [-1; -2]; [2; 3]]%Z) = true ∧
  ∃ r f1, backtrack (cnf 3 [[1]; [-1; -2]; [2; 3]]%Z) = Some (Some r, f1) ∧
    dpll f1 = Some (Return (Some r)
                      (mkFormula r
                         (filter (λ c, Clause.len c ≠ 1)
                            (clauses (cnf 3 [[1]; [-1; -2]; [2; 3]]%Z))))).
Proof.
  split; [reflexivity |]. eexists _, _. split; [vm_compute; reflexivity |].
  eapply (dpll_after_backtrack (cnf 3 [[1]; [-1; -2]; [2; 3]]%Z) (Some _));
    [reflexivity |].
  vm_compute. reflexivity.
Defined.

(** * Text input and output *)

(** ** Strings *)

Lemma append_cons c s t : String c s +:+ t = String c (s +:+ t).
Proof. done. Qed.

Lemma append_nil_r s : s +:+ EmptyString = s.
Proof.
  induction s as [|c s IH]; [done |]. by rewrite append_cons, IH.
Qed.

Lemma append_assoc s t u : (s +:+ t) +:+ u = s +:+ (t +:+ u).
Proof.
  induction s as [|c s IH]; [done |]. rewrite !append_cons. by rewrite IH.
Qed.

Lemma append_empty s t : s +:+ t = EmptyString → s = EmptyString.
Proof. by destruct s. Qed.

Lemma all_chars_app P s t :
  all_chars P (s +:+ t) = all_chars P s && all_chars P t.
Proof.
  induction s as [|c s IH]; [done |]. rewrite append_cons. simpl.
  by rewrite IH, andb_assoc.
Qed.

Lemma all_chars_impl (P Q : ascii → bool) s :
  (∀ c, P c = true → Q c = true) → all_chars P s = true →
  all_chars Q s = true.
Proof.
  intros HPQ. induction s as [|c s IH]; simpl; [done |].
  intros [Hc Hs]%andb_true_iff. by rewrite (HPQ c Hc), IH.
Qed.

Lemma numeric_not_space c : numeric c = true → not_space c = true.
Proof. destruct c as [[] [] [] [] [] [] [] []]; by vm_compute. Qed.

Lemma numeric_not_eol c : numeric c = true → not_eol c = true.
Proof. destruct c as [[] [] [] [] [] [] [] []]; by vm_compute. Qed.

(** ** [split] and [strip] *)

Lemma split_from_run cur t s :
  all_chars not_space t = true →
  split_from cur (t +:+ s) = split_from (cur +:+ t) s.
Proof.
  revert cur. induction t as [|c t IH]; intros cur; simpl.
  - intros _. by rewrite append_nil_r.
  - intros [Hc Ht]%andb_true_iff.
    unfold not_space in Hc. apply negb_true_iff in Hc. rewrite Hc.
    rewrite IH by done. by rewrite append_assoc.
Qed.

Lemma split_from_space cur c s :
  py_isspace c = true →
  split_from cur (String c s)
  = (if cur is EmptyString then [] else [cur]) ++ split s.
Proof. intros Hc. simpl. by rewrite Hc. Qed.

(** A token in front of the end of the string or of a white space. *)
Lemma split_token t s :
  t ≠ EmptyString → all_chars not_space t = true →
  s = EmptyString ∨ (∃ c s', s = String c s' ∧ py_isspace c = true) →
  split (t +:+ s) = t :: split s.
Proof.
  intros Hne Ht Hs. unfold split at 1. rewrite split_from_run by done.
  change (EmptyString +:+ t) with t.
  destruct Hs as [-> | (c & s' & -> & Hc)].
  - simpl. by destruct t.
  - rewrite split_from_space by done.
    destruct t; [done |]. simpl. unfold split. simpl. by rewrite Hc.
Qed.

(** Tokens joined by single spaces, in front of the end of the string or of
    a white space, are split again into these tokens. *)
Lemma split_join tokens s :
  Forall (λ t, t ≠ EmptyString ∧ all_chars not_space t = true) tokens →
  s = EmptyString ∨ (∃ c s', s = String c s' ∧ py_isspace c = true) →
  split (String.concat " " tokens +:+ s) = tokens ++ split s.
Proof.
  intros Htoks Hs. induction Htoks as [|t tokens [Hne Ht] Htoks IH]; [done |].
  destruct tokens as [|t' tokens].
  - simpl. by apply split_token.
  - change (String.concat " " (t :: t' :: tokens))
      with (t +:+ " " +:+ String.concat " " (t' :: tokens)).
    rewrite !append_assoc. rewrite split_token; [| done | done |].
    + simpl. f_equal.
      change (split (" " +:+ ?x)) with (split x) in |- *.
      exact IH.
    + right. eexists _, _. split; [reflexivity | done].
Qed.

Lemma lstrip_split s : split (lstrip s) = split s.
Proof.
  induction s as [|c s IH]; [done |]. simpl.
  destruct (py_isspace c) eqn:Hc; [| done].
  rewrite IH. unfold split. simpl. by rewrite Hc.
Qed.

Lemma rstrip_split_from cur s :
  split_from cur (rstrip s) = split_from cur s.
Proof.
  revert cur. induction s as [|c s IH]; intros cur; [done |]. simpl.
  destruct (rstrip s) as [|c' r] eqn:Hr.
  - destruct (py_isspace c) eqn:Hc.
    + rewrite <- IH. simpl. by rewrite app_nil_r.
    + simpl. rewrite Hc. by rewrite <- IH.
  - simpl. destruct (py_isspace c) eqn:Hc; by rewrite <- IH.
Qed.

(** [s.strip().split()] is [s.split()]. *)
Lemma strip_split s : split (strip s) = split s.
Proof.
  unfold strip, split. rewrite rstrip_split_from. apply lstrip_split.
Qed.

Lemma rstrip_cons c s :
  py_isspace c = false → rstrip (String c s) = String c (rstrip s).
Proof. intros Hc. simpl. rewrite Hc. by destruct (rstrip s). Qed.

Lemma strip_cons c s :
  py_isspace c = false → strip (String c s) = String c (rstrip s).
Proof. intros Hc. unfold strip. simpl. rewrite Hc. by apply rstrip_cons. Qed.

(** A string of white space only has no token, and stripped it is empty. *)
Lemma split_blank s : all_chars py_isspace s = true → split s = [].
Proof.
  induction s as [|c s IH]; [done |]. simpl.
  intros [Hc Hs]%andb_true_iff. unfold split. simpl. rewrite Hc.
  by apply IH.
Qed.

(** The first token of a string begins with the first character of the
    stripped string. *)
Lemma split_from_head cur s :
  cur ≠ EmptyString →
  ∃ x ts, split_from cur s = (cur +:+ x) :: ts.
Proof.
  revert cur. induction s as [|c s IH]; intros cur Hne; simpl.
  - exists EmptyString, []. rewrite append_nil_r. by destruct cur.
  - destruct (py_isspace c).
    + exists EmptyString, (split_from EmptyString s).
      rewrite append_nil_r. by destruct cur.
    + destruct (IH (cur +:+ String c EmptyString)) as (x & ts & ->).
      { by intros ?%append_empty. }
      exists (String c x), ts. by rewrite append_assoc.
Qed.

Lemma lstrip_head s c r :
  lstrip s = String c r → py_isspace c = false.
Proof.
  induction s as [|c' s IH]; [done |]. simpl.
  destruct (py_isspace c') eqn:Hc'; [done |]. by intros [= <- <-].
Qed.

Lemma rstrip_head s c r :
  rstrip s = String c r → ∃ r', s = String c r'.
Proof.
  destruct s as [|c' s]; [done |]. simpl.
  destruct (rstrip s); [destruct (py_isspace c') |]; intros [= <- <-]; eauto.
Qed.

Lemma strip_head_split s c r :
  strip s = String c r → ∃ x ts, split s = String c x :: ts.
Proof.
  unfold strip. intros Hs.
  destruct (rstrip_head _ _ _ Hs) as [r' Hl].
  pose proof (lstrip_head _ _ _ Hl) as Hc.
  rewrite <- lstrip_split, Hl. unfold split. cbn [split_from]. rewrite Hc.
  destruct (split_from_head (EmptyString +:+ String c EmptyString) r')
    as (x & ts & ->); [done |].
  eauto.
Qed.

(** ** Integers written and read *)

Lemma int_digits_string_of_uint d b :
  d ≠ Decimal.Nil ∨ b = true →
  int_digits (NilEmpty.string_of_uint d) b = Some d.
Proof.
  revert b. induction d as [|d IH|d IH|d IH|d IH|d IH|d IH|d IH|d IH|d IH|d IH];
    intros b Hb; simpl;
    try (rewrite IH by (by right); done).
  destruct Hb as [? | ->]; done.
Qed.

Lemma all_numeric_string_of_uint d :
  all_chars numeric (NilEmpty.string_of_uint d) = true.
Proof. induction d; simpl; try done; by rewrite IHd. Qed.

Lemma string_of_uint_nonnil d :
  d ≠ Decimal.Nil → NilZero.string_of_uint d = NilEmpty.string_of_uint d.
Proof. by destruct d. Qed.

Lemma int_of_token_string_of_uint d :
  d ≠ Decimal.Nil →
  int_of_token (NilEmpty.string_of_uint d) = Some (Z.of_int (Decimal.Pos d)).
Proof.
  intros Hd.
  pose proof (int_digits_string_of_uint d false (or_introl Hd)) as Hdig.
  destruct d; [done | ..]; unfold int_of_token;
    cbn [NilEmpty.string_of_uint] in *;
    rewrite !bool_decide_eq_false_2 by done; by rewrite Hdig.
Qed.

Lemma to_int_nonnil z :
  ∃ d, d ≠ Decimal.Nil ∧
    (Z.to_int z = Decimal.Pos d ∨ Z.to_int z = Decimal.Neg d).
Proof.
  destruct z as [|p|p]; simpl.
  - exists (Decimal.D0 Decimal.Nil). split; [done | by left].
  - exists (Pos.to_uint p). split; [apply Unsigned.to_uint_nonnil | by left].
  - exists (Pos.to_uint p). split; [apply Unsigned.to_uint_nonnil | by right].
Qed.

(** [int(str(z))] is [z]. *)
Lemma int_of_token_py_str z : int_of_token (py_str z) = Some z.
Proof.
  unfold py_str. rewrite <- (DecimalZ.of_to z) at 2.
  destruct (to_int_nonnil z) as (d & Hd & [-> | ->]); simpl.
  - rewrite string_of_uint_nonnil by done.
    by apply int_of_token_string_of_uint.
  - rewrite string_of_uint_nonnil by done.
    by rewrite (int_digits_string_of_uint d false (or_introl Hd)).
Qed.

Lemma py_str_numeric z : all_chars numeric (py_str z) = true.
Proof.
  unfold py_str. destruct (to_int_nonnil z) as (d & Hd & [-> | ->]); simpl;
    rewrite string_of_uint_nonnil by done; apply all_numeric_string_of_uint.
Qed.

Lemma py_str_nonempty z : py_str z ≠ EmptyString.
Proof.
  unfold py_str. destruct (to_int_nonnil z) as (d & Hd & [-> | ->]);
    simpl; [| done].
  rewrite string_of_uint_nonnil by done. by destruct d.
Qed.

Lemma py_str_opp z : (0 < z)%Z → "-" +:+ py_str z = py_str (- z).
Proof. by destruct z. Qed.

(** A printed integer is a token, and holds no end of line. *)
Lemma py_str_token z :
  py_str z ≠ EmptyString ∧ all_chars not_space (py_str z) = true.
Proof.
  split; [apply py_str_nonempty |].
  eapply all_chars_impl; [apply numeric_not_space | apply py_str_numeric].
Qed.

Lemma py_str_no_eol z : all_chars not_eol (py_str z) = true.
Proof.
  eapply all_chars_impl; [apply numeric_not_eol | apply py_str_numeric].
Qed.

(** ** [read_formula]: what it returns *)

Lemma py_index_nonneg len i j :
  (0 ≤ i)%Z → py_index len i = Some j → j = Z.to_nat i ∧ j < len.
Proof.
  intros Hi. unfold py_index. case_bool_decide as H1.
  - intros [= <-]. lia.
  - case_bool_decide; [lia | done].
Qed.

Lemma fresh_vars_names_ok n : names_ok (fresh_vars n).
Proof. intros i v [_ ->]%fresh_vars_lookup. done. Qed.

(** The formula built from rows of integers that can stand for literals is
    well-formed. *)
Lemma cnf_well_formed n zrows :
  Forall (Forall (literal_for n)) zrows → wf_formula (cnf n zrows) = true.
Proof.
  intros Hrows. apply wf_formula_intro; simpl.
  - apply fresh_vars_names_ok.
  - rewrite length_fresh_vars. intros c l.
    intros (zs & -> & Hzs)%list_elem_of_fmap. simpl.
    intros (z & -> & Hz)%list_elem_of_fmap. simpl.
    rewrite list.Forall_forall in Hrows.
    specialize (Hrows zs Hzs). rewrite list.Forall_forall in Hrows.
    destruct (Hrows z Hz) as [? ?]. lia.
Qed.

Lemma read_lits_returns n tokens ls :
  read_lits n tokens = Returns ls →
  ∃ zs, int_of_token <$> tokens = Some <$> zs ∧
        Forall (literal_for n) zs ∧ ls = lit_of <$> zs.
Proof.
  revert ls. induction tokens as [|t tokens IH]; intros ls; cbn [read_lits].
  - intros [= <-]. by exists [].
  - destruct (int_of_token t) as [z|] eqn:Hz; [| done].
    case_bool_decide as Hz0; [done |].
    destruct (py_index n (Z.abs z - 1)) as [j|] eqn:Hj; [| done].
    destruct (read_lits n tokens) as [ls'|] eqn:Hls; [| done].
    intros [= <-]. destruct (IH ls' eq_refl) as (zs & Htoks & Hzs & ->).
    apply py_index_nonneg in Hj as [-> Hlt]; [| lia].
    exists (z :: zs). rewrite !fmap_cons, Htoks, Hz. split; [done |].
    split; [| done]. constructor; [| done]. split; [done | lia].
Qed.

Lemma lookup_last_token {A} (l : list A) x :
  py_index (length l) (Z.of_nat (length l) - 1) ≫= (l !!.) = Some x →
  l = take (length l - 1) l ++ [x].
Proof.
  destruct (decide (length l = 0)) as [Hl | Hl].
  - rewrite Hl. done.
  - unfold py_index. rewrite bool_decide_eq_true_2 by lia. simpl.
    replace (Z.to_nat (Z.of_nat (length l) - 1)) with (length l - 1) by lia.
    intros Hx. rewrite <- (take_drop (length l - 1) l) at 1. f_equal.
    apply list_eq. intros [|i].
    + rewrite lookup_drop, Nat.add_0_r. done.
    + rewrite lookup_drop. simpl. apply lookup_ge_None. lia.
Qed.

Lemma read_row_returns n row c :
  read_row n row = Returns c →
  ∃ zs, row_of row zs ∧ Forall (literal_for n) zs ∧
        c = mkClause (lit_of <$> zs).
Proof.
  unfold read_row, row_of.
  destruct (py_index _ _ ≫= _) as [last|] eqn:Hlast; [| done].
  destruct (int_of_token last) as [z|] eqn:Hz; [| done].
  case_bool_decide as Hz0; simpl; [| done]. subst z.
  destruct (read_lits n _) as [ls|] eqn:Hls; [| done].
  intros [= <-]. apply read_lits_returns in Hls as (zs & Htoks & Hzs & ->).
  exists zs. split_and!; [| done | done].
  rewrite (lookup_last_token _ _ Hlast) at 1.
  by rewrite !fmap_app, Htoks, !fmap_cons, Hz.
Qed.

Lemma read_rows_returns n rows acc cs :
  read_rows n rows acc = Returns cs →
  ∃ zrows, Forall2 row_of rows zrows ∧
           Forall (Forall (literal_for n)) zrows ∧
           cs = acc ++ ((λ zs, mkClause (lit_of <$> zs)) <$> zrows).
Proof.
  revert acc. induction rows as [|row rows IH]; intros acc; simpl.
  - intros [= <-]. exists []. by rewrite app_nil_r.
  - destruct (read_row n row) as [c|] eqn:Hrow; [| done].
    intros (zrows & Hrows & Hok & ->)%IH.
    apply read_row_returns in Hrow as (zs & Hrow & Hzs & ->).
    exists (zs :: zrows). split_and!; [by constructor | by constructor |].
    by rewrite fmap_cons, <- app_assoc.
Qed.

(** The lines [skip_comments] passes over are comments, and the line it
    stops at is the first that is none. *)
Lemma skip_comments_returns lines header rows :
  skip_comments lines = Returns (header, rows) →
  ∃ comments line,
    lines = comments ++ line :: rows ∧ header = strip line ∧
    Forall (λ l, ∃ r, strip l = String "c" r) comments ∧
    ∃ c r, strip line = String c r ∧ c ≠ "c"%char.
Proof.
  induction lines as [|line lines IH]; simpl; [done |].
  destruct (strip line) as [|c r] eqn:Hline; [done |].
  case_bool_decide as Hc.
  - intros [= <- <-]. exists [], line. split_and!; [done | done | done |].
    by exists c, r.
  - intros (comments & line' & -> & -> & Hcs & Hh)%IH.
    exists (line :: comments), line'. split_and!; [done | done | | done].
    constructor; [| done]. exists r.
    destruct (decide (c = "c"%char)) as [-> | Hne]; [done |].
    destruct Hc. done.
Qed.

(** A header that is accepted has four tokens: [p], [cnf] and two
    integers. *)
Lemma parse_header_returns header nvars nclauses :
  parse_header header = Returns (nvars, nclauses) →
  ∃ a b, split header = ["p"%string; "cnf"%string; a; b] ∧
         int_of_token a = Some nvars ∧ int_of_token b = Some nclauses.
Proof.
  unfold parse_header.
  destruct (split header) as [|h0 [|h1 [|h2 [|h3 [|h4 l]]]]]; try done.
  case_bool_decide as H0; simpl; [| done].
  case_bool_decide as H1; simpl; [| done].
  destruct (int_of_token h2) as [n|] eqn:H2; [| done].
  destruct (int_of_token h3) as [m|] eqn:H3; [| done].
  intros [= <- <-]. exists h2, h3. by subst.
Qed.

(** The formula returned is the one built from the number of variables of
    the header, the first line that is no comment, and the rows of integers
    of the lines after it. *)
Lemma read_formula_cnf lines f :
  read_formula lines = Returns f →
  ∃ comments header rows a b nvars nclauses zrows,
    lines = comments ++ header :: rows ∧
    Forall (λ l, ∃ r, strip l = String "c" r) comments ∧
    (∃ c r, strip header = String c r ∧ c ≠ "c"%char) ∧
    split header = ["p"%string; "cnf"%string; a; b] ∧
    int_of_token a = Some nvars ∧ int_of_token b = Some nclauses ∧
    Forall2 row_of rows zrows ∧
    Forall (Forall (literal_for (Z.to_nat nvars))) zrows ∧
    f = cnf (Z.to_nat nvars) zrows.
Proof.
  unfold read_formula.
  destruct (skip_comments lines) as [[header rows]|] eqn:Hskip; [| done].
  destruct (parse_header header) as [[nvars nclauses]|] eqn:Hhead; [| done].
  destruct (read_rows _ rows []) as [cs|] eqn:Hrows; [| done].
  intros [= <-].
  apply skip_comments_returns in Hskip as (comments & line & -> & -> & Hcs & Hl).
  apply parse_header_returns in Hhead as (a & b & Hsplit & Ha & Hb).
  rewrite strip_split in Hsplit.
  apply read_rows_returns in Hrows as (zrows & Hrows & Hok & ->).
  rewrite length_fresh_vars in Hok.
  by exists comments, line, rows, a, b, nvars, nclauses, zrows.
Qed.

(** X12: what [read_formula] returns.  The lines it has read are comment
    lines, then the header, the first line that is no comment, whose tokens
    are [p], [cnf], the number of variables and a number of clauses, then
    the rows.  The formula returned is well-formed, has that number of
    variables, all unassigned, and one clause for each row, whose literals
    are the integers of the row before its closing [0]; the number of
    clauses the header declares plays no part. *)
Theorem read_formula_returns lines f :
  read_formula lines = Returns f →
  wf_formula f = true ∧ Forall (λ v, value v = None) (vars f) ∧
  ∃ comments header rows a b nvars nclauses zrows,
    lines = comments ++ header :: rows ∧
    Forall (λ l, ∃ r, strip l = String "c" r) comments ∧
    (∃ c r, strip header = String c r ∧ c ≠ "c"%char) ∧
    split header = ["p"%string; "cnf"%string; a; b] ∧
    int_of_token a = Some nvars ∧ int_of_token b = Some nclauses ∧
    length (vars f) = Z.to_nat nvars ∧
    length (clauses f) = length rows ∧
    Forall2 row_of rows zrows ∧
    Forall (Forall (literal_for (length (vars f)))) zrows ∧
    f = cnf (length (vars f)) zrows.
Proof.
  intros (comments & header & rows & a & b & nvars & nclauses & zrows & Hlines
          & Hcs & Hh & Hsplit & Ha & Hb & Hrows & Hok & ->)%read_formula_cnf.
  split_and!.
  - by apply cnf_well_formed.
  - apply fresh_vars_unassigned.
  - exists comments, header, rows, a, b, nvars, nclauses, zrows. simpl.
    rewrite length_fresh_vars, length_fmap.
    split_and!; try done. symmetry. by eapply Forall2_length.
Qed.

Lemma read_formula_returns_witness :
  ∃ f, read_formula ["c two clauses"; "p cnf 2 7"; "1 -2 0"; " 2 0 "]%string
       = Returns f ∧
    wf_formula f = true ∧ Forall (λ v, value v = None) (vars f) ∧
    ∃ comments header rows a b nvars nclauses zrows,
      ["c two clauses"; "p cnf 2 7"; "1 -2 0"; " 2 0 "]%string
        = comments ++ header :: rows ∧
      Forall (λ l, ∃ r, strip l = String "c" r) comments ∧
      (∃ c r, strip header = String c r ∧ c ≠ "c"%char) ∧
      split header = ["p"%string; "cnf"%string; a; b] ∧
      int_of_token a = Some nvars ∧ int_of_token b = Some nclauses ∧
      length (vars f) = Z.to_nat nvars ∧
      length (clauses f) = length rows ∧
      Forall2 row_of rows zrows ∧
      Forall (Forall (literal_for (length (vars f)))) zrows ∧
      f = cnf (length (vars f)) zrows.
Proof.
  eexists. split; [vm_compute; reflexivity |].
  eapply (read_formula_returns
            ["c two clauses"; "p cnf 2 7"; "1 -2 0"; " 2 0 "]%string).
  vm_compute. reflexivity.
Defined.

(** ** [read_formula]: one line after the other *)

Lemma skip_comments_app lines more header rows :
  skip_comments lines = Returns (header, rows) →
  skip_comments (lines ++ more) = Returns (header, rows ++ more).
Proof.
  induction lines as [|line lines IH]; simpl; [done |].
  destruct (strip line) as [|c r]; [done |].
  case_bool_decide; [by intros [= <- <-] | exact IH].
Qed.

Lemma read_rows_app n rows more acc :
  read_rows n (rows ++ more) acc =
  match read_rows n rows acc with
  | Returns cs => read_rows n more cs
  | Raises e => Raises e
  end.
Proof.
  revert acc. induction rows as [|row rows IH]; intros acc; simpl; [done |].
  destruct (read_row n row); [apply IH | done].
Qed.

Lemma read_formula_app lines more f :
  read_formula lines = Returns f →
  read_formula (lines ++ more) =
  match read_rows (length (vars f)) more (clauses f) with
  | Returns cs => Returns (mkFormula (vars f) cs)
  | Raises e => Raises e
  end.
Proof.
  unfold read_formula.
  destruct (skip_comments lines) as [[header rows]|] eqn:Hskip; [| done].
  rewrite (skip_comments_app _ more _ _ Hskip).
  destruct (parse_header header) as [[nvars nclauses]|]; [| done].
  rewrite read_rows_app.
  destruct (read_rows _ rows []) as [cs|] eqn:Hrows; [| done].
  by intros [= <-].
Qed.

(** X13: reading goes line by line.  When [read_formula] returns a formula
    for some lines, then for these lines followed by more lines it goes on
    from that formula: it raises what the first bad one of the further lines
    raises, or returns a formula with the same variables and the same
    clauses followed by one clause for each further line. *)
Theorem read_formula_more_lines lines more f :
  read_formula lines = Returns f →
  read_formula (lines ++ more) =
    match read_rows (length (vars f)) more (clauses f) with
    | Returns cs => Returns (mkFormula (vars f) cs)
    | Raises e => Raises e
    end ∧
  ∀ g, read_formula (lines ++ more) = Returns g →
       vars g = vars f ∧
       ∃ cs, clauses g = clauses f ++ cs ∧ length cs = length more.
Proof.
  intros Hf. pose proof (read_formula_app lines more f Hf) as Happ.
  split; [done |]. intros g. rewrite Happ.
  destruct (read_rows _ more (clauses f)) as [cs|] eqn:Hrows; [| done].
  intros [= <-]. split; [done |]. simpl.
  apply read_rows_returns in Hrows as (zrows & Hrows & _ & ->).
  eexists. split; [done |].
  rewrite length_fmap. symmetry. by eapply Forall2_length.
Qed.

Lemma read_formula_more_lines_witness :
  read_formula ["p cnf 2 1"; "1 -2 0"]%string = Returns (cnf 2 [[1; -2]]%Z) ∧
  read_formula (["p cnf 2 1"; "1 -2 0"]%string ++ ["2 0"; "-1 0"]%string) =
    match read_rows (length (vars (cnf 2 [[1; -2]]%Z))) ["2 0"; "-1 0"]%string
            (clauses (cnf 2 [[1; -2]]%Z)) with
    | Returns cs => Returns (mkFormula (vars (cnf 2 [[1; -2]]%Z)) cs)
    | Raises e => Raises e
    end ∧
  ∀ g, read_formula (["p cnf 2 1"; "1 -2 0"]%string
                     ++ ["2 0"; "-1 0"]%string) = Returns g →
       vars g = vars (cnf 2 [[1; -2]]%Z) ∧
       ∃ cs, clauses g = clauses (cnf 2 [[1; -2]]%Z) ++ cs ∧
             length cs = length ["2 0"; "-1 0"]%string.
Proof.
  split; [vm_compute; reflexivity |].
  apply (read_formula_more_lines ["p cnf 2 1"; "1 -2 0"]%string).
  vm_compute. reflexivity.
Defined.

Lemma read_row_blank n row :
  all_chars py_isspace row = true → read_row n row = Raises Exn.IndexError.
Proof. intros Hrow. unfold read_row. by rewrite (split_blank row Hrow). Qed.

(** X14: a blank line after the header is not skipped.  If [read_formula]
    returns a formula for some lines, then for these lines followed by a
    line of white space only (an empty last line, say), whatever comes
    after it, it raises [IndexError]. *)
Theorem read_formula_blank_line lines row more f :
  read_formula lines = Returns f →
  all_chars py_isspace row = true →
  read_formula (lines ++ row :: more) = Raises Exn.IndexError.
Proof.
  intros Hf Hrow. rewrite (read_formula_app _ _ _ Hf). simpl.
  by rewrite read_row_blank.
Qed.

Lemma read_formula_blank_line_witness :
  read_formula ["p cnf 2 1"; "1 -2 0"]%string = Returns (cnf 2 [[1; -2]]%Z) ∧
  all_chars py_isspace (String LF EmptyString) = true ∧
  read_formula (["p cnf 2 1"; "1 -2 0"]%string ++ [String LF EmptyString])
  = Raises Exn.IndexError.
Proof.
  split; [vm_compute; reflexivity |]. split; [reflexivity |].
  apply (read_formula_blank_line ["p cnf 2 1"; "1 -2 0"]%string
           (String LF EmptyString) [] (cnf 2 [[1; -2]]%Z));
    vm_compute; reflexivity.
Defined.

Lemma int_of_token_c x : int_of_token (String "c" x) = None.
Proof. done. Qed.

Lemma read_lits_first_not_int n t tokens :
  int_of_token t = None → read_lits n (t :: tokens) = Raises Exn.ValueError.
Proof. intros Ht. simpl. by rewrite Ht. Qed.

Lemma read_row_comment n row r :
  strip row = String "c" r →
  read_row n row = Raises Exn.ValueError ∨
  read_row n row = Raises Exn.AssertionError.
Proof.
  intros (x & ts & Hsplit)%strip_head_split. unfold read_row.
  rewrite Hsplit.
  destruct (py_index _ _ ≫= _) as [last|] eqn:Hlast.
  2:{ exfalso. revert Hlast. unfold py_index.
      rewrite bool_decide_eq_true_2 by (simpl; lia). simpl.
      intros Hnone%lookup_ge_None. simpl in Hnone. lia. }
  destruct (int_of_token last) as [z|] eqn:Hz; [| by left].
  case_bool_decide as Hz0; simpl; [| by right]. left.
  destruct ts as [|t ts].
  - vm_compute in Hlast. injection Hlast as <-.
    by rewrite int_of_token_c in Hz.
  - replace (take (length (t :: ts) - 0) (String "c" x :: t :: ts))
      with (String "c" x :: take (length ts) (t :: ts)) by done.
    by rewrite read_lits_first_not_int.
Qed.

(** X15: comment lines are skipped before the header only.  If
    [read_formula] returns a formula for some lines, then for these lines
    followed by a line that, stripped, begins with [c] it raises
    [ValueError] or [AssertionError], whatever comes after that line. *)
Theorem read_formula_comment_after_header lines row r more f :
  read_formula lines = Returns f →
  strip row = String "c" r →
  read_formula (lines ++ row :: more) = Raises Exn.ValueError ∨
  read_formula (lines ++ row :: more) = Raises Exn.AssertionError.
Proof.
  intros Hf Hrow. rewrite (read_formula_app _ _ _ Hf). simpl.
  destruct (read_row_comment (length (vars f)) row r Hrow) as [-> | ->];
    [by left | by right].
Qed.

Lemma read_formula_comment_after_header_witness :
  read_formula ["p cnf 2 1"; "1 -2 0"]%string = Returns (cnf 2 [[1; -2]]%Z) ∧
  strip " c end of file"%string = String "c" " end of file"%string ∧
  (read_formula (["p cnf 2 1"; "1 -2 0"]%string ++ [" c end of file"%string])
   = Raises Exn.ValueError ∨
   read_formula (["p cnf 2 1"; "1 -2 0"]%string ++ [" c end of file"%string])
   = Raises Exn.AssertionError).
Proof.
  split; [vm_compute; reflexivity |]. split; [reflexivity |].
  apply (read_formula_comment_after_header ["p cnf 2 1"; "1 -2 0"]%string
           " c end of file"%string " end of file"%string []
           (cnf 2 [[1; -2]]%Z));
    vm_compute; reflexivity.
Defined.

(** ** A formula written out and read back *)

Lemma file_lines_from_run cur t s :
  all_chars not_eol t = true →
  file_lines_from cur (t +:+ s) = file_lines_from (cur +:+ t) s.
Proof.
  revert cur. induction t as [|c t IH]; intros cur.
  - intros _. by rewrite append_nil_r.
  - intros [Hc Ht]%andb_true_iff. rewrite append_cons.
    cbn [file_lines_from].
    unfold not_eol in Hc. apply andb_true_iff in Hc as [H1 H2].
    apply negb_true_iff in H1, H2. rewrite H1, H2.
    rewrite IH by done. by rewrite append_assoc.
Qed.

Lemma file_lines_line t s :
  all_chars not_eol t = true →
  file_lines (t +:+ String LF s)
  = (t +:+ String LF EmptyString) :: file_lines s.
Proof.
  intros Ht. unfold file_lines at 1. rewrite file_lines_from_run by done.
  done.
Qed.

Lemma file_lines_last t :
  t ≠ EmptyString → all_chars not_eol t = true → file_lines t = [t].
Proof.
  intros Hne Ht. unfold file_lines.
  rewrite <- (append_nil_r t) at 1. rewrite file_lines_from_run by done.
  simpl. by destruct t.
Qed.

Lemma file_lines_concat rows :
  Forall (λ r, r ≠ EmptyString ∧ all_chars not_eol r = true) rows →
  file_lines (String.concat (String LF EmptyString) rows) = with_eol rows.
Proof.
  induction 1 as [|r rows [Hne Hr] Hrows IH]; [done |].
  destruct rows as [|r' rows].
  - simpl. by apply file_lines_last.
  - change (String.concat (String LF EmptyString) (r :: r' :: rows))
      with (r +:+ String LF (String.concat (String LF EmptyString)
                               (r' :: rows))).
    rewrite file_lines_line by done. by rewrite IH.
Qed.

Lemma all_chars_concat P sep tokens :
  all_chars P sep = true → Forall (λ t, all_chars P t = true) tokens →
  all_chars P (String.concat sep tokens) = true.
Proof.
  intros Hsep. induction 1 as [|t tokens Ht Htoks IH]; [done |].
  destruct tokens as [|t' tokens]; [done |].
  change (String.concat sep (t :: t' :: tokens))
    with (t +:+ sep +:+ String.concat sep (t' :: tokens)).
  by rewrite !all_chars_app, Ht, Hsep, IH.
Qed.

Section written.
Variable vs : list Var.
Hypothesis vs_names : names_ok vs.

(** What [Lit.__str__] gives for a literal on a variable of the store. *)
Lemma Lit_str_in_range l :
  var l < length vs →
  Lit_str vs l
  = py_str (if sign l then Z.of_nat (var l) + 1 else - (Z.of_nat (var l) + 1)).
Proof.
  intros Hl. unfold Lit_str, Var_str.
  destruct (lookup_lt_is_Some_2 vs (var l) Hl) as [v Hv].
  rewrite Hv, (vs_names _ _ Hv).
  destruct (sign l); [done |]. apply py_str_opp. lia.
Qed.

Lemma read_lits_Lit_str ls :
  Forall (λ l, var l < length vs) ls →
  read_lits (length vs) (Lit_str vs <$> ls) = Returns ls.
Proof.
  induction 1 as [|l ls Hl Hls IH]; [done |].
  rewrite fmap_cons. cbn [read_lits].
  rewrite Lit_str_in_range, int_of_token_py_str by done.
  rewrite bool_decide_eq_false_2 by (destruct (sign l); lia).
  replace (Z.abs (if sign l then Z.of_nat (var l) + 1
                  else - (Z.of_nat (var l) + 1)) - 1)%Z
    with (Z.of_nat (var l)) by (destruct (sign l); lia).
  unfold py_index. rewrite bool_decide_eq_true_2 by lia.
  rewrite IH, Nat2Z.id. do 2 f_equal. destruct l as [j b]. simpl. f_equal.
  destruct b.
  - apply bool_decide_eq_true_2. lia.
  - apply bool_decide_eq_false_2. lia.
Qed.

Lemma Lit_str_token l :
  var l < length vs →
  Lit_str vs l ≠ EmptyString ∧ all_chars not_space (Lit_str vs l) = true.
Proof. intros Hl. rewrite Lit_str_in_range by done. apply py_str_token. Qed.

Lemma Clause_str_no_eol c :
  Forall (λ l, var l < length vs) (lits c) →
  Clause_str vs c ≠ EmptyString ∧ all_chars not_eol (Clause_str vs c) = true.
Proof.
  intros Hc. unfold Clause_str. split.
  - intros Hempty.
    destruct (String.concat " " (Lit_str vs <$> lits c)); done.
  - rewrite all_chars_app. apply andb_true_iff. split; [| done].
    apply all_chars_concat; [done |].
    apply Forall_fmap. revert Hc. apply Forall_impl. intros l Hl. simpl.
    rewrite Lit_str_in_range by done. apply py_str_no_eol.
Qed.

(** A clause written by [Clause.__str__], with or without the end of the
    line, is read back by the loop of [read_formula]. *)
Lemma read_row_Clause_str c tail :
  Forall (λ l, var l < length vs) (lits c) →
  tail = EmptyString ∨ tail = String LF EmptyString →
  read_row (length vs) (Clause_str vs c +:+ tail) = Returns c.
Proof.
  intros Hc Htail. unfold read_row, Clause_str.
  rewrite append_assoc, split_join.
  - assert (split (" 0" +:+ tail) = ["0"%string]) as ->
      by (by destruct Htail as [-> | ->]).
    rewrite length_app, length_fmap. simpl.
    unfold py_index. rewrite bool_decide_eq_true_2 by lia. simpl.
    replace (Z.to_nat (Z.of_nat (length (lits c) + 1) - 1))
      with (length (Lit_str vs <$> lits c) + 0)
      by (rewrite length_fmap; lia).
    rewrite lookup_app_r, Nat.add_0_r, Nat.sub_diag by lia. simpl.
    replace (length (lits c) + 1 - 1) with (length (Lit_str vs <$> lits c))
      by (rewrite length_fmap; lia).
    rewrite take_app_length, read_lits_Lit_str by done. by destruct c.
  - apply Forall_fmap. revert Hc. apply Forall_impl. intros l Hl.
    by apply Lit_str_token.
  - right. eexists _, _. split; [reflexivity | done].
Qed.

Lemma read_rows_Clause_str cs acc :
  Forall (λ c, Forall (λ l, var l < length vs) (lits c)) cs →
  read_rows (length vs) (with_eol (Clause_str vs <$> cs)) acc
  = Returns (acc ++ cs).
Proof.
  intros Hcs. revert acc. induction Hcs as [|c cs Hc Hcs IH]; intros acc.
  - simpl. by rewrite app_nil_r.
  - destruct cs as [|c' cs].
    + simpl. rewrite <- (append_nil_r (Clause_str vs c)).
      rewrite read_row_Clause_str by auto. done.
    + change (with_eol (Clause_str vs <$> c :: c' :: cs))
        with ((Clause_str vs c +:+ String LF EmptyString)
              :: with_eol (Clause_str vs <$> c' :: cs)).
      cbn [read_rows]. rewrite read_row_Clause_str by auto.
      rewrite IH. by rewrite <- app_assoc.
Qed.
End written.

Lemma fresh_vars_id vs :
  names_ok vs → Forall (λ v, value v = None) vs →
  fresh_vars (length vs) = vs.
Proof.
  intros Hok Hall. apply list_eq. intros i.
  destruct (vs !! i) as [v|] eqn:Hv.
  - apply fresh_vars_lookup. split; [by eapply lookup_lt_Some |].
    rewrite list.Forall_forall in Hall.
    pose proof (Hall v (list_elem_of_lookup_2 _ _ _ Hv)) as Hnone.
    pose proof (Hok _ _ Hv) as Hname. destruct v. simpl in *. by subst.
  - apply lookup_ge_None. rewrite length_fresh_vars.
    by apply lookup_ge_None.
Qed.

Lemma skip_comments_comment s lines :
  skip_comments (String "c" s :: lines) = skip_comments lines.
Proof.
  cbn [skip_comments]. rewrite strip_cons by done.
  by rewrite bool_decide_eq_false_2 by (by intros ?).
Qed.

Lemma skip_comments_header s lines :
  skip_comments (String "p" s :: lines)
  = Returns (strip (String "p" s), lines).
Proof.
  cbn [skip_comments]. rewrite strip_cons by done.
  by rewrite bool_decide_eq_true_2 by done.
Qed.

(** The header line as [Formula.__str__] writes it is read back as its two
    numbers. *)
Lemma parse_header_written n m :
  parse_header (strip ("p cnf " +:+ py_str n +:+ " " +:+ py_str m
                       +:+ String LF EmptyString))
  = Returns (n, m).
Proof.
  unfold parse_header. rewrite strip_split.
  replace ("p cnf " +:+ py_str n +:+ " " +:+ py_str m
           +:+ String LF EmptyString)
    with (String.concat " " ["p"%string; "cnf"%string; py_str n; py_str m]
          +:+ String LF EmptyString)
    by (cbn [String.concat]; by rewrite !append_assoc).
  rewrite split_join.
  - simpl. by rewrite !int_of_token_py_str.
  - repeat constructor; try done; apply py_str_token.
  - right. eexists _, _. split; [reflexivity | done].
Qed.

(** The lines of a file that holds what [Formula.__str__] gives. *)
Lemma Formula_str_lines f :
  Forall (λ c, Forall (λ l, var l < length (vars f)) (lits c)) (clauses f) →
  names_ok (vars f) →
  file_lines (Formula_str f) =
  ("c Formula in DIMACS format" +:+ String LF EmptyString)
  :: ("p cnf " +:+ py_str (Z.of_nat (length (vars f))) +:+ " "
      +:+ py_str (Z.of_nat (length (clauses f))) +:+ String LF EmptyString)
  :: with_eol (Clause_str (vars f) <$> clauses f).
Proof.
  intros Hr Hok. unfold Formula_str.
  set (sn := py_str (Z.of_nat (length (vars f)))).
  set (sm := py_str (Z.of_nat (length (clauses f)))).
  set (rows := String.concat (String LF EmptyString)
                 (Clause_str (vars f) <$> clauses f)).
  replace (("c Formula in DIMACS format" +:+ String LF EmptyString)
           +:+ ("p cnf " +:+ sn +:+ " " +:+ sm +:+ String LF EmptyString)
           +:+ rows)
    with ("c Formula in DIMACS format"
          +:+ String LF (("p cnf " +:+ sn +:+ " " +:+ sm) +:+ String LF rows))
    by (by rewrite !append_assoc).
  rewrite file_lines_line by done.
  rewrite file_lines_line.
  2:{ rewrite !all_chars_app. unfold sn, sm. by rewrite !py_str_no_eol. }
  f_equal. f_equal; [by rewrite !append_assoc |].
  apply file_lines_concat. apply Forall_fmap.
  revert Hr. apply Forall_impl. intros c Hc. by apply Clause_str_no_eol.
Qed.

(** X16: a formula written out by [Formula.__str__] is read back by
    [read_formula]: for a well-formed formula with every variable
    unassigned, [read_formula] applied to the lines of a file that holds
    [str(f)] returns a formula equal to [f]. *)
Theorem read_formula_Formula_str f :
  wf_formula f = true → Forall (λ v, value v = None) (vars f) →
  read_formula (file_lines (Formula_str f)) = Returns f.
Proof.
  intros Hwf Hall.
  pose proof (wf_formula_names_ok f Hwf) as Hok.
  pose proof (wf_formula_in_range f Hwf) as Hr.
  assert (Forall (λ c, Forall (λ l, var l < length (vars f)) (lits c))
            (clauses f)) as Hr'.
  { apply list.Forall_forall. intros c Hc.
    apply list.Forall_forall. intros l Hl. by apply (Hr c l). }
  rewrite Formula_str_lines by done. unfold read_formula.
  set (header := "p cnf " +:+ py_str (Z.of_nat (length (vars f))) +:+ " "
                 +:+ py_str (Z.of_nat (length (clauses f)))
                 +:+ String LF EmptyString).
  set (rows := with_eol (Clause_str (vars f) <$> clauses f)).
  assert (skip_comments
            (("c Formula in DIMACS format" +:+ String LF EmptyString)
             :: header :: rows)
          = Returns (strip header, rows)) as ->.
  { etrans; [exact (skip_comments_comment _ _) |].
    exact (skip_comments_header _ _). }
  unfold header, rows.
  rewrite parse_header_written, Nat2Z.id, length_fresh_vars.
  rewrite fresh_vars_id by done.
  rewrite read_rows_Clause_str by done. by destruct f.
Qed.

Lemma read_formula_Formula_str_witness :
  wf_formula (cnf 3 [[1; -3]; []; [2]]%Z) = true ∧
  Forall (λ v, value v = None) (vars (cnf 3 [[1; -3]; []; [2]]%Z)) ∧
  read_formula (file_lines (Formula_str (cnf 3 [[1; -3]; []; [2]]%Z)))
  = Returns (cnf 3 [[1; -3]; []; [2]]%Z).
Proof.
  assert (Forall (λ v, value v = None) (vars (cnf 3 [[1; -3]; []; [2]]%Z)))
    as Hall by (vm_compute; repeat constructor).
  split; [reflexivity |]. split; [exact Hall |].
  exact (read_formula_Formula_str (cnf 3 [[1; -3]; []; [2]]%Z) eq_refl Hall).
Defined.

(** ** The solution printed *)

Lemma soln_tokens_assigned vs :
  Forall (λ v, (0 < name v)%Z ∧ value v ≠ None) vs →
  vs ≫= soln_tokens = py_str <$> (signed_name <$> vs).
Proof.
  induction 1 as [|v vs [Hname Hval] _ IH]; [done |].
  rewrite bind_cons, !fmap_cons, IH. f_equal.
  unfold soln_tokens, signed_name, Var_str.
  destruct (value v) as [[|]|]; [done | | done]. simpl. f_equal.
  by apply py_str_opp.
Qed.

Lemma names_ok_positive vs v : names_ok vs → v ∈ vs → (0 < name v)%Z.
Proof.
  intros Hok [i Hi]%list_elem_of_lookup_1. rewrite (Hok _ _ Hi). lia.
Qed.

Lemma lit_of_signed_name vs i v :
  names_ok vs → vs !! i = Some v → value v ≠ None →
  lit_of (signed_name v) = mkLit i (assignment_of vs i).
Proof.
  intros Hok Hi Hval. unfold lit_of, signed_name, assignment_of, var_value.
  rewrite Hi. simpl. rewrite (Hok _ _ Hi).
  destruct (value v) as [[|]|]; [| | done]; simpl; f_equal; try lia.
  - apply bool_decide_eq_true_2. lia.
  - apply bool_decide_eq_false_2. lia.
Qed.

(** The line of values [print_soln] prints, split into its tokens. *)
Lemma split_soln_line zs :
  split (String.concat " " (("v"%string :: (py_str <$> zs)) ++ ["0"%string]))
  = ("v"%string :: (py_str <$> zs)) ++ ["0"%string].
Proof.
  rewrite <- (append_nil_r (String.concat _ _)).
  rewrite split_join; [by rewrite app_nil_r | | by left].
  apply Forall_app. split; [| by repeat constructor].
  constructor; [done |]. apply Forall_fmap, list.Forall_forall.
  intros z _. apply py_str_token.
Qed.

(** What [print_soln] prints for a list of variables that are all
    assigned and named by their positions. *)
Lemma print_soln_assigned r :
  names_ok r → Forall (λ v, value v ≠ None) r →
  print_soln (Some r)
  = ["s SATISFIABLE"%string;
     String.concat " "
       (("v"%string :: (py_str <$> (signed_name <$> r))) ++ ["0"%string])] ∧
  lit_of <$> (signed_name <$> r)
  = (λ i, mkLit i (assignment_of r i)) <$> seq 0 (length r).
Proof.
  intros Hok Hall. rewrite list.Forall_forall in Hall. split.
  - unfold print_soln. rewrite soln_tokens_assigned; [done |].
    apply list.Forall_forall. intros v Hv.
    split; [by eapply names_ok_positive | by apply Hall].
  - apply list_eq. intros i. rewrite !list_lookup_fmap.
    destruct (r !! i) as [v|] eqn:Hv; simpl.
    + rewrite (lookup_seq_lt 0 _ i) by (by eapply lookup_lt_Some).
      simpl. f_equal. apply (lit_of_signed_name r i v); [done | done |].
      by apply Hall, (list_elem_of_lookup_2 _ i).
    + apply lookup_ge_None in Hv. rewrite lookup_ge_None_2; [done |].
      rewrite length_seq. lia.
Qed.

Lemma int_of_token_soln_line zs :
  int_of_token
    <$> split (String.concat " "
                 (("v"%string :: (py_str <$> zs)) ++ ["0"%string]))
  = None :: (Some <$> (zs ++ [0%Z])).
Proof.
  rewrite split_soln_line. rewrite fmap_app, fmap_cons. simpl. f_equal.
  rewrite fmap_app. f_equal.
  rewrite <- !list_fmap_compose. apply list_fmap_ext.
  intros i z _. simpl. apply int_of_token_py_str.
Qed.

(** The assignment a successful [backtrack] returns is named by positions
    and complete, and each clause holds the literal of one of its
    variables. *)
Lemma backtrack_printable f r f' :
  wf_formula f = true → backtrack f = Some (Some r, f') →
  names_ok r ∧ Forall (λ v, value v ≠ None) r ∧
  length r = length (vars f) ∧
  ∀ c, c ∈ clauses f →
       ∃ z, z ∈ signed_name <$> r ∧ z ≠ 0%Z ∧ lit_of z ∈ lits c.
Proof.
  intros Hwf Hb.
  pose proof (backtrack_fuel_success _ _ _ _ Hb) as [Hr Hcs Hn _ Hall].
  pose proof (names_ok_of_names _ _ Hn (wf_formula_names_ok f Hwf)) as Hok.
  apply first_unassigned_None in Hall. rewrite <- Hr in Hok, Hall.
  assert (length r = length (vars f)) as Hlen.
  { rewrite Hr. apply (f_equal length) in Hn. by rewrite !length_fmap in Hn. }
  split_and!; try done. intros c Hc.
  destruct (proj2 (backtrack_success_model f r f' Hb) c Hc)
    as (l & Hl & Hsign).
  pose proof (wf_formula_in_range f Hwf c l Hc Hl) as Hvar.
  rewrite <- Hlen in Hvar.
  destruct (lookup_lt_is_Some_2 r (var l) Hvar) as [v Hv].
  exists (signed_name v). split_and!.
  - apply list_elem_of_fmap. exists v.
    split; [done | by eapply list_elem_of_lookup_2].
  - pose proof (names_ok_positive r v Hok (list_elem_of_lookup_2 _ _ _ Hv)).
    unfold signed_name. destruct (value v) as [[|]|]; lia.
  - rewrite (lit_of_signed_name r (var l) v); [| done | done |].
    + rewrite Hsign. by destruct l.
    + rewrite list.Forall_forall in Hall.
      by apply Hall, (list_elem_of_lookup_2 _ (var l)).
Qed.

(** X17: what the program prints for an assignment found by [backtrack] on
    a well-formed formula: the line [s SATISFIABLE] and a line whose tokens
    are [v], one integer for each variable in index order (the name of the
    variable, negated when its value is [False]) and a closing [0].  Read
    back as literals, these integers give every variable its value, and
    every clause of the formula holds one of them. *)
Theorem print_soln_backtrack f r f' :
  wf_formula f = true → backtrack f = Some (Some r, f') →
  ∃ zs line,
    print_soln (Some r) = ["s SATISFIABLE"%string; line] ∧
    int_of_token <$> split line = None :: (Some <$> (zs ++ [0%Z])) ∧
    lit_of <$> zs
      = (λ i, mkLit i (assignment_of r i)) <$> seq 0 (length (vars f)) ∧
    ∀ c, c ∈ clauses f → ∃ z, z ∈ zs ∧ lit_of z ∈ lits c.
Proof.
  intros Hwf Hb.
  destruct (backtrack_printable f r f' Hwf Hb) as (Hok & Hall & Hlen & Hmod).
  destruct (print_soln_assigned r Hok Hall) as [Hprint Hlits].
  exists (signed_name <$> r). eexists. split_and!.
  - exact Hprint.
  - apply int_of_token_soln_line.
  - by rewrite <- Hlen.
  - intros c Hc. destruct (Hmod c Hc) as (z & ? & _ & ?). eauto.
Qed.

Lemma print_soln_backtrack_witness :
  wf_formula scenario4 = true ∧
  ∃ r f', backtrack scenario4 = Some (Some r, f') ∧
    ∃ zs line,
      print_soln (Some r) = ["s SATISFIABLE"%string; line] ∧
      int_of_token <$> split line = None :: (Some <$> (zs ++ [0%Z])) ∧
      lit_of <$> zs
        = (λ i, mkLit i (assignment_of r i))
          <$> seq 0 (length (vars scenario4)) ∧
      ∀ c, c ∈ clauses scenario4 → ∃ z, z ∈ zs ∧ lit_of z ∈ lits c.
Proof.
  split; [reflexivity |]. eexists _, _. split; [vm_compute; reflexivity |].
  eapply (print_soln_backtrack scenario4); [reflexivity |].
  vm_compute. reflexivity.
Defined.

(** ** [read_formula]: before and at the header *)

Lemma lstrip_blank s : all_chars py_isspace s = true → lstrip s = EmptyString.
Proof.
  induction s as [|c s IH]; [done |]. simpl.
  intros [Hc Hs]%andb_true_iff. rewrite Hc. by apply IH.
Qed.

Lemma skip_comments_only comments more :
  Forall (λ line, ∃ r, strip line = String "c" r) comments →
  skip_comments (comments ++ more) = skip_comments more.
Proof.
  induction 1 as [|line comments [r Hline] _ IH]; [done |].
  simpl. rewrite Hline. by rewrite bool_decide_eq_false_2 by (by intros ?).
Qed.

(** X18: before the header.  A file that holds comment lines only (or
    nothing) makes [read_formula] raise [StopIteration], and a line of white
    space only that comes before the header, after any number of comment
    lines, makes it raise [IndexError]. *)
Theorem read_formula_no_header comments :
  Forall (λ line, ∃ r, strip line = String "c" r) comments →
  read_formula comments = Raises Exn.StopIteration ∧
  ∀ blank more, all_chars py_isspace blank = true →
    read_formula (comments ++ blank :: more) = Raises Exn.IndexError.
Proof.
  intros Hc. unfold read_formula. split.
  - rewrite <- (app_nil_r comments). by rewrite skip_comments_only.
  - intros blank more Hblank. rewrite skip_comments_only by done.
    simpl. unfold strip. by rewrite (lstrip_blank blank Hblank).
Qed.

Lemma read_formula_no_header_witness :
  Forall (λ line, ∃ r, strip line = String "c" r)
    ["c a comment"; "  c another"]%string ∧
  read_formula ["c a comment"; "  c another"]%string
    = Raises Exn.StopIteration ∧
  ∀ blank more, all_chars py_isspace blank = true →
    read_formula (["c a comment"; "  c another"]%string ++ blank :: more)
    = Raises Exn.IndexError.
Proof.
  assert (Forall (λ line, ∃ r, strip line = String "c" r)
            ["c a comment"; "  c another"]%string) as Hc.
  { repeat constructor; eexists; vm_compute; reflexivity. }
  split; [exact Hc |].
  exact (read_formula_no_header ["c a comment"; "  c another"]%string Hc).
Defined.

(** X19: the header must be the first line that is no comment.  If the
    first line that, stripped, does not begin with [c] is not made of
    exactly four tokens of which the first is [p] and the second [cnf],
    [read_formula] raises [AssertionError], whatever the other lines are. *)
Theorem read_formula_bad_header comments line c r rows :
  Forall (λ line, ∃ r, strip line = String "c" r) comments →
  strip line = String c r → c ≠ "c"%char →
  (¬ ∃ a b, split line = ["p"%string; "cnf"%string; a; b]) →
  read_formula (comments ++ line :: rows) = Raises Exn.AssertionError.
Proof.
  intros Hc Hline Hnc Hbad. unfold read_formula.
  rewrite skip_comments_only by done. simpl. rewrite Hline.
  rewrite bool_decide_eq_true_2 by done.
  rewrite <- Hline. unfold parse_header. rewrite strip_split.
  destruct (split line) as [|h0 [|h1 [|h2 [|h3 [|h4 l]]]]]; try done.
  case_bool_decide as H0; simpl; [| done].
  case_bool_decide as H1; simpl; [| done].
  destruct Hbad. exists h2, h3. by subst.
Qed.

Lemma read_formula_bad_header_witness :
  Forall (λ line, ∃ r, strip line = String "c" r) ["c a comment"%string] ∧
  strip "1 -2 0"%string = String "1" " -2 0"%string ∧
  "1"%char ≠ "c"%char ∧
  (¬ ∃ a b, split "1 -2 0"%string = ["p"%string; "cnf"%string; a; b]) ∧
  read_formula (["c a comment"%string] ++ "1 -2 0"%string :: ["2 0"%string])
  = Raises Exn.AssertionError.
Proof.
  assert (Forall (λ line, ∃ r, strip line = String "c" r)
            ["c a comment"%string]) as Hc.
  { repeat constructor; eexists; vm_compute; reflexivity. }
  assert (¬ ∃ a b, split "1 -2 0"%string = ["p"%string; "cnf"%string; a; b])
    as Hbad by (by intros (a & b & ?)).
  split; [exact Hc |]. split; [reflexivity |]. split; [done |].
  split; [exact Hbad |].
  exact (read_formula_bad_header ["c a comment"%string] "1 -2 0"%string
           "1"%char " -2 0"%string ["2 0"%string] Hc eq_refl
           (λ H, ltac:(discriminate H)) Hbad).
Defined.

(** ** From the file to the printed solution *)

Lemma lit_of_inj z z' :
  z ≠ 0%Z → z' ≠ 0%Z → lit_of z = lit_of z' → z = z'.
Proof.
  intros Hz Hz'. unfold lit_of. intros [= Hvar Hsign].
  assert (Z.abs z = Z.abs z') as Habs by lia.
  do 2 case_bool_decide; try done; lia.
Qed.

(** X20: the printed solution satisfies the file.  When [read_formula]
    returns a formula for the lines of a file, comment lines, the header
    (the first line that is no comment) and the rows, and [backtrack] finds
    an assignment for it, the integers printed on the [v] line satisfy
    every row of the file: each row holds, before its closing [0], one of
    the integers printed. *)
Theorem printed_solution_satisfies_file lines f r f' :
  read_formula lines = Returns f → backtrack f = Some (Some r, f') →
  ∃ comments header rows zs line,
    lines = comments ++ header :: rows ∧
    Forall (λ l, ∃ s, strip l = String "c" s) comments ∧
    (∃ c s, strip header = String c s ∧ c ≠ "c"%char) ∧
    print_soln (Some r) = ["s SATISFIABLE"%string; line] ∧
    int_of_token <$> split line = None :: (Some <$> (zs ++ [0%Z])) ∧
    Forall (λ row, ∃ zrow z, row_of row zrow ∧ z ∈ zrow ∧ z ∈ zs) rows.
Proof.
  intros (comments & header & rows & a & b & nvars & nclauses & zrows & Hlines
          & Hcs & Hh & _ & _ & _ & Hrows & Hok & ->)%read_formula_cnf Hb.
  pose proof (cnf_well_formed _ zrows Hok) as Hwf.
  destruct (backtrack_printable _ r f' Hwf Hb) as (Hnames & Hall & _ & Hmod).
  destruct (print_soln_assigned r Hnames Hall) as [Hprint _].
  exists comments, header, rows, (signed_name <$> r). eexists.
  split_and!;
    [done | done | done | exact Hprint | apply int_of_token_soln_line |].
  apply list.Forall_forall. intros row Hrow.
  apply list_elem_of_lookup_1 in Hrow as [k Hk].
  destruct (Forall2_lookup_l _ _ _ _ _ Hrows Hk) as (zrow & Hzk & Hrz).
  apply list_elem_of_lookup_2 in Hzk as Hzrow.
  destruct (Hmod (mkClause (lit_of <$> zrow))) as (z & Hz & Hz0 & Hlit).
  { simpl. apply list_elem_of_fmap. by exists zrow. }
  simpl in Hlit. apply list_elem_of_fmap in Hlit as (z' & Heq & Hz').
  rewrite list.Forall_forall in Hok. specialize (Hok zrow Hzrow).
  rewrite list.Forall_forall in Hok. destruct (Hok z' Hz') as [Hz'0 _].
  apply lit_of_inj in Heq as ->; [| done | done]. by exists zrow, z'.
Qed.

Lemma printed_solution_satisfies_file_witness :
  ∃ f r f',
    read_formula ["c two clauses"; "p cnf 2 2"; "1 2 0"; "-1 -2 0"]%string
      = Returns f ∧
    backtrack f = Some (Some r, f') ∧
    ∃ comments header rows zs line,
      ["c two clauses"; "p cnf 2 2"; "1 2 0"; "-1 -2 0"]%string
        = comments ++ header :: rows ∧
      Forall (λ l, ∃ s, strip l = String "c" s) comments ∧
      (∃ c s, strip header = String c s ∧ c ≠ "c"%char) ∧
      print_soln (Some r) = ["s SATISFIABLE"%string; line] ∧
      int_of_token <$> split line = None :: (Some <$> (zs ++ [0%Z])) ∧
      Forall (λ row, ∃ zrow z, row_of row zrow ∧ z ∈ zrow ∧ z ∈ zs) rows.
Proof.
  eexists _, _, _. split; [vm_compute; reflexivity |].
  split; [vm_compute; reflexivity |].
  eapply (printed_solution_satisfies_file
            ["c two clauses"; "p cnf 2 2"; "1 2 0"; "-1 -2 0"]%string);
    vm_compute; reflexivity.
Defined.
